(** * AeroDyn Model Factory: front end and model core, verified against the spec

    The front-end modules ([EquationEditor], [DraftsApi], [NodeEditModal],
    [GraphEditor], [InsightEngine], [App]) are embeddings of the TypeScript
    sources.  JavaScript numbers are IEEE-754 doubles and are modelled by
    Rocq's primitive binary64 floats; JavaScript strings are modelled as
    lists of 8-bit code units (every character the sources test for is
    ASCII). *)

From Stdlib Require Import Ascii String List Arith Bool Lia ZArith Floats
  DecimalString.
From stdpp Require Import gmap strings.
Import ListNotations.

Set Default Proof Using "Type".
#[local] Set Warnings "-register-all,-inexact-float".

(** ** JavaScript values shared by the modules *)

Module Js.

(** A JavaScript string, one code unit per element. *)
Abbreviation text := (list ascii).

Definition str (s : string) : text := list_ascii_of_string s.

(** A JavaScript number, with the relational operators [<] and [>]
    (false as soon as one side is NaN). *)
Abbreviation number := float.

Definition lt (a b : number) : bool := PrimFloat.ltb a b.
Definition gt (a b : number) : bool := PrimFloat.ltb b a.

(** [Record<string, any>] payloads and other untyped JSON values. *)
Inductive any : Type :=
| Undefined
| Null
| Bool (b : bool)
| Num (x : number)
| Str (s : text)
| Arr (xs : list any)
| Obj (fields : list (text * any)).

(** How an [async] function or a promise settles. *)
Inductive outcome (E A : Type) : Type :=
| Resolved (a : A)
| Rejected (e : E).
Arguments Resolved {E A} a.
Arguments Rejected {E A} e.

(** White space in the sense of [String.prototype.trim], among the code
    units below 256: TAB, LF, VT, FF, CR, SP and NBSP. *)
Definition is_whitespace (c : ascii) : bool :=
  let n := nat_of_ascii c in
  ((9 <=? n) && (n <=? 13)) || (n =? 32) || (n =? 160).

Fixpoint trimStart (s : text) : text :=
  match s with
  | c :: rest => if is_whitespace c then trimStart rest else s
  | [] => []
  end.

Definition trimEnd (s : text) : text := rev (trimStart (rev s)).

Definition trim (s : text) : text := trimEnd (trimStart s).

Definition squote : ascii := "039"%char.
Definition dquote : ascii := "034"%char.

(** The characters of the class [\w]: [A-Za-z0-9_]. *)
Definition is_word_char (c : ascii) : bool :=
  let n := nat_of_ascii c in
  ((48 <=? n) && (n <=? 57)) || ((65 <=? n) && (n <=? 90))
  || ((97 <=? n) && (n <=? 122)) || (n =? 95).

Definition text_eq_dec : forall a b : text, {a = b} + {a <> b} :=
  List.list_eq_dec ascii_dec.

Definition memb (x : text) (l : list text) : bool :=
  if in_dec text_eq_dec x l then true else false.

(** [[...new Set(xs)]]: the distinct elements in order of first occurrence. *)
Fixpoint uniq_from (seen : list text) (xs : list text) : list text :=
  match xs with
  | [] => []
  | x :: rest =>
      if memb x seen then uniq_from seen rest
      else x :: uniq_from (x :: seen) rest
  end.

Definition spread_Set (xs : list text) : list text := uniq_from [] xs.

(** [Array.prototype.join]. *)
Fixpoint join (sep : text) (xs : list text) : text :=
  match xs with
  | [] => []
  | [x] => x
  | x :: rest => x ++ sep ++ join sep rest
  end.

End Js.

(** ** Regular expressions: the fragment the front end uses

    A backtracking matcher in continuation-passing style, following the
    ECMAScript pattern semantics: alternatives are tried left to right, [+]
    is greedy, [\b] looks at the code units on both sides of the cursor. *)

Module Regex.
Import Js.

Inductive regex : Type :=
| REmpty
| RChar (c : ascii)
| RClass (negated : bool) (members : list ascii)
| RClassPlus (negated : bool) (members : list ascii)
| RWordBoundary
| RSeq (r1 r2 : regex)
| RAlt (r1 r2 : regex)
| RGroup (n : nat) (r : regex).

(** The cursor of a match: the code units before it (nearest first) and
    the ones after it. *)
Record cursor := Cursor { before : text; after : text }.

Definition position (c : cursor) : nat := length (before c).

Definition captures : Type := list (nat * text).

Definition mem_ascii (c : ascii) (l : list ascii) : bool :=
  existsb (Ascii.eqb c) l.

Definition class_accepts (negated : bool) (members : list ascii) (c : ascii)
  : bool :=
  xorb negated (mem_ascii c members).

Definition word_before (c : cursor) : bool :=
  match before c with x :: _ => is_word_char x | [] => false end.

Definition word_after (c : cursor) : bool :=
  match after c with x :: _ => is_word_char x | [] => false end.

Definition at_word_boundary (c : cursor) : bool :=
  xorb (word_before c) (word_after c).

(** The text consumed between two cursors of one match. *)
Definition consumed (c c' : cursor) : text :=
  rev (firstn (position c' - position c) (before c')).

Section Matcher.
Context {R : Type}.

Fixpoint class_plus (negated : bool) (members : list ascii)
    (b a : text) (caps : captures)
    (k : cursor -> captures -> option R) : option R :=
  match a with
  | [] => None
  | y :: rest =>
      if class_accepts negated members y then
        match class_plus negated members (y :: b) rest caps k with
        | Some res => Some res
        | None => k (Cursor (y :: b) rest) caps
        end
      else None
  end.

Fixpoint rmatch (r : regex) (c : cursor) (caps : captures)
    (k : cursor -> captures -> option R) : option R :=
  match r with
  | REmpty => k c caps
  | RChar x =>
      match after c with
      | y :: rest =>
          if Ascii.eqb x y then k (Cursor (y :: before c) rest) caps
          else None
      | [] => None
      end
  | RClass negated members =>
      match after c with
      | y :: rest =>
          if class_accepts negated members y
          then k (Cursor (y :: before c) rest) caps
          else None
      | [] => None
      end
  | RClassPlus negated members =>
      class_plus negated members (before c) (after c) caps k
  | RWordBoundary => if at_word_boundary c then k c caps else None
  | RSeq r1 r2 => rmatch r1 c caps (fun c' caps' => rmatch r2 c' caps' k)
  | RAlt r1 r2 =>
      match rmatch r1 c caps k with
      | Some res => Some res
      | None => rmatch r2 c caps k
      end
  | RGroup n r1 =>
      rmatch r1 c caps (fun c' caps' => k c' ((n, consumed c c') :: caps'))
  end.
End Matcher.

(** What [exec] reports: the index of the match, the index after it, the
    matched text ([match[0]]) and the captured groups. *)
Record match_result := MatchResult {
  index : nat;
  end_index : nat;
  matched : text;
  groups : captures
}.

Definition group (n : nat) (m : match_result) : option text :=
  snd <$> find (fun g => fst g =? n) (groups m).

Definition match_here (r : regex) (c : cursor) : option match_result :=
  rmatch r c []
    (fun c' caps =>
       Some (MatchResult (position c) (position c') (consumed c c') caps)).

(** The first position at or after the cursor where the pattern matches. *)
Fixpoint search (r : regex) (b a : text) : option match_result :=
  match match_here r (Cursor b a) with
  | Some m => Some m
  | None =>
      match a with
      | [] => None
      | y :: rest => search r (y :: b) rest
      end
  end.

Definition cursor_at (s : text) (i : nat) : cursor :=
  Cursor (rev (firstn i s)) (skipn i s).

(** RegExpBuiltinExec for a global pattern, as a function of [lastIndex]:
    the result and the new [lastIndex]. *)
Definition builtin_exec (r : regex) (s : text) (lastIndex : nat)
  : option match_result * nat :=
  if length s <? lastIndex then (None, 0)
  else
    match search r (before (cursor_at s lastIndex))
                   (after (cursor_at s lastIndex)) with
    | Some m => (Some m, end_index m)
    | None => (None, 0)
    end.

(** Pattern sources assembled from strings: a literal run of characters
    and a [|]-separated alternation of such runs.  Symbols are taken
    literally, which is what the RegExp constructor does for identifiers. *)
Definition literal (t : text) : regex :=
  fold_right (fun c r => RSeq (RChar c) r) REmpty t.

Definition bar : ascii := "|"%char.

Fixpoint split_alternatives (src : text) : list text :=
  match src with
  | [] => [[]]
  | c :: rest =>
      if Ascii.eqb c bar then [] :: split_alternatives rest
      else
        match split_alternatives rest with
        | alt :: alts => (c :: alt) :: alts
        | [] => [[c]]
        end
  end.

Fixpoint alternation (alts : list text) : regex :=
  match alts with
  | [] => REmpty
  | [a] => literal a
  | a :: rest => RAlt (literal a) (alternation rest)
  end.

Definition parse_alternation (src : text) : regex :=
  alternation (split_alternatives src).

End Regex.

(** ** EquationEditor.tsx: dependency extraction *)

Module EquationEditor.
Import Js Regex.

Record ParameterInfo := { description : text; value : number }.

Record EquationEditorProps := {
  equation : text;
  availableStocks : list text;
  (** [Record<string, {description, value}>], in insertion order *)
  availableParameters : list (text * ParameterInfo)
}.

Record EquationDependencies := {
  stocks : list text;
  parameters : list text
}.

(** A RegExp object: the compiled pattern and its mutable [lastIndex]. *)
Record RegExp := { source : regex; lastIndex : nat }.

(** What a run of the [useMemo] callback can see and touch: the props,
    the [localEquation] state and the RegExp objects allocated so far. *)
Record world := {
  props : EquationEditorProps;
  localEquation : text;
  regexps : list RegExp
}.

Definition M (A : Type) : Type := world -> A * world.

Definition ret {A} (a : A) : M A := fun w => (a, w).

Definition bind {A B} (m : M A) (f : A -> M B) : M B :=
  fun w => let (a, w') := m w in f a w'.

Notation "'let*' x ':=' m 'in' k" := (bind m (fun x => k))
  (at level 10, x name, m at level 100, k at level 200).

Definition get_localEquation : M text := fun w => (localEquation w, w).

Definition get_availableStocks : M (list text) :=
  fun w => (availableStocks (props w), w).

Definition with_regexps (w : world) (h : list RegExp) : world :=
  {| props := props w; localEquation := localEquation w; regexps := h |}.

(** [new RegExp(...)] and regex literals: a fresh object, [lastIndex] 0. *)
Definition new_RegExp (r : regex) : M nat :=
  fun w =>
    (length (regexps w),
     with_regexps w (regexps w ++ [{| source := r; lastIndex := 0 |}])).

Definition set_lastIndex (rx : nat) (i : nat) : M unit :=
  fun w =>
    match regexps w !! rx with
    | Some o =>
        (tt, with_regexps w
               (<[rx := {| source := source o; lastIndex := i |}]> (regexps w)))
    | None => (tt, w)
    end.

(** [rx.exec(s)]: reads and updates [rx.lastIndex]. *)
Definition RegExp_exec (rx : nat) (s : text) : M (option match_result) :=
  fun w =>
    match regexps w !! rx with
    | Some o =>
        let (res, li) := builtin_exec (source o) s (lastIndex o) in
        (res, with_regexps w
                (<[rx := {| source := source o; lastIndex := li |}]> (regexps w)))
    | None => (None, w)
    end.

(** The loop of [String.prototype.match] for a global pattern: collect
    [match[0]] of successive [exec] calls, stepping over empty matches.
    Every call moves [lastIndex] to the right, so [2 + length s] rounds
    always reach the failing call that ends the loop. *)
Fixpoint match_loop (fuel : nat) (rx : nat) (s : text) : M (list text) :=
  match fuel with
  | 0 => ret []
  | S fuel' =>
      let* m := RegExp_exec rx s in
      match m with
      | None => ret []
      | Some m =>
          let* _ :=
            (match matched m with
             | [] => set_lastIndex rx (S (end_index m))
             | _ :: _ => ret tt
             end) in
          let* more := match_loop fuel' rx s in
          ret (matched m :: more)
      end
  end.

(** [s.match(rx)]: [null] when nothing matches, else the array of matches. *)
Definition String_match (s : text) (rx : nat) : M (option (list text)) :=
  let* _ := set_lastIndex rx 0 in
  let* ms := match_loop (2 + length s) rx s in
  ret (match ms with [] => None | _ :: _ => Some ms end).

(** [match[1]]; an unmatched group reads as the empty text here, which the
    parameter pattern never produces. *)
Definition capture1 (m : match_result) : text :=
  match group 1 m with Some t => t | None => [] end.

(** [while ((match = rx.exec(s)) !== null) acc.push(match[1])]. *)
Fixpoint exec_loop (fuel : nat) (rx : nat) (s : text) : M (list text) :=
  match fuel with
  | 0 => ret []
  | S fuel' =>
      let* m := RegExp_exec rx s in
      match m with
      | None => ret []
      | Some m =>
          let* more := exec_loop fuel' rx s in
          ret (capture1 m :: more)
      end
  end.

(** [new RegExp(`\\b(${availableStocks.join('|')})\\b`, 'g')]: the joined
    symbols are read as an alternation of literal texts, which is how the
    RegExp constructor reads symbols free of pattern metacharacters (the
    separator aside); for an empty list the group is empty. *)
Definition stockPattern (availableStocks : list text) : regex :=
  RSeq RWordBoundary
    (RSeq (RGroup 1 (parse_alternation (join [bar] availableStocks)))
          RWordBoundary).

Definition quotes : list ascii := [squote; dquote].

(** The literal [paramPattern]: p, an opening bracket, one quote character
    (single or double), group 1 = one or more characters that are not
    quote characters (greedy), one quote character, a closing bracket;
    flag g. *)
Definition paramPattern : regex :=
  RSeq (RChar "p")
    (RSeq (RChar "[")
       (RSeq (RClass false quotes)
          (RSeq (RGroup 1 (RClassPlus true quotes))
             (RSeq (RClass false quotes) (RChar "]"))))).

(** The callback of [useMemo(() => {...}, [localEquation, availableStocks])]. *)
Definition dependencies : M EquationDependencies :=
  let* localEquation := get_localEquation in
  let* availableStocks := get_availableStocks in
  let* stockPattern := new_RegExp (stockPattern availableStocks) in
  let* stockMatches := String_match localEquation stockPattern in
  let stocks :=
    match stockMatches with
    | Some ms => spread_Set ms
    | None => []
    end in
  let* paramPattern := new_RegExp paramPattern in
  let* pushed := exec_loop (2 + length localEquation) paramPattern localEquation in
  ret {| stocks := stocks; parameters := spread_Set pushed |}.

(** A first render: no RegExp object exists yet. *)
Definition initial_world (p : EquationEditorProps) (eq : text) : world :=
  {| props := p; localEquation := eq; regexps := [] |}.

Definition extract (p : EquationEditorProps) (eq : text)
  : EquationDependencies :=
  fst (dependencies (initial_world p eq)).

End EquationEditor.

(** ** api/drafts.ts: the draft API client *)

Module DraftsApi.
Import Js.

Definition API_BASE : text := str "http://localhost:8000".

Record PatchChange := {
  op : text;
  symbol : option text;
  id : option text;
  data : list (text * any);
  reason : option text
}.

Record Draft := {
  draft_id : text;
  created_at : text;
  based_on_version : option text;
  description : option text;
  changes : list PatchChange;
  metadata : list (text * any)
}.

Inductive http_method := GET | POST | PUT | DELETE.

(** What [JSON.stringify] is applied to; the serialisation itself is the
    host's and is not modelled. *)
Inductive request_body :=
| NoBody
| CreateDraftBody (description : text) (based_on_version : option text)
| ChangeBody (change : PatchChange).

Record Request := {
  url : text;
  method : http_method;
  content_type_json : bool;
  body : request_body
}.

(** An exception value: the [Error] objects this file constructs, and
    whatever [fetch] or [response.json()] rejects with. *)
Inductive error :=
| Error (message : text)
| HostError (what : text).

(** A fetch [Response]: [ok] is derived from the status as the Fetch
    standard defines it; [json] is how [response.json()] settles, read at
    the type the client declares for it. *)
Record Response := {
  status : nat;
  statusText : text;
  json : outcome error Draft
}.

Definition ok (r : Response) : bool := (200 <=? status r) && (status r <=? 299).

Section Client.
(** The network and the backend behind it, at the time of the call. *)
Variable fetch : Request -> outcome error Response.
(** Number::toString, used by template literals. *)
Variable ToString : number -> text.

Definition createDraft_request (description : option text)
    (basedOnVersion : option text) : Request :=
  {| url := API_BASE ++ str "/drafts";
     method := POST;
     content_type_json := true;
     (* description || '' *)
     body := CreateDraftBody
               (match description with
                | Some (c :: d) => c :: d
                | _ => []
                end)
               basedOnVersion |}.

Definition createDraft (description : option text)
    (basedOnVersion : option text) : outcome error Draft :=
  match fetch (createDraft_request description basedOnVersion) with
  | Rejected e => Rejected e
  | Resolved response =>
      if negb (ok response)
      then Rejected (Error (str "Failed to create draft: "
                              ++ statusText response))
      else json response
  end.

Definition addChange_request (draftId : text) (change : PatchChange)
  : Request :=
  {| url := API_BASE ++ str "/drafts/" ++ draftId ++ str "/add-change";
     method := POST;
     content_type_json := true;
     body := ChangeBody change |}.

Definition addChangeToDraft (draftId : text) (change : PatchChange)
  : outcome error unit :=
  match fetch (addChange_request draftId change) with
  | Rejected e => Rejected e
  | Resolved response =>
      if negb (ok response)
      then Rejected (Error (str "Failed to add change: "
                              ++ statusText response))
      else Resolved tt
  end.

Definition removeChange_request (draftId : text) (changeIndex : number)
  : Request :=
  {| url := API_BASE ++ str "/drafts/" ++ draftId ++ str "/changes/"
              ++ ToString changeIndex;
     method := DELETE;
     content_type_json := false;
     body := NoBody |}.

Definition removeChangeFromDraft (draftId : text) (changeIndex : number)
  : outcome error unit :=
  match fetch (removeChange_request draftId changeIndex) with
  | Rejected e => Rejected e
  | Resolved response =>
      if negb (ok response)
      then Rejected (Error (str "Failed to remove change: "
                              ++ statusText response))
      else Resolved tt
  end.
End Client.

End DraftsApi.

(** ** NodeEditModal.tsx: saving an edited state variable *)

Module NodeEditModal.
Import Js.
Import EquationEditor.

(** The fields of [Partial<EditableNodeData>] that [handleSave] sends. *)
Record NodeUpdates := {
  label : text;
  upd_description : text;
  business_meaning : text;
  upd_initial : number;
  upd_category : text
}.

Record SaveDependencies := {
  target : EquationDependencies;
  derivative : EquationDependencies
}.

(** The component state ([useState] cells). *)
Record State := {
  name : text;
  description : text;
  businessMeaning : text;
  initial : number;
  category : text;
  targetEquation : text;
  derivativeEquation : text;
  targetDeps : EquationDependencies;
  derivativeDeps : EquationDependencies;
  validating : bool;
  errors : list text
}.

(** Calls made on the props' callbacks, in order. *)
Inductive call :=
| onSave (nodeId : text) (updates : NodeUpdates) (deps : SaveDependencies)
| onClose.

Definition setValidating (b : bool) (st : State) : State :=
  {| name := name st; description := description st;
     businessMeaning := businessMeaning st; initial := initial st;
     category := category st; targetEquation := targetEquation st;
     derivativeEquation := derivativeEquation st;
     targetDeps := targetDeps st; derivativeDeps := derivativeDeps st;
     validating := b; errors := errors st |}.

Definition setErrors (es : list text) (st : State) : State :=
  {| name := name st; description := description st;
     businessMeaning := businessMeaning st; initial := initial st;
     category := category st; targetEquation := targetEquation st;
     derivativeEquation := derivativeEquation st;
     targetDeps := targetDeps st; derivativeDeps := derivativeDeps st;
     validating := validating st; errors := es |}.

(** [newErrors] after the two checks. *)
Definition newErrors (st : State) : list text :=
  (match trim (name st) with
   | [] => [str "Name is required"]
   | _ :: _ => []
   end)
  ++ (if lt (initial st) 0 || gt (initial st) 1
      then [str "Initial value must be between 0 and 1"]
      else []).

(** [handleSave] for the node being edited (the component renders nothing
    when [node] is null): the new state and the callbacks invoked. *)
Definition handleSave (nodeId : text) (st : State) : State * list call :=
  let st := setValidating true st in
  let st := setErrors [] st in
  match newErrors st with
  | (_ :: _) as es => (setValidating false (setErrors es st), [])
  | [] =>
      (setValidating false st,
       [onSave nodeId
          {| label := name st;
             upd_description := description st;
             business_meaning := businessMeaning st;
             upd_initial := initial st;
             upd_category := category st |}
          {| target := targetDeps st; derivative := derivativeDeps st |};
        onClose])
  end.

End NodeEditModal.

(** ** GraphEditor.tsx: recording changes in the active draft *)

Module GraphEditor.
Import Js DraftsApi.

Record DraftState := {
  active : bool;
  draft : option Draft;
  changes : list PatchChange
}.

(** The component state [addChange] works on, the console and the
    requests sent to the draft API so far. *)
Record world := {
  draftState : DraftState;
  undoStack : list PatchChange;
  redoStack : list PatchChange;
  console_errors : list (text * error);
  sent : list Request
}.

Section Editor.
Variable fetch : Request -> outcome error Response.

Definition session_description : text := str "Live model editing session".

Definition startDraft (w : world) : world :=
  let w := {| draftState := draftState w; undoStack := undoStack w;
              redoStack := redoStack w;
              console_errors := console_errors w;
              sent := sent w
                      ++ [createDraft_request (Some session_description) None] |} in
  match createDraft fetch (Some session_description) None with
  | Resolved d =>
      {| draftState := {| active := true; draft := Some d; changes := [] |};
         undoStack := undoStack w; redoStack := redoStack w;
         console_errors := console_errors w; sent := sent w |}
  | Rejected e =>
      {| draftState := draftState w; undoStack := undoStack w;
         redoStack := redoStack w;
         console_errors :=
           console_errors w ++ [(str "Failed to create draft:", e)];
         sent := sent w |}
  end.

Definition addChange (change : PatchChange) (w : world) : world :=
  match draft (draftState w) with
  | None => startDraft w
  | Some d =>
      let w := {| draftState := draftState w; undoStack := undoStack w;
                  redoStack := redoStack w;
                  console_errors := console_errors w;
                  sent := sent w ++ [addChange_request (draft_id d) change] |} in
      match addChangeToDraft fetch (draft_id d) change with
      | Resolved _ =>
          {| draftState :=
               {| active := active (draftState w);
                  draft := draft (draftState w);
                  changes := changes (draftState w) ++ [change] |};
             undoStack := undoStack w ++ [change];
             redoStack := [];
             console_errors := console_errors w; sent := sent w |}
      | Rejected e =>
          {| draftState := draftState w; undoStack := undoStack w;
             redoStack := redoStack w;
             console_errors :=
               console_errors w ++ [(str "Failed to add change:", e)];
             sent := sent w |}
      end
  end.
End Editor.

(** A request that carries the given change to the backend. *)
Definition carries (change : PatchChange) (r : Request) : Prop :=
  body r = ChangeBody change.

End GraphEditor.

(** ** utils/insightEngine.ts: plain-English insights *)

Module InsightEngine.
Import Js.

Inductive insight_type := warning | success | info.
Inductive insight_impact := high | medium | low.

Record Insight := {
  type : insight_type;
  title : text;
  description : text;
  impact : insight_impact
}.

(** [SimulationResult]; the optional [kpis] and [insights] fields are not
    read by this file. *)
Record SimulationResult := {
  t : list number;
  states : gmap text (list number);
  params : gmap text number;
  initial : list number
}.

Inductive exn := TypeError (reading : text).

(** [xs[i]] read as a number: [undefined] (index out of range) behaves as
    NaN in every comparison and arithmetic operation made on it here. *)
Definition at_index (xs : list number) (i : Z) : number :=
  if (i <? 0)%Z then nan
  else match xs !! Z.to_nat i with Some x => x | None => nan end.

(** [result.states.K[i]]: indexing a missing series throws. *)
Definition state_at (result : SimulationResult) (key : text) (i : Z)
  : outcome exn number :=
  match states result !! key with
  | Some xs => Resolved (at_index xs i)
  | None => Rejected (TypeError key)
  end.

Notation "'let*' x ':=' m 'in' k" :=
  (match m with Resolved x => k | Rejected e => Rejected e end)
  (at level 10, x name, m at level 100, k at level 200).

Section Engine.
(** Number.prototype.toFixed *)
Variable toFixed : number -> nat -> text.

Definition pct (x : number) : text := toFixed (x * 100)%float 0.

Definition generateInsights (result : option SimulationResult)
    (scenarioName : text) : outcome exn (list Insight) :=
  match result with
  | None => Resolved []
  | Some result =>
    let insights : list Insight := [] in
    let lastIdx := (Z.of_nat (length (t result)) - 1)%Z in
    let midIdx := Z.of_nat (length (t result) / 2) in
    let* incidentEnd := state_at result (str "X") lastIdx in
    let* incidentMid := state_at result (str "X") midIdx in
    let insights :=
      if gt incidentEnd 0.6 then
        insights ++
        [{| type := warning; title := str "High Incident Risk";
            description :=
              str "This scenario results in " ++ pct incidentEnd
              ++ str "% incident accumulation, which could damage trust and trigger regulatory scrutiny.";
            impact := high |}]
      else insights in
    let* trustEnd := state_at result (str "L") lastIdx in
    let* trustStart := state_at result (str "L") 0 in
    let insights :=
      if lt trustEnd (trustStart * 0.7)%float then
        insights ++
        [{| type := warning; title := str "Trust Erosion";
            description :=
              str "Legitimacy drops by "
              ++ toFixed ((1 - trustEnd / trustStart) * 100)%float 0
              ++ str "%, potentially limiting future procurement and political support.";
            impact := high |}]
      else insights in
    let* vvEnd := state_at result (str "V") lastIdx in
    let* targetingEnd := state_at result (str "T") lastIdx in
    let insights :=
      if gt targetingEnd 0.6 && lt vvEnd 0.4 then
        insights ++
        [{| type := warning; title := str "V&V Investment Gap";
            description :=
              str "High targeting capability (" ++ pct targetingEnd
              ++ str "%) without adequate V&V maturity (" ++ pct vvEnd
              ++ str "%) increases incident probability.";
            impact := high |}]
      else insights in
    let* tEnd := state_at result (str "T") lastIdx in
    let* sEnd := state_at result (str "S") lastIdx in
    let* dEnd := state_at result (str "D") lastIdx in
    let capabilityEnd := ((tEnd + sEnd + dEnd) / 3)%float in
    let* tStart := state_at result (str "T") 0 in
    let* sStart := state_at result (str "S") 0 in
    let* dStart := state_at result (str "D") 0 in
    let capabilityStart := ((tStart + sStart + dStart) / 3)%float in
    let insights :=
      if gt capabilityEnd (capabilityStart * 1.2)%float && lt incidentEnd 0.4 then
        insights ++
        [{| type := success; title := str "Sustainable Growth";
            description :=
              str "Capability increases by "
              ++ toFixed ((capabilityEnd / capabilityStart - 1) * 100)%float 0
              ++ str "% while maintaining low incident risk. This is a balanced approach.";
            impact := high |}]
      else insights in
    let* ethicsEnd := state_at result (str "E") lastIdx in
    let insights :=
      if gt ethicsEnd 0.7 && gt trustEnd 0.7 then
        insights ++
        [{| type := success; title := str "Strong Compliance Posture";
            description :=
              str "High ethics compliance (" ++ pct ethicsEnd
              ++ str "%) builds trust (" ++ pct trustEnd
              ++ str "%), enabling sustained procurement.";
            impact := medium |}]
      else insights in
    let* resourceEnd := state_at result (str "R") lastIdx in
    let insights :=
      if lt resourceEnd 0.4 then
        insights ++
        [{| type := warning; title := str "Resource Constraints";
            description :=
              str "Resource capacity drops to " ++ pct resourceEnd
              ++ str "%, limiting ability to invest in capabilities or compliance.";
            impact := medium |}]
      else insights in
    Resolved (firstn 3 insights)
  end.
End Engine.

(** The state series [generateInsights] indexes. *)
Definition required_series : list text :=
  map str ["X"; "L"; "V"; "T"; "S"; "D"; "E"; "R"]%string.

End InsightEngine.

(** ** App.tsx: loading a scenario's values *)

Module App.
Import Js.

(** [Parameter] (a reserved word here, hence the underscore), [State] and
    [Scenario] of api.ts. *)
Record Parameter_ := {
  p_id : text; p_name : text; p_category : text; p_description : text;
  p_business_meaning : text;
  value : number;
  p_min : number; p_max : number; p_unit : text; sensitivity : text
}.

Record State := {
  s_id : text; s_name : text; short : text; s_category : text;
  s_description : text; s_business_meaning : text;
  initial : number;
  s_min : number; s_max : number; s_unit : text;
  threshold_warning : option number;
  threshold_danger : option number;
  invert : option bool
}.

Record Scenario := {
  name : text;
  description : text;
  param_overrides : gmap text number;
  initial_overrides : gmap text number
}.

(** [FullConfig], without the relations and simulation settings that
    [loadScenarioValues] does not read. *)
Record FullConfig := {
  states : gmap text State;
  parameters : gmap text Parameter_;
  scenarios : gmap text Scenario
}.

(** The two [useState] cells [loadScenarioValues] sets. *)
Record Values := {
  paramValues : gmap text number;
  initialValues : gmap text number
}.

(** [const d = {}; Object.entries(m).forEach(([k, v]) => { d[k] = f(v) })] *)
Definition collect {A} (f : A -> number) (m : gmap text A)
  : gmap text number :=
  map_fold (fun k v d => <[k := f v]> d) ∅ m.

(** [{ ...defaults, ...overrides }]: later spreads win. *)
Definition spread2 (defaults overrides : gmap text number)
  : gmap text number :=
  overrides ∪ defaults.

Definition loadScenarioValues (scenario : Scenario) (cfg : FullConfig)
  : Values :=
  let defaultParams := collect value (parameters cfg) in
  let defaultInitials := collect initial (states cfg) in
  {| paramValues := spread2 defaultParams (param_overrides scenario);
     initialValues := spread2 defaultInitials (initial_overrides scenario) |}.

End App.

(** ** The expression language of the model core

    The Python sources of the core ([models/equation_dsl.py],
    [models/patch_system.py]) are not part of the front-end tree; the two
    modules below follow sections 3, 4 and 8 of the specification. *)

Module EquationDsl.
Import Js.

(** Modelled from the spec: the binary operators [+ - * / **] of section
    4.1. *)
Inductive binop := Add | Sub | Mul | Div | Pow.

(** Modelled from the spec: the AST of the equation DSL (section 4.1,
    "Grammar & AST"): numeric literals, bare identifiers, parameter
    references [p.<name>], the binary operators, unary negation and calls;
    parentheses leave no node. *)
Inductive expr : Type :=
| Lit (x : number)
| Ident (name : text)
| ParamRef (name : text)
| BinOp (op : binop) (l r : expr)
| Neg (e : expr)
| Call (fn : text) (args : list expr).

(** Modelled from the spec: the [ValidationError] of sections 4.1 and 7,
    naming the offending token or node. *)
Inductive ValidationError :=
| SyntaxError (what : text)
| UnknownSymbol (name : text)
| UnknownParameter (name : text)
| DisallowedCall (fn : text) (arity : nat).

(** Modelled from the spec: [dependencies = {stocks, parameters}] of
    section 4.1. *)
Record Dependencies := {
  stocks : list text;
  parameters : list text
}.

(** Modelled from the spec: what [validate] returns on success, the AST
    plus the dependencies. *)
Record ValidatedExpression := {
  ast : expr;
  dependencies : Dependencies
}.

(** Modelled from the spec: the function whitelist of section 4.1 with the
    arities its signatures show; [min] and [max] are binary, as in
    [clamp(x,lo,hi) = min(max(x,lo),hi)]. *)
Definition whitelist : list (text * nat) :=
  [(str "clamp", 3); (str "min", 2); (str "max", 2); (str "sigmoid", 2);
   (str "step", 2); (str "smoothstep", 3); (str "abs", 1); (str "exp", 1);
   (str "log", 1)].

(** Modelled from the spec: a call is allowed when its name and number of
    arguments are on the whitelist. *)
Definition whitelisted (fn : text) (arity : nat) : bool :=
  existsb (fun e => (if text_eq_dec (fst e) fn then true else false)
                    && (snd e =? arity)) whitelist.

(** Modelled from the spec: the suffix of the implicit binding of section
    8. *)
Definition target_suffix : text := str "_target".

(** Modelled from the spec: [T_target] "is an implicit computed binding,
    not a free symbol needing declaration" (section 8): the name of a known
    state followed by [_target]. *)
Definition implicit_binding (known_states : list text) (name : text) : bool :=
  existsb (fun s => if text_eq_dec name (s ++ target_suffix) then true else false)
          known_states.

(** Modelled from the spec: a reference to a state symbol or to a
    parameter name found in an expression. *)
Inductive symbol_use := UseState (s : text) | UseParameter (p : text).

(** Modelled from the spec: what one node contributes, in source order:
    the problems found (section 4.1, second bullet) and the symbols used.
    A bare identifier must be a known state, or else a known parameter or
    an implicit binding. *)
Fixpoint inspect (known_states known_parameters : list text) (e : expr)
  : list ValidationError * list symbol_use :=
  match e with
  | Lit _ => ([], [])
  | Ident x =>
      if memb x known_states then ([], [UseState x])
      else if memb x known_parameters then ([], [UseParameter x])
      else if implicit_binding known_states x then ([], [])
      else ([UnknownSymbol x], [])
  | ParamRef p =>
      if memb p known_parameters then ([], [UseParameter p])
      else ([UnknownParameter p], [])
  | BinOp _ l r =>
      let '(el, ul) := inspect known_states known_parameters l in
      let '(er, ur) := inspect known_states known_parameters r in
      (el ++ er, ul ++ ur)
  | Neg e1 => inspect known_states known_parameters e1
  | Call fn args =>
      let rs := map (inspect known_states known_parameters) args in
      ((if whitelisted fn (length args) then []
        else [DisallowedCall fn (length args)])
       ++ concat (map fst rs),
       concat (map snd rs))
  end.

(** Modelled from the spec: the referenced state symbols and parameter
    names, in source order. *)
Definition used_states (us : list symbol_use) : list text :=
  flat_map (fun u => match u with UseState s => [s] | _ => [] end) us.

Definition used_parameters (us : list symbol_use) : list text :=
  flat_map (fun u => match u with UseParameter p => [p] | _ => [] end) us.


(** Modelled from the spec: the [EvaluationError] of sections 4.2 and 7;
    a call that validation would have refused shows a corrupted AST. *)
Inductive EvaluationError :=
| UnboundSymbol (name : text)
| DomainError (what : text)
| CorruptedAst (fn : text).

(** Modelled from the spec: [min] and [max] by IEEE comparison. *)
Definition fmax (a b : number) : number := if lt a b then b else a.
Definition fmin (a b : number) : number := if lt b a then b else a.

(** Modelled from the spec: the divisor is exactly zero (of either sign). *)
Definition is_zero (x : number) : bool := PrimFloat.eqb x 0.

Section Core.
(** The concrete syntax (tokens, precedence, source spans) is given by
    the parser of the core. *)
Variable parse : text -> ValidationError + expr.
(** The mathematical library behind [exp], [log] and [**]. *)
Variables (libm_exp libm_log : number -> number)
          (libm_pow : number -> number -> number).

(** Modelled from the spec: [validate(text, known_states,
    known_parameters)] of section 4.1: parse, reject the first construct
    outside the allowlist, else return the AST with the sets of
    referenced state symbols and parameter names. *)
Definition validate (src : text) (known_states known_parameters : list text)
  : ValidationError + ValidatedExpression :=
  match parse src with
  | inl e => inl e
  | inr tree =>
      match inspect known_states known_parameters tree with
      | (e :: _, _) => inl e
      | ([], uses) =>
          inr {| ast := tree;
                 dependencies :=
                   {| stocks := spread_Set (used_states uses);
                      parameters := spread_Set (used_parameters uses) |} |}
      end
  end.

(** Modelled from the spec: the fixed semantics of the whitelisted
    functions (section 4.2). *)
Definition apply_function (fn : text) (args : list number)
  : EvaluationError + number :=
  if text_eq_dec fn (str "clamp") then
    match args with
    | [x; lo; hi] => inr (fmin (fmax x lo) hi)
    | _ => inl (CorruptedAst fn)
    end
  else if text_eq_dec fn (str "min") then
    match args with
    | [a; b] => inr (fmin a b)
    | _ => inl (CorruptedAst fn)
    end
  else if text_eq_dec fn (str "max") then
    match args with
    | [a; b] => inr (fmax a b)
    | _ => inl (CorruptedAst fn)
    end
  else if text_eq_dec fn (str "sigmoid") then
    match args with
    | [x; k] => inr (1 / (1 + libm_exp (- (k * x))))%float
    | _ => inl (CorruptedAst fn)
    end
  else if text_eq_dec fn (str "step") then
    match args with
    | [x; threshold] => inr (if PrimFloat.leb threshold x then 1 else 0)%float
    | _ => inl (CorruptedAst fn)
    end
  else if text_eq_dec fn (str "smoothstep") then
    match args with
    | [x; edge0; edge1] =>
        let u := fmin (fmax ((x - edge0) / (edge1 - edge0))%float 0%float) 1%float in
        inr (u * u * (3 - 2 * u))%float
    | _ => inl (CorruptedAst fn)
    end
  else if text_eq_dec fn (str "abs") then
    match args with
    | [x] => inr (PrimFloat.abs x)
    | _ => inl (CorruptedAst fn)
    end
  else if text_eq_dec fn (str "exp") then
    match args with
    | [x] => inr (libm_exp x)
    | _ => inl (CorruptedAst fn)
    end
  else if text_eq_dec fn (str "log") then
    match args with
    | [x] => if PrimFloat.ltb 0 x then inr (libm_log x)
             else inl (DomainError (str "log"))
    | _ => inl (CorruptedAst fn)
    end
  else inl (CorruptedAst fn).

(** Modelled from the spec: the binary operators in double-precision
    arithmetic, division by exact zero being a domain error. *)
Definition apply_binop (op : binop) (a b : number)
  : EvaluationError + number :=
  match op with
  | Add => inr (a + b)%float
  | Sub => inr (a - b)%float
  | Mul => inr (a * b)%float
  | Div => if is_zero b then inl (DomainError (str "/"))
           else inr (a / b)%float
  | Pow => inr (libm_pow a b)
  end.

(** Modelled from the spec: the arguments of a call are reduced left to
    right; the first failure wins. *)
Fixpoint sequence (rs : list (EvaluationError + number))
  : EvaluationError + list number :=
  match rs with
  | [] => inr []
  | inl e :: _ => inl e
  | inr v :: rest =>
      match sequence rest with
      | inl e => inl e
      | inr vs => inr (v :: vs)
      end
  end.

(** Modelled from the spec: [evaluate(validated_expr, state_bindings,
    parameter_bindings)] of section 4.2. *)
Fixpoint evaluate (e : expr) (state_bindings parameter_bindings : gmap text number)
  : EvaluationError + number :=
  match e with
  | Lit x => inr x
  | Ident x =>
      match state_bindings !! x with
      | Some v => inr v
      | None =>
          match parameter_bindings !! x with
          | Some v => inr v
          | None => inl (UnboundSymbol x)
          end
      end
  | ParamRef p =>
      match parameter_bindings !! p with
      | Some v => inr v
      | None => inl (UnboundSymbol p)
      end
  | BinOp op l r =>
      match evaluate l state_bindings parameter_bindings with
      | inl e => inl e
      | inr a =>
          match evaluate r state_bindings parameter_bindings with
          | inl e => inl e
          | inr b => apply_binop op a b
          end
      end
  | Neg e1 =>
      match evaluate e1 state_bindings parameter_bindings with
      | inl e => inl e
      | inr a => inr (- a)%float
      end
  | Call fn args =>
      match sequence (map (fun a => evaluate a state_bindings parameter_bindings) args) with
      | inl e => inl e
      | inr vs => apply_function fn vs
      end
  end.
End Core.

End EquationDsl.

(** ** The model document, the change operations and the merge engine *)

Module PatchSystem.
Import Js EquationDsl.

(** Modelled from the spec: the entities of section 3.  States are keyed
    by symbol, parameters and scenarios by name, relations by stable id,
    equations by the symbol of the state they govern. *)
Record StateVariable := {
  sv_id : text;
  sv_name : text;
  sv_category : text;
  sv_initial : number;
  sv_min : option number;
  sv_max : option number;
  sv_layout : option (number * number)
}.

(** Modelled from the spec: the Parameter of section 3. *)
Record ModelParameter := {
  mp_id : text;
  mp_value : number;
  mp_min : option number;
  mp_max : option number;
  mp_category : text
}.

(** Modelled from the spec: a relation carries a "signed coefficient or
    parameter reference". *)
Inductive coefficient := Signed (x : number) | FromParameter (name : text).

(** Modelled from the spec: the Relation of section 3; the source may be
    absent. *)
Record Relation := {
  rel_source : option text;
  rel_target : text;
  rel_coefficient : coefficient;
  rel_polarity : text;
  rel_description : text
}.

(** Modelled from the spec: the Equation of section 3, two expression
    texts. *)
Record Equation := { target_expr : text; rate_expr : text }.

(** Modelled from the spec: the Scenario of section 3. *)
Record Scenario := {
  sc_description : text;
  param_overrides : gmap text number;
  initial_overrides : gmap text number
}.

(** Modelled from the spec: the Model Document of sections 2 and 3. *)
Record Model := {
  states : gmap text StateVariable;
  parameters : gmap text ModelParameter;
  relations : gmap text Relation;
  equations : gmap text Equation;
  scenarios : gmap text Scenario
}.

(** Modelled from the spec: the payloads of the update operations; an
    absent field leaves the entity's field as it is. *)
Record StateUpdate := {
  su_name : option text;
  su_category : option text;
  su_initial : option number;
  su_min : option number;
  su_max : option number;
  su_layout : option (number * number)
}.

(** Modelled from the spec: the payload of [update_parameter]. *)
Record ParameterUpdate := {
  pu_value : option number;
  pu_min : option number;
  pu_max : option number;
  pu_category : option text
}.

(** Modelled from the spec: the payload of [update_relation]. *)
Record RelationUpdate := {
  ru_source : option (option text);
  ru_target : option text;
  ru_coefficient : option coefficient;
  ru_polarity : option text;
  ru_description : option text
}.

(** Modelled from the spec: the payload of [update_equation]. *)
Record EquationUpdate := {
  eu_target_expr : option text;
  eu_rate_expr : option text
}.

(** Modelled from the spec: the payload of [update_scenario]. *)
Record ScenarioUpdate := {
  scu_description : option text;
  scu_param_overrides : option (gmap text number);
  scu_initial_overrides : option (gmap text number)
}.

(** Modelled from the spec: the change operations (section 2), one variant
    per operation as section 9 asks: add, remove and update for states,
    relations, parameters and equations, and the scenario operations. *)
Inductive ChangeOperation :=
| add_state (symbol : text) (data : StateVariable)
| remove_state (symbol : text)
| update_state (symbol : text) (data : StateUpdate)
| add_relation (id : text) (data : Relation)
| remove_relation (id : text)
| update_relation (id : text) (data : RelationUpdate)
| add_parameter (name : text) (data : ModelParameter)
| remove_parameter (name : text)
| update_parameter (name : text) (data : ParameterUpdate)
| add_equation (symbol : text) (data : Equation)
| remove_equation (symbol : text)
| update_equation (symbol : text) (data : EquationUpdate)
| add_scenario (name : text) (data : Scenario)
| update_scenario (name : text) (data : ScenarioUpdate)
| remove_scenario (name : text).

(** Modelled from the spec: a ChangeOperation with its free-text
    rationale, and the Draft that lists them in order (section 3). *)
Record Change := { operation : ChangeOperation; rationale : text }.

Record Draft := {
  draft_id : text;
  created_at : text;
  based_on : text;
  changes : list Change;
  metadata : list (text * any)
}.

(** Modelled from the spec: the kinds of entity an operation targets. *)
Inductive entity_kind := KState | KRelation | KParameter | KEquation | KScenario.

(** Modelled from the spec: the structured reason of a skipped operation
    (sections 4.3 and 7). *)
Inductive MergeSkip :=
| DuplicateKey (kind : entity_kind) (key : text)
| MissingTarget (kind : entity_kind) (key : text)
| UnknownState (symbol : text)
| UnknownParameterName (name : text)
| InvalidExpression (symbol : text) (e : ValidationError).

(** Modelled from the spec: the cascaded removals reported in
    [warnings] (section 4.3). *)
Inductive Warning :=
| CascadedRelation (symbol : text) (id : text)
| CascadedEquation (symbol : text).

(** Modelled from the spec: the problems the Model Validator reports
    (section 4.4). *)
Inductive Inconsistency :=
| DanglingEndpoint (relation : text) (symbol : text)
| DanglingCoefficient (relation : text) (parameter : text)
| EquationWithoutState (symbol : text)
| UnresolvedEquation (symbol : text) (e : ValidationError)
| DuplicateId (kind : entity_kind) (id : text)
| OutOfBounds (kind : entity_kind) (key : text)
| DanglingOverride (scenario : text) (key : text).

(** Modelled from the spec: [{valid, errors, warnings}] of section 4.4. *)
Record Report := {
  valid : bool;
  errors : list Inconsistency;
  report_warnings : list Warning
}.

(** Modelled from the spec: the two modes of [merge] (section 4.3). *)
Inductive mode := preview | commit.

(** Modelled from the spec: [MergeResult] of section 4.3, with the
    validator's report and the signal that [commit] adds. *)
Record MergeResult := {
  effective_model : option Model;
  applied_count : nat;
  skipped : list (nat * MergeSkip);
  warnings : list Warning;
  report : Report;
  treat_as_new_base : bool
}.

(** Modelled from the spec: the current symbols or names of one kind. *)
Definition keys {A} (m : gmap text A) : list text := fst <$> map_to_list m.

(** Modelled from the spec: the working document has the key. *)
Definition has {A} (m : gmap text A) (k : text) : bool :=
  match m !! k with Some _ => true | None => false end.

(** Modelled from the spec: the first key of a map of overrides that
    does not resolve. *)
Definition first_unresolved (resolves : text -> bool) (overrides : gmap text number)
  : option text :=
  find (fun k => negb (resolves k)) (keys overrides).

(** Modelled from the spec: the relation has [symbol] as source or
    target (the cascade of section 4.3). *)
Definition touches (symbol : text) (r : Relation) : bool :=
  (match rel_source r with
   | Some s => if text_eq_dec s symbol then true else false
   | None => false
   end)
  || (if text_eq_dec (rel_target r) symbol then true else false).

(** Modelled from the spec: an update overwrites the fields its payload
    gives. *)
Definition patch_state (u : StateUpdate) (s : StateVariable) : StateVariable :=
  {| sv_id := sv_id s;
     sv_name := default (sv_name s) (su_name u);
     sv_category := default (sv_category s) (su_category u);
     sv_initial := default (sv_initial s) (su_initial u);
     sv_min := match su_min u with Some x => Some x | None => sv_min s end;
     sv_max := match su_max u with Some x => Some x | None => sv_max s end;
     sv_layout := match su_layout u with Some x => Some x | None => sv_layout s end |}.

Definition patch_parameter (u : ParameterUpdate) (p : ModelParameter)
  : ModelParameter :=
  {| mp_id := mp_id p;
     mp_value := default (mp_value p) (pu_value u);
     mp_min := match pu_min u with Some x => Some x | None => mp_min p end;
     mp_max := match pu_max u with Some x => Some x | None => mp_max p end;
     mp_category := default (mp_category p) (pu_category u) |}.

Definition patch_relation (u : RelationUpdate) (r : Relation) : Relation :=
  {| rel_source := default (rel_source r) (ru_source u);
     rel_target := default (rel_target r) (ru_target u);
     rel_coefficient := default (rel_coefficient r) (ru_coefficient u);
     rel_polarity := default (rel_polarity r) (ru_polarity u);
     rel_description := default (rel_description r) (ru_description u) |}.

Definition patch_equation (u : EquationUpdate) (e : Equation) : Equation :=
  {| target_expr := default (target_expr e) (eu_target_expr u);
     rate_expr := default (rate_expr e) (eu_rate_expr u) |}.

Definition patch_scenario (u : ScenarioUpdate) (s : Scenario) : Scenario :=
  {| sc_description := default (sc_description s) (scu_description u);
     param_overrides := default (param_overrides s) (scu_param_overrides u);
     initial_overrides := default (initial_overrides s) (scu_initial_overrides u) |}.

Definition set_states (w : Model) (m : gmap text StateVariable) : Model :=
  {| states := m; parameters := parameters w; relations := relations w;
     equations := equations w; scenarios := scenarios w |}.
Definition set_parameters (w : Model) (m : gmap text ModelParameter) : Model :=
  {| states := states w; parameters := m; relations := relations w;
     equations := equations w; scenarios := scenarios w |}.
Definition set_relations (w : Model) (m : gmap text Relation) : Model :=
  {| states := states w; parameters := parameters w; relations := m;
     equations := equations w; scenarios := scenarios w |}.
Definition set_equations (w : Model) (m : gmap text Equation) : Model :=
  {| states := states w; parameters := parameters w; relations := relations w;
     equations := m; scenarios := scenarios w |}.
Definition set_scenarios (w : Model) (m : gmap text Scenario) : Model :=
  {| states := states w; parameters := parameters w; relations := relations w;
     equations := equations w; scenarios := m |}.

(** Modelled from the spec: the identifiers shared by two entities of one
    kind. *)
Fixpoint repeated (l : list text) : list text :=
  match l with
  | [] => []
  | x :: rest => (if memb x rest then [x] else []) ++ repeated rest
  end.

(** Modelled from the spec: a value outside a declared bound. *)
Definition below (bound : option number) (x : number) : bool :=
  match bound with Some b => lt x b | None => false end.
Definition above (bound : option number) (x : number) : bool :=
  match bound with Some b => gt x b | None => false end.

Section Engine.
Variable parse : text -> ValidationError + expr.

(** Modelled from the spec: the checks a relation must pass "at the time
    the relation is committed" (section 3). *)
Definition check_relation (w : Model) (r : Relation) : option MergeSkip :=
  match rel_source r with
  | Some s =>
      if has (states w) s then
        (if has (states w) (rel_target r) then
           match rel_coefficient r with
           | FromParameter p =>
               if has (parameters w) p then None
               else Some (UnknownParameterName p)
           | Signed _ => None
           end
         else Some (UnknownState (rel_target r)))
      else Some (UnknownState s)
  | None =>
      if has (states w) (rel_target r) then
        match rel_coefficient r with
        | FromParameter p =>
            if has (parameters w) p then None
            else Some (UnknownParameterName p)
        | Signed _ => None
        end
      else Some (UnknownState (rel_target r))
  end.

(** Modelled from the spec: [add_equation] and [update_equation] re-run
    the validator on both expressions against the working state and
    parameter sets (section 4.3). *)
Definition check_equation (w : Model) (symbol : text) (e : Equation)
  : option MergeSkip :=
  if has (states w) symbol then
    match validate parse (target_expr e) (keys (states w)) (keys (parameters w)) with
    | inl err => Some (InvalidExpression symbol err)
    | inr _ =>
        match validate parse (rate_expr e) (keys (states w)) (keys (parameters w)) with
        | inl err => Some (InvalidExpression symbol err)
        | inr _ => None
        end
    end
  else Some (UnknownState symbol).

(** Modelled from the spec: every operation is checked against the
    current working state (section 4.3); for a scenario, every
    overridden key must name a parameter or a state (section 3). *)
Definition check_scenario (w : Model) (s : Scenario) : option MergeSkip :=
  match first_unresolved (has (parameters w)) (param_overrides s) with
  | Some p => Some (UnknownParameterName p)
  | None =>
      match first_unresolved (has (states w)) (initial_overrides s) with
      | Some z => Some (UnknownState z)
      | None => None
      end
  end.

(** Modelled from the spec: one operation applied to the working
    document (section 4.3): it is checked against the current working
    state and either rejected with a structured reason or applied;
    [remove_state] cascades and reports what it removed. *)
Definition apply_change (w : Model) (op : ChangeOperation)
  : MergeSkip + (Model * list Warning) :=
  match op with
  | add_state symbol data =>
      if has (states w) symbol then inl (DuplicateKey KState symbol)
      else inr (set_states w (<[symbol := data]> (states w)), [])
  | remove_state symbol =>
      if has (states w) symbol then
        let gone := filter (fun kr => touches symbol (snd kr) = true) (relations w) in
        let kept := filter (fun kr => touches symbol (snd kr) = false) (relations w) in
        inr ({| states := delete symbol (states w);
                parameters := parameters w;
                relations := kept;
                equations := delete symbol (equations w);
                scenarios := scenarios w |},
             (CascadedRelation symbol <$> keys gone)
             ++ (if has (equations w) symbol then [CascadedEquation symbol] else []))
      else inl (MissingTarget KState symbol)
  | update_state symbol data =>
      match states w !! symbol with
      | Some s => inr (set_states w (<[symbol := patch_state data s]> (states w)), [])
      | None => inl (MissingTarget KState symbol)
      end
  | add_relation id data =>
      if has (relations w) id then inl (DuplicateKey KRelation id)
      else
        match check_relation w data with
        | Some skip => inl skip
        | None => inr (set_relations w (<[id := data]> (relations w)), [])
        end
  | remove_relation id =>
      if has (relations w) id
      then inr (set_relations w (delete id (relations w)), [])
      else inl (MissingTarget KRelation id)
  | update_relation id data =>
      match relations w !! id with
      | Some r =>
          match check_relation w (patch_relation data r) with
          | Some skip => inl skip
          | None =>
              inr (set_relations w (<[id := patch_relation data r]> (relations w)), [])
          end
      | None => inl (MissingTarget KRelation id)
      end
  | add_parameter name data =>
      if has (parameters w) name then inl (DuplicateKey KParameter name)
      else inr (set_parameters w (<[name := data]> (parameters w)), [])
  | remove_parameter name =>
      if has (parameters w) name
      then inr (set_parameters w (delete name (parameters w)), [])
      else inl (MissingTarget KParameter name)
  | update_parameter name data =>
      match parameters w !! name with
      | Some p =>
          inr (set_parameters w (<[name := patch_parameter data p]> (parameters w)), [])
      | None => inl (MissingTarget KParameter name)
      end
  | add_equation symbol data =>
      if has (equations w) symbol then inl (DuplicateKey KEquation symbol)
      else
        match check_equation w symbol data with
        | Some skip => inl skip
        | None => inr (set_equations w (<[symbol := data]> (equations w)), [])
        end
  | remove_equation symbol =>
      if has (equations w) symbol
      then inr (set_equations w (delete symbol (equations w)), [])
      else inl (MissingTarget KEquation symbol)
  | update_equation symbol data =>
      match equations w !! symbol with
      | Some e =>
          match check_equation w symbol (patch_equation data e) with
          | Some skip => inl skip
          | None =>
              inr (set_equations w (<[symbol := patch_equation data e]> (equations w)), [])
          end
      | None => inl (MissingTarget KEquation symbol)
      end
  | add_scenario name data =>
      if has (scenarios w) name then inl (DuplicateKey KScenario name)
      else
        match check_scenario w data with
        | Some skip => inl skip
        | None => inr (set_scenarios w (<[name := data]> (scenarios w)), [])
        end
  | update_scenario name data =>
      match scenarios w !! name with
      | Some s =>
          match check_scenario w (patch_scenario data s) with
          | Some skip => inl skip
          | None =>
              inr (set_scenarios w (<[name := patch_scenario data s]> (scenarios w)), [])
          end
      | None => inl (MissingTarget KScenario name)
      end
  | remove_scenario name =>
      if has (scenarios w) name
      then inr (set_scenarios w (delete name (scenarios w)), [])
      else inl (MissingTarget KScenario name)
  end.

(** Modelled from the spec: what a run over the operations accumulates. *)
Record Progress := {
  working : Model;
  applied : nat;
  skips : list (nat * MergeSkip);
  cascades : list Warning
}.

(** Modelled from the spec: the operations are applied strictly in list
    order; a failing one is recorded with its index (counted from 0) and
    the run continues with the next (section 4.3). *)
Fixpoint apply_changes (index : nat) (acc : Progress) (ops : list Change)
  : Progress :=
  match ops with
  | [] => acc
  | c :: rest =>
      match apply_change (working acc) (operation c) with
      | inr (w', ws) =>
          apply_changes (S index)
            {| working := w'; applied := S (applied acc);
               skips := skips acc; cascades := cascades acc ++ ws |} rest
      | inl reason =>
          apply_changes (S index)
            {| working := working acc; applied := applied acc;
               skips := skips acc ++ [(index, reason)];
               cascades := cascades acc |} rest
      end
  end.

(** Modelled from the spec: the whole-model checks of section 4.4,
    accumulating every problem. *)
Definition relation_problems (w : Model) : list Inconsistency :=
  flat_map
    (fun kr : text * Relation =>
       (match rel_source (snd kr) with
        | Some s => if has (states w) s then [] else [DanglingEndpoint (fst kr) s]
        | None => []
        end)
       ++ (if has (states w) (rel_target (snd kr)) then []
           else [DanglingEndpoint (fst kr) (rel_target (snd kr))])
       ++ (match rel_coefficient (snd kr) with
           | FromParameter p =>
               if has (parameters w) p then [] else [DanglingCoefficient (fst kr) p]
           | Signed _ => []
           end))
    (map_to_list (relations w)).

(** Modelled from the spec: equations whose governing state or whose
    dependencies are missing (section 4.4). *)
Definition equation_problems (w : Model) : list Inconsistency :=
  flat_map
    (fun ke : text * Equation =>
       (if has (states w) (fst ke) then [] else [EquationWithoutState (fst ke)])
       ++ (match validate parse (target_expr (snd ke)) (keys (states w)) (keys (parameters w)) with
           | inl err => [UnresolvedEquation (fst ke) err]
           | inr _ => []
           end)
       ++ (match validate parse (rate_expr (snd ke)) (keys (states w)) (keys (parameters w)) with
           | inl err => [UnresolvedEquation (fst ke) err]
           | inr _ => []
           end))
    (map_to_list (equations w)).

(** Modelled from the spec: entities of one kind that share a stable id
    (section 4.4). *)
Definition duplicate_problems (w : Model) : list Inconsistency :=
  (DuplicateId KState <$> repeated ((fun ks => sv_id (snd ks)) <$> map_to_list (states w)))
  ++ (DuplicateId KParameter
        <$> repeated ((fun kp => mp_id (snd kp)) <$> map_to_list (parameters w))).

(** Modelled from the spec: numeric fields outside their declared bounds
    (section 4.4). *)
Definition bound_problems (w : Model) : list Inconsistency :=
  flat_map
    (fun ks : text * StateVariable =>
       if below (sv_min (snd ks)) (sv_initial (snd ks))
          || above (sv_max (snd ks)) (sv_initial (snd ks))
       then [OutOfBounds KState (fst ks)] else [])
    (map_to_list (states w))
  ++ flat_map
    (fun kp : text * ModelParameter =>
       if below (mp_min (snd kp)) (mp_value (snd kp))
          || above (mp_max (snd kp)) (mp_value (snd kp))
       then [OutOfBounds KParameter (fst kp)] else [])
    (map_to_list (parameters w)).

(** Modelled from the spec: scenario overrides that resolve to nothing
    (section 4.4). *)
Definition scenario_problems (w : Model) : list Inconsistency :=
  flat_map
    (fun ks : text * Scenario =>
       (DanglingOverride (fst ks)
          <$> filter (fun k => has (parameters w) k = false) (keys (param_overrides (snd ks))))
       ++ (DanglingOverride (fst ks)
          <$> filter (fun k => has (states w) k = false) (keys (initial_overrides (snd ks)))))
    (map_to_list (scenarios w)).

(** Modelled from the spec: [validate(model)] of section 4.4: every
    check is run and the report lists every problem. *)
Definition validate_model (w : Model) : Report :=
  let problems :=
    relation_problems w ++ equation_problems w ++ duplicate_problems w
    ++ bound_problems w ++ scenario_problems w in
  {| valid := match problems with [] => true | _ :: _ => false end;
     errors := problems;
     report_warnings := [] |}.

(** Modelled from the spec: [merge(base_model, draft, mode)] of section
    4.3.  The working document starts as a copy of the base (values are
    immutable here, so the base cannot change); the effective model is
    returned when the Model Validator accepts it and discarded
    otherwise. *)
Definition merge (base_model : Model) (draft : Draft) (m : mode) : MergeResult :=
  let run :=
    apply_changes 0
      {| working := base_model; applied := 0; skips := []; cascades := [] |}
      (changes draft) in
  let rep := validate_model (working run) in
  {| effective_model := if valid rep then Some (working run) else None;
     applied_count := applied run;
     skipped := skips run;
     warnings := cascades run;
     report := rep;
     treat_as_new_base :=
       valid rep && match m with commit => true | preview => false end |}.

End Engine.

End PatchSystem.

Module EquationEditorSpec.
Import Js Regex EquationEditor.

(** A symbol the pattern constructor reads literally: non-empty and made
    of letters, digits and underscores. *)
Definition identifier (t : text) : Prop :=
  t <> [] /\ Forall (fun c => is_word_char c = true) t.

Definition ends_with_word (pre : text) : bool :=
  match rev pre with c :: _ => is_word_char c | [] => false end.

Definition starts_with_word (post : text) : bool :=
  match post with c :: _ => is_word_char c | [] => false end.

(** [sym] occurs in [s] as a token of its own: no word character touches
    it on either side. *)
Definition standalone (s sym : text) : Prop :=
  exists pre post,
    s = pre ++ sym ++ post
    /\ ends_with_word pre = false /\ starts_with_word post = false.

Definition is_quote (c : ascii) : bool := mem_ascii c quotes.

(** [s] contains the bracket reference to [name]: p, an opening bracket, a
    quote character, the name (non-empty, free of quote characters), a
    quote character, a closing bracket. *)
Definition bracket_reference (s name : text) : Prop :=
  exists pre q1 q2 post,
    s = pre ++ "p"%char :: "["%char :: q1 :: name ++ q2 :: "]"%char :: post
    /\ is_quote q1 = true /\ is_quote q2 = true
    /\ name <> [] /\ Forall (fun c => is_quote c = false) name.

(** The claim on dependency extraction as the specification words it:
    both components are exact with respect to the known symbols. *)
Definition exact_dependencies (s : text) (known_stocks known_parameters : list text)
    (d : EquationDependencies) : Prop :=
  (forall sym, In sym (stocks d) <-> In sym known_stocks /\ standalone s sym)
  /\ (forall name, In name (parameters d)
                   <-> In name known_parameters /\ bracket_reference s name).

End EquationEditorSpec.

Module EquationEditorExamples.
Import Js Regex EquationEditor EquationEditorSpec.

Definition no_parameters : list (text * ParameterInfo) := [].

(** The placeholder equation of the node editor, with three known stocks. *)
Definition targeting_world : world :=
  {| props := {| equation := [];
                 availableStocks := [str "T"; str "S"; str "R"];
                 availableParameters := no_parameters |};
     localEquation :=
       str "clamp(p['surveillance_to_targeting'] * S + 0.2 * R, 0, 1)";
     regexps := [] |}.

(** The same inputs on a later render: other RegExp objects are around,
    one of them left in the middle of a scan, and other parameters known. *)
Definition later_world : world :=
  {| props := {| equation := str "S";
                 availableStocks := [str "T"; str "S"; str "R"];
                 availableParameters :=
                   [(str "kT", {| description := str "rate"; value := 0.5%float |})] |};
     localEquation :=
       str "clamp(p['surveillance_to_targeting'] * S + 0.2 * R, 0, 1)";
     regexps := [{| source := paramPattern; lastIndex := 7 |}] |}.

(** No stock known yet, and a reference to a parameter nobody declared. *)
Definition empty_props : EquationEditorProps :=
  {| equation := []; availableStocks := []; availableParameters := no_parameters |}.


Definition known_parameters (p : EquationEditorProps) : list text :=
  map fst (availableParameters p).


End EquationEditorExamples.

(** ** Auxiliary definitions for the proofs about the dependency extraction *)

Module EquationEditorDenotation.
Import Js Regex EquationEditor.

(** A cursor and the text it runs over. *)
Definition text_of (c : cursor) : text := rev (before c) ++ after c.

(** [strip t a]: what follows [t] when [a] starts with [t]. *)
Fixpoint strip (t a : text) : option text :=
  match t, a with
  | [], _ => Some a
  | x :: t', y :: a' => if Ascii.eqb x y then strip t' a' else None
  | _ :: _, [] => None
  end.

(** The successive [exec] results of a loop that starts at [lastIndex = i],
    and the [lastIndex] it leaves; [advance] steps over empty matches as
    [String.prototype.match] does. *)
Fixpoint run_exec (advance : bool) (fuel : nat) (r : regex) (s : text) (i : nat)
  : list match_result * nat :=
  match fuel with
  | 0 => ([], i)
  | S fuel' =>
      match builtin_exec r s i with
      | (None, j) => ([], j)
      | (Some m, j) =>
          let j' := if advance
                    then match matched m with [] => S (end_index m) | _ :: _ => j end
                    else j in
          let (more, k) := run_exec advance fuel' r s j' in
          (m :: more, k)
      end
  end.

(** The world after [lastIndex] of the object at [rx] is set to [i]. *)
Definition set_li (w : world) (rx : nat) (r : regex) (i : nat) : world :=
  with_regexps w (<[rx := {| source := r; lastIndex := i |}]> (regexps w)).

(** The two components the callback computes, as functions of its inputs. *)
Definition stocks_of (eq : text) (availableStocks : list text) : list text :=
  spread_Set
    (map matched
       (fst (run_exec true (2 + length eq) (stockPattern availableStocks) eq 0))).

Definition parameters_of (eq : text) : list text :=
  spread_Set
    (map capture1 (fst (run_exec false (2 + length eq) paramPattern eq 0))).

(** A symbol without the separator of alternatives. *)
Definition no_bar (x : text) : Prop := Forall (fun c => Ascii.eqb c bar = false) x.

(** The alternatives tried in order: the first literal that is a prefix
    of the input and lets the continuation succeed. *)
Fixpoint try_alts {R} (alts : list text) (b a : text) (caps : captures)
    (k : cursor -> captures -> option R) : option R :=
  match alts with
  | [] => None
  | t :: rest =>
      match
        match strip t a with
        | Some r => k (Cursor (rev t ++ b) r) caps
        | None => None
        end
      with
      | Some res => Some res
      | None => try_alts rest b a caps k
      end
  end.

(** The stock pattern over a given list of alternatives. *)
Definition stock_regex (alts : list text) : regex :=
  RSeq RWordBoundary (RSeq (RGroup 1 (alternation alts)) RWordBoundary).

(** A class repetition cannot go on into [rest]. *)
Definition stops (negated : bool) (members : list ascii) (rest : text) : Prop :=
  match rest with
  | y :: _ => class_accepts negated members y = false
  | [] => True
  end.

End EquationEditorDenotation.

Module HostNumbers.
Import Js.

(** The sign, the integer significand and the binary exponent of a finite
    double. *)
Definition exact_value (x : number) : option (bool * Z * Z) :=
  match Prim2SF x with
  | S754_zero s => Some (s, 0%Z, 0%Z)
  | S754_finite s m e => Some (s, Zpos m, e)
  | S754_infinity _ | S754_nan => None
  end.

(** The integer nearest to [m * 2^e * 10^digits], ties upwards. *)
Definition round_scaled (m e : Z) (digits : nat) : Z :=
  let num := (m * 10 ^ Z.of_nat digits)%Z in
  if (0 <=? e)%Z then (num * 2 ^ e)%Z
  else ((2 * num + 2 ^ (- e)) / (2 * 2 ^ (- e)))%Z.

Definition decimal (n : Z) : text :=
  list_ascii_of_string (DecimalString.NilZero.string_of_uint (N.to_uint (Z.to_N n))).

Definition pad (digits : nat) (ds : text) : text :=
  repeat "0"%char (S digits - length ds) ++ ds.

(** [Number.prototype.toFixed] on NaN and on the finite doubles below
    1e21, which is all the examples use (larger values and the infinities
    print through Number::toString, which is not reproduced here). *)
Definition toFixed (x : number) (digits : nat) : text :=
  match exact_value x with
  | None => str "NaN"
  | Some (s, m, e) =>
      let ds := pad digits (decimal (round_scaled m e digits)) in
      (if s && negb (m =? 0)%Z then str "-" else [])
      ++ match digits with
         | 0 => ds
         | S _ => firstn (length ds - digits) ds ++ str "."
                  ++ skipn (length ds - digits) ds
         end
  end.

(** Number::toString on the integers below 1e21, where it prints the
    same digits as [toFixed(0)]. *)
Definition ToString (x : number) : text := toFixed x 0.

End HostNumbers.

Module FrontEndExamples.
Import Js DraftsApi HostNumbers.

Definition reposition : PatchChange :=
  {| op := str "update_state"; symbol := Some (str "T"); id := None;
     data := [(str "ui", Obj [(str "x", Num 120%float); (str "y", Num 80%float)])];
     reason := Some (str "Node repositioned") |}.

Definition session_draft : Draft :=
  {| draft_id := str "draft_20260205_143000";
     created_at := str "2026-02-05T14:30:00";
     based_on_version := None;
     description := Some (str "Live model editing session");
     changes := [];
     metadata := [] |}.

Definition reply (code : nat) (reason : text) : Response :=
  {| status := code; statusText := reason;
     json := if (200 <=? code) && (code <=? 299) then Resolved session_draft
             else Rejected (HostError (str "SyntaxError")) |}.

Definition same_text (a b : text) : bool := if text_eq_dec a b then true else false.

(** A backend that holds one draft with two changes: it creates drafts,
    accepts changes for the draft it holds, deletes the changes at index 0
    and 1 and answers 404 to anything else. *)
Definition backend (r : Request) : outcome error Response :=
  let base := API_BASE ++ str "/drafts" in
  let mine := base ++ str "/draft_20260205_143000" in
  match method r with
  | POST =>
      if same_text (url r) base then Resolved (reply 200 (str "OK"))
      else if same_text (url r) (mine ++ str "/add-change")
           then Resolved (reply 200 (str "OK"))
           else Resolved (reply 404 (str "Not Found"))
  | DELETE =>
      if same_text (url r) (mine ++ str "/changes/0")
         || same_text (url r) (mine ++ str "/changes/1")
      then Resolved (reply 200 (str "OK"))
      else Resolved (reply 404 (str "Not Found"))
  | GET | PUT => Resolved (reply 404 (str "Not Found"))
  end.

Definition offline (r : Request) : outcome error Response :=
  Rejected (HostError (str "TypeError: Failed to fetch")).

End FrontEndExamples.

Module NodeEditExamples.
Import Js EquationEditor NodeEditModal.

Definition no_dependencies : EquationDependencies :=
  {| stocks := []; parameters := [] |}.

Definition form (n : text) (x : number) : State :=
  {| name := n; description := str "Accuracy of targeting";
     businessMeaning := str "How accurate are our AI targeting systems?";
     initial := x; category := str "capability";
     targetEquation := []; derivativeEquation := [];
     targetDeps := no_dependencies; derivativeDeps := no_dependencies;
     validating := false; errors := [] |}.

(** A name is blank when it is empty or made of white space only. *)
Definition blank (s : text) : Prop := Forall (fun c => is_whitespace c = true) s.

End NodeEditExamples.

Module GraphEditorExamples.
Import Js DraftsApi GraphEditor FrontEndExamples.

(** The editor as it is mounted: no draft, nothing recorded, nothing sent. *)
Definition fresh_editor : world :=
  {| draftState := {| active := false; draft := None; changes := [] |};
     undoStack := []; redoStack := [];
     console_errors := []; sent := [] |}.

End GraphEditorExamples.

Module InsightExamples.
Import Js InsightEngine.

Definition series (xs : list (string * list number)) : gmap text (list number) :=
  list_to_map (map (fun kv => (str (fst kv), snd kv)) xs).

(** A run in which incidents pile up, trust erodes and resources run out:
    four insights are computed. *)
Definition risky_run : SimulationResult :=
  {| t := [0; 5; 10]%float;
     states := series [("X", [0.1; 0.5; 0.8]); ("L", [0.8; 0.6; 0.4]);
                       ("V", [0.3; 0.3; 0.3]); ("T", [0.5; 0.6; 0.7]);
                       ("S", [0.5; 0.5; 0.5]); ("D", [0.5; 0.5; 0.5]);
                       ("E", [0.5; 0.5; 0.5]); ("R", [0.6; 0.4; 0.2])]%string%float;
     params := ∅;
     initial := [] |}.

(** A result of a model from which the state X was removed. *)
Definition run_without_X : SimulationResult :=
  {| t := [0; 5; 10]%float;
     states := series [("L", [0.8; 0.6; 0.4]); ("V", [0.3; 0.3; 0.3]);
                       ("T", [0.5; 0.6; 0.7]); ("S", [0.5; 0.5; 0.5]);
                       ("D", [0.5; 0.5; 0.5]); ("E", [0.5; 0.5; 0.5]);
                       ("R", [0.6; 0.4; 0.2])]%string%float;
     params := ∅;
     initial := [] |}.

(** The claim on [generateInsights] as worded: it returns a list of at
    most three insights for every simulation result. *)
Definition always_returns_at_most_three (toFixed : number -> nat -> text) : Prop :=
  forall (result : option SimulationResult) (scenarioName : text),
  exists insights,
    generateInsights toFixed result scenarioName = Resolved insights
    /\ length insights <= 3.

End InsightExamples.

Module AppExamples.
Import Js App.

Definition parameter (v : number) : Parameter_ :=
  {| p_id := str "param"; p_name := str "Rate"; p_category := str "rates";
     p_description := []; p_business_meaning := [];
     value := v; p_min := 0%float; p_max := 1%float; p_unit := [];
     sensitivity := str "medium" |}.

Definition state (v : number) : State :=
  {| s_id := str "state"; s_name := str "Stock"; short := str "S";
     s_category := str "capability"; s_description := [];
     s_business_meaning := [];
     initial := v; s_min := 0%float; s_max := 1%float; s_unit := [];
     threshold_warning := None; threshold_danger := None; invert := None |}.

Definition baseline : Scenario :=
  {| name := str "compliance_first"; description := [];
     param_overrides := {[ str "kT" := 0.9%float ]};
     initial_overrides := {[ str "S" := 0.1%float ]} |}.

Definition config : FullConfig :=
  {| states := {[ str "T" := state 0.3%float; str "S" := state 0.4%float ]};
     parameters := {[ str "kT" := parameter 0.7%float;
                      str "kS" := parameter 0.2%float ]};
     scenarios := {[ str "compliance_first" := baseline ]} |}.

End AppExamples.

(** ** utils/insightEngine.ts: the six rules of [generateInsights] *)

Module InsightRules.
Import Js InsightEngine.

(** One [if (condition) insights.push(insight)]. *)
Definition pushed (condition : bool) (insight : Insight) : list Insight :=
  if condition then [insight] else [].

Section Rules.
(** Number.prototype.toFixed *)
Variable toFixed : number -> nat -> text.

(** The insights [generateInsights] pushes for a run of [n] time
    points, given the eight series it reads: one per rule whose
    condition holds, in the order of the rules. *)
Definition computed (n : nat) (xX xL xV xT xS xD xE xR : list number)
  : list Insight :=
  let lastIdx := (Z.of_nat n - 1)%Z in
  let incidentEnd := at_index xX lastIdx in
  let trustEnd := at_index xL lastIdx in
  let trustStart := at_index xL 0 in
  let vvEnd := at_index xV lastIdx in
  let targetingEnd := at_index xT lastIdx in
  let capabilityEnd :=
    ((at_index xT lastIdx + at_index xS lastIdx + at_index xD lastIdx) / 3)%float in
  let capabilityStart :=
    ((at_index xT 0 + at_index xS 0 + at_index xD 0) / 3)%float in
  let ethicsEnd := at_index xE lastIdx in
  let resourceEnd := at_index xR lastIdx in
  pushed (gt incidentEnd 0.6)
    {| type := warning; title := str "High Incident Risk";
       description :=
         str "This scenario results in " ++ pct toFixed incidentEnd
         ++ str "% incident accumulation, which could damage trust and trigger regulatory scrutiny.";
       impact := high |}
  ++ pushed (lt trustEnd (trustStart * 0.7)%float)
    {| type := warning; title := str "Trust Erosion";
       description :=
         str "Legitimacy drops by "
         ++ toFixed ((1 - trustEnd / trustStart) * 100)%float 0
         ++ str "%, potentially limiting future procurement and political support.";
       impact := high |}
  ++ pushed (gt targetingEnd 0.6 && lt vvEnd 0.4)
    {| type := warning; title := str "V&V Investment Gap";
       description :=
         str "High targeting capability (" ++ pct toFixed targetingEnd
         ++ str "%) without adequate V&V maturity (" ++ pct toFixed vvEnd
         ++ str "%) increases incident probability.";
       impact := high |}
  ++ pushed (gt capabilityEnd (capabilityStart * 1.2)%float && lt incidentEnd 0.4)
    {| type := success; title := str "Sustainable Growth";
       description :=
         str "Capability increases by "
         ++ toFixed ((capabilityEnd / capabilityStart - 1) * 100)%float 0
         ++ str "% while maintaining low incident risk. This is a balanced approach.";
       impact := high |}
  ++ pushed (gt ethicsEnd 0.7 && gt trustEnd 0.7)
    {| type := success; title := str "Strong Compliance Posture";
       description :=
         str "High ethics compliance (" ++ pct toFixed ethicsEnd
         ++ str "%) builds trust (" ++ pct toFixed trustEnd
         ++ str "%), enabling sustained procurement.";
       impact := medium |}
  ++ pushed (lt resourceEnd 0.4)
    {| type := warning; title := str "Resource Constraints";
       description :=
         str "Resource capacity drops to " ++ pct toFixed resourceEnd
         ++ str "%, limiting ability to invest in capabilities or compliance.";
       impact := medium |}.
End Rules.

End InsightRules.

Module CoreExamples.
Import Js EquationDsl PatchSystem.

(** The tree of [clamp(x, 0, 1)]. *)
Definition clamp_x_0_1 : expr :=
  Call (str "clamp") [Ident (str "x"); Lit 0%float; Lit 1%float].

Definition bind_x (v : number) : gmap text number := {[ str "x" := v ]}.

(** The trees of the two expressions of the scenario of section 8. *)
Definition target_T : expr :=
  Call (str "clamp")
    [BinOp Mul (Lit 0.6%float) (Ident (str "S")); Lit 0%float; Lit 1%float].

Definition rate_T : expr :=
  BinOp Mul (Ident (str "kT"))
    (BinOp Sub (Ident (str "T_target")) (Ident (str "T"))).

(** A parser that knows the expressions of the examples and rejects
    everything else. *)
Definition parse_examples (src : text) : ValidationError + expr :=
  if text_eq_dec src (str "clamp(0.6*S, 0, 1)") then inr target_T
  else if text_eq_dec src (str "kT*(T_target - T)") then inr rate_T
  else inl (SyntaxError src).

Definition stock (id : string) (x : number) : StateVariable :=
  {| sv_id := str id; sv_name := str id; sv_category := str "capability";
     sv_initial := x; sv_min := Some 0%float; sv_max := Some 1%float;
     sv_layout := None |}.

Definition link (s t : string) : Relation :=
  {| rel_source := Some (str s); rel_target := str t;
     rel_coefficient := Signed 0.5%float; rel_polarity := str "+";
     rel_description := [] |}.

(** The base model of section 8: states T and S, parameter kT, the
    equation of T, and the relation from S to T. *)
Definition base : Model :=
  {| states := {[ str "T" := stock "state.targeting" 0.3%float;
                  str "S" := stock "state.surveillance" 0.4%float ]};
     parameters := {[ str "kT" := {| mp_id := str "param.kT"; mp_value := 0.7%float;
                                     mp_min := None; mp_max := None;
                                     mp_category := str "rates" |} ]};
     relations := {[ str "rel.S_to_T" := link "S" "T" ]};
     equations := {[ str "T" := {| target_expr := str "clamp(0.6*S, 0, 1)";
                                   rate_expr := str "kT*(T_target - T)" |} ]};
     scenarios := ∅ |}.

Definition change (op : ChangeOperation) (why : string) : Change :=
  {| operation := op; rationale := str why |}.

(** Add the state M, link T to a state Q that does not exist, link T to M. *)
Definition add_M : Change :=
  change (add_state (str "M") (stock "state.market_share" 0.2%float))
         "Track market penetration".
Definition link_T_Q : Change :=
  change (add_relation (str "rel.T_to_Q") (link "T" "Q")) "Causal link to Q".
Definition link_T_M : Change :=
  change (add_relation (str "rel.T_to_M") (link "T" "M"))
         "Causal link from targeting to market".

Definition draft_of (cs : list Change) : Draft :=
  {| draft_id := str "draft_20260205_143000";
     created_at := str "2026-02-05T14:30:00";
     based_on := str "git:abc123";
     changes := cs; metadata := [] |}.


(** The same with the relation from T to M as well. *)
Definition with_M_linked : Model :=
  {| states := {[ str "T" := stock "state.targeting" 0.3%float;
                  str "S" := stock "state.surveillance" 0.4%float;
                  str "M" := stock "state.market_share" 0.2%float ]};
     parameters := {[ str "kT" := {| mp_id := str "param.kT"; mp_value := 0.7%float;
                                     mp_min := None; mp_max := None;
                                     mp_category := str "rates" |} ]};
     relations := {[ str "rel.S_to_T" := link "S" "T";
                     str "rel.T_to_M" := link "T" "M" ]};
     equations := {[ str "T" := {| target_expr := str "clamp(0.6*S, 0, 1)";
                                   rate_expr := str "kT*(T_target - T)" |} ]};
     scenarios := ∅ |}.

End CoreExamples.

(** ** Valid operations and what the effective model reflects *)

Module MergeSpec.
Import Js EquationDsl PatchSystem.


Definition succeeds {E A} (r : E + A) : bool :=
  match r with inr _ => true | inl _ => false end.


Section Valid.
Variable parse : text -> ValidationError + expr.

(** Modelled from the spec: both expressions of the equation validate
    against the given state symbols and parameter names (section 3). *)
Definition resolves (known_states known_parameters : list text)
    (e : Equation) : bool :=
  succeeds (validate parse (target_expr e) known_states known_parameters)
  && succeeds (validate parse (rate_expr e) known_states known_parameters).


End Valid.




End MergeSpec.

(** ** EquationEditor.tsx: the quick-insert buttons *)

Module EquationEditorInsert.
Import Js.

(** The [useState] cells of the editor. *)
Record State := {
  localEquation : text;
  showStockMenu : bool;
  showParamMenu : bool;
  cursorPosition : nat
}.

(** [s.slice(0, n)] and [s.slice(n)] for an index [n >= 0]: both stop at
    the end of the text. *)
Definition slice_to (s : text) (n : nat) : text := firstn n s.
Definition slice_from (s : text) (n : nat) : text := skipn n s.

Definition insertStock (stock : text) (st : State) : State :=
  let before := slice_to (localEquation st) (cursorPosition st) in
  let after := slice_from (localEquation st) (cursorPosition st) in
  let newEquation := before ++ stock ++ after in
  {| localEquation := newEquation;
     showStockMenu := false;
     showParamMenu := showParamMenu st;
     cursorPosition := cursorPosition st + length stock |}.

Definition insertParameter (paramKey : text) (st : State) : State :=
  let paramRef := str "p['" ++ paramKey ++ str "']" in
  let before := slice_to (localEquation st) (cursorPosition st) in
  let after := slice_from (localEquation st) (cursorPosition st) in
  let newEquation := before ++ paramRef ++ after in
  {| localEquation := newEquation;
     showStockMenu := showStockMenu st;
     showParamMenu := false;
     cursorPosition := cursorPosition st + length paramRef |}.

Definition insertOperator (operator : text) (st : State) : State :=
  let before := slice_to (localEquation st) (cursorPosition st) in
  let after := slice_from (localEquation st) (cursorPosition st) in
  let newEquation := before ++ str " " ++ operator ++ str " " ++ after in
  {| localEquation := newEquation;
     showStockMenu := showStockMenu st;
     showParamMenu := showParamMenu st;
     cursorPosition := cursorPosition st + length operator + 2 |}.

Definition insertFunction (func : text) (st : State) : State :=
  let funcCall := func ++ str "()" in
  let before := slice_to (localEquation st) (cursorPosition st) in
  let after := slice_from (localEquation st) (cursorPosition st) in
  let newEquation := before ++ funcCall ++ after in
  {| localEquation := newEquation;
     showStockMenu := showStockMenu st;
     showParamMenu := showParamMenu st;
     cursorPosition := cursorPosition st + length func + 1 |}.

(** The [onChange] and [onSelect] handlers of the textarea, given what the
    event target holds. *)
Definition textarea_onChange (value : text) (selectionStart : nat) (st : State)
  : State :=
  {| localEquation := value;
     showStockMenu := showStockMenu st;
     showParamMenu := showParamMenu st;
     cursorPosition := selectionStart |}.

Definition textarea_onSelect (selectionStart : nat) (st : State) : State :=
  {| localEquation := localEquation st;
     showStockMenu := showStockMenu st;
     showParamMenu := showParamMenu st;
     cursorPosition := selectionStart |}.

(** The user actions that change the text or the cursor.  The textarea
    reports a [selectionStart] within its value. *)
Inductive action :=
| PickStock (stock : text)
| PickParameter (paramKey : text)
| PickOperator (operator : text)
| PickFunction (func : text)
| Typed (value : text) (selectionStart : nat)
| Select (selectionStart : nat).

Definition handle (a : action) (st : State) : State :=
  match a with
  | PickStock s => insertStock s st
  | PickParameter k => insertParameter k st
  | PickOperator o => insertOperator o st
  | PickFunction f => insertFunction f st
  | Typed v i => textarea_onChange v i st
  | Select i => textarea_onSelect i st
  end.

(** What the DOM guarantees about an event. *)
Definition well_formed (a : action) (st : State) : Prop :=
  match a with
  | Typed v i => i <= length v
  | Select i => i <= length (localEquation st)
  | _ => True
  end.

(** The state of the first render: [useState(equation)], cursor at 0. *)
Definition mount (equation : text) : State :=
  {| localEquation := equation;
     showStockMenu := false;
     showParamMenu := false;
     cursorPosition := 0 |}.

Definition cursor_inside (st : State) : Prop :=
  cursorPosition st <= length (localEquation st).

(** The states a user can bring the editor to. *)
Inductive reachable (equation : text) : State -> Prop :=
| reach_mount : reachable equation (mount equation)
| reach_step a st :
    reachable equation st -> well_formed a st ->
    reachable equation (handle a st).

(** The dependencies the [useMemo] callback computes for a state. *)
Definition dependencies_of (p : EquationEditor.EquationEditorProps) (st : State)
  : EquationEditor.EquationDependencies :=
  EquationEditor.extract p (localEquation st).

End EquationEditorInsert.

Module EquationEditorInsertExamples.
Import Js EquationEditor EquationEditorInsert.

Definition three_stocks : EquationEditorProps :=
  {| equation := [];
     availableStocks := [str "T"; str "S"; str "R"];
     availableParameters := [] |}.

(** The text [0.2 * ] with the cursor at its end. *)
Definition typing : State :=
  {| localEquation := str "0.2 * ";
     showStockMenu := true;
     showParamMenu := true;
     cursorPosition := 6 |}.

End EquationEditorInsertExamples.

(** ** Numbers that may be [undefined] *)

Module Undefined.
Import Js.

(** ToNumber on a number or [undefined]: [undefined] is NaN in arithmetic
    and in comparisons. *)
Definition ToNumber (v : option number) : number :=
  match v with Some x => x | None => nan end.

(** [xs[i]] for an integer [i]: [undefined] outside the array. *)
Definition element (xs : list number) (i : Z) : option number :=
  if (i <? 0)%Z then None else xs !! Z.to_nat i.

(** ToBoolean: [undefined], both zeros and NaN are falsy. *)
Definition falsy (v : option number) : bool :=
  match v with
  | None => true
  | Some x => PrimFloat.eqb x 0 || negb (PrimFloat.eqb x x)
  end.

(** [v || d] read as a number. *)
Definition or_else (v : option number) (d : number) : number :=
  if falsy v then d else ToNumber v.

End Undefined.

(** ** Chart.tsx: trimming and sampling the series of the timeline chart *)

Module Chart.
Import Js Undefined InsightEngine.

(** A chart point: an object that maps [t] and every state name to a
    number, or to [undefined] where a series is too short. *)
Abbreviation point := (gmap text (option number)).

(** [point[key]]: [undefined] as well when the key is missing. *)
Definition field (p : point) (key : text) : option number :=
  match p !! key with Some v => v | None => None end.

Definition threshold : number := 0.001%float.

Definition is_t (key : text) : bool :=
  if text_eq_dec key (str "t") then true else false.

(** The inner loop of [detectStagnationPoint]: [allStagnant] after the keys
    of [currentPoint] other than [t] have been compared. *)
Definition allStagnant (currentPoint prevPoint : point) : bool :=
  forallb
    (fun kv =>
       if is_t (fst kv) then true
       else
         let change :=
           PrimFloat.abs (ToNumber (snd kv) - ToNumber (field prevPoint (fst kv)))%float in
         negb (gt change threshold))
    (map_to_list currentPoint).

(** The body of the outer loop at index [i], which the loop keeps between
    10 and the last index. *)
Definition stagnant_at (data : list point) (i : nat) : bool :=
  allStagnant (nth i data ∅) (nth (i - 1) data ∅).

(** [for (let i = ...; i >= 10; i--)], entered at [i]: the value of
    [stagnationStart] when the loop is left. *)
Fixpoint scan (data : list point) (i : nat) : nat :=
  match i with
  | 0 => length data
  | S i' =>
      if 10 <=? i then
        if stagnant_at data i then scan data i' else i + 5
      else length data
  end.

Definition detectStagnationPoint (data : list point) : nat :=
  if length data <? 10 then length data
  else Nat.min (scan data (length data - 1)) (length data).

(** [xs.filter((_, i) => f(i))], the index counted from [i]. *)
Fixpoint filter_index {A} (f : nat -> bool) (i : nat) (xs : list A) : list A :=
  match xs with
  | [] => []
  | x :: rest =>
      if f i then x :: filter_index f (S i) rest
      else filter_index f (S i) rest
  end.

(** [i % 5 === 0 || i === data.length - 1] for a list of length [n]. *)
Definition kept (n i : nat) : bool :=
  (i mod 5 =? 0) || (Z.of_nat i =? Z.of_nat n - 1)%Z.

Definition sample {A} (data : list A) : list A :=
  filter_index (kept (length data)) 0 data.

Section SimulationChart.
(** [parseFloat(t.toFixed(1))] *)
Variable round1 : number -> number.

(** The point built for the time [t] at index [i]: a state named [t]
    overwrites the time. *)
Definition point_at (result : SimulationResult) (t : number) (i : nat)
  : point :=
  ((fun xs : list number => xs !! i) <$> states result)
  ∪ {[ str "t" := Some (round1 t) ]}.

Definition points (result : SimulationResult) (ts : list number)
  : list point :=
  imap (fun i t => point_at result t i) ts.

Definition stagnationPoint (result : SimulationResult) : nat :=
  detectStagnationPoint (points result (t result)).

Definition trimmedData (result : SimulationResult) : list point :=
  points result (firstn (stagnationPoint result) (t result)).

Definition sampledData (result : SimulationResult) : list point :=
  sample (trimmedData result).
End SimulationChart.

End Chart.

Module ChartSpec.
Import Js Undefined InsightEngine Chart.

(** Some series other than [t] changed by more than the threshold between
    the two points. *)
Definition moved (cur prev : point) : Prop :=
  exists key v,
    key <> str "t" /\ cur !! key = Some v
    /\ gt (PrimFloat.abs (ToNumber v - ToNumber (field prev key))%float) threshold
       = true.

Definition moved_at (data : list point) (i : nat) : Prop :=
  moved (nth i data ∅) (nth (i - 1) data ∅).

(** The distance from [i] to the next multiple of 5. *)
Definition to_fifth (i : nat) : nat := (5 - i mod 5) mod 5.

End ChartSpec.

Module ChartExamples.
Import Js Undefined InsightEngine Chart.

Definition pt (x : number) : point :=
  {[ str "t" := Some 0%float; str "X" := Some x ]}.

(** Twenty points: the value moves until index 12 and stays put after it. *)
Definition settling : list point :=
  map pt ([0.1; 0.2; 0.3; 0.4; 0.5; 0.6; 0.7; 0.8; 0.9; 0.91; 0.92; 0.93; 0.94]
          ++ repeat 0.94 7)%float.

(** A run of twenty time points with the series of [settling]. *)
Definition settling_run : SimulationResult :=
  {| t := [0; 1; 2; 3; 4; 5; 6; 7; 8; 9; 10; 11; 12; 13; 14; 15; 16; 17; 18; 19]%float;
     states :=
       {[ str "X" := ([0.1; 0.2; 0.3; 0.4; 0.5; 0.6; 0.7; 0.8; 0.9; 0.91; 0.92;
                       0.93; 0.94] ++ repeat 0.94 7)%float ]};
     params := ∅;
     InsightEngine.initial := [] |}.

End ChartExamples.

(** ** utils/insightEngine.ts: KPI metrics and the comparison of two runs *)

Module InsightKpis.
Import Js Undefined InsightEngine.

Inductive kpi_status := good | warning | danger.

(** One entry of [KPIMetrics].  [value] is whatever the expression it is
    initialised with evaluates to, which for [risk] and [trust] is an
    array element and may be [undefined]. *)
Record KPI := {
  value : option number;
  change : number;
  status : kpi_status
}.

Record KPIMetrics := {
  capability : KPI;
  risk : KPI;
  compliance : KPI;
  trust : KPI
}.

(** [result.states.K[i]]: indexing a missing series throws. *)
Definition read (result : SimulationResult) (key : text) (i : Z)
  : outcome exn (option number) :=
  match states result !! key with
  | Some xs => Resolved (element xs i)
  | None => Rejected (TypeError key)
  end.

Definition neutral : KPI :=
  {| value := Some 0%float; change := 0%float; status := warning |}.

(** [calculateKPIs(result, baseline)]; the second argument is never read. *)
Definition calculateKPIs (result : option SimulationResult)
    (baseline : option SimulationResult) : outcome exn KPIMetrics :=
  match result with
  | None =>
      Resolved {| capability := neutral; risk := neutral;
                  compliance := neutral; trust := neutral |}
  | Some result =>
    let lastIdx := (Z.of_nat (length (t result)) - 1)%Z in
    let firstIdx := 0%Z in
    let* tEnd := read result (str "T") lastIdx in
    let* sEnd := read result (str "S") lastIdx in
    let* dEnd := read result (str "D") lastIdx in
    let capabilityEnd :=
      ((ToNumber tEnd + ToNumber sEnd + ToNumber dEnd) / 3)%float in
    let* tStart := read result (str "T") firstIdx in
    let* sStart := read result (str "S") firstIdx in
    let* dStart := read result (str "D") firstIdx in
    let capabilityStart :=
      ((ToNumber tStart + ToNumber sStart + ToNumber dStart) / 3)%float in
    let capabilityChange :=
      (((capabilityEnd - capabilityStart) / capabilityStart) * 100)%float in
    let* riskEnd := read result (str "X") lastIdx in
    let* riskStart := read result (str "X") firstIdx in
    let riskChange :=
      (((ToNumber riskEnd - ToNumber riskStart) / or_else riskStart 0.1) * 100)%float in
    let* eEnd := read result (str "E") lastIdx in
    let* vEnd := read result (str "V") lastIdx in
    let complianceEnd := ((ToNumber eEnd + ToNumber vEnd) / 2)%float in
    let* eStart := read result (str "E") firstIdx in
    let* vStart := read result (str "V") firstIdx in
    let complianceStart := ((ToNumber eStart + ToNumber vStart) / 2)%float in
    let complianceChange :=
      (((complianceEnd - complianceStart) / complianceStart) * 100)%float in
    let* trustEnd := read result (str "L") lastIdx in
    let* trustStart := read result (str "L") firstIdx in
    let trustChange :=
      (((ToNumber trustEnd - ToNumber trustStart) / ToNumber trustStart) * 100)%float in
    Resolved
      {| capability :=
           {| value := Some capabilityEnd;
              change := capabilityChange;
              status := if gt capabilityEnd 0.7 then good
                        else if gt capabilityEnd 0.4 then warning else danger |};
         risk :=
           {| value := riskEnd;
              change := riskChange;
              status := if lt (ToNumber riskEnd) 0.3 then good
                        else if lt (ToNumber riskEnd) 0.6 then warning else danger |};
         compliance :=
           {| value := Some complianceEnd;
              change := complianceChange;
              status := if gt complianceEnd 0.6 then good
                        else if gt complianceEnd 0.4 then warning else danger |};
         trust :=
           {| value := trustEnd;
              change := trustChange;
              status := if gt (ToNumber trustEnd) 0.6 then good
                        else if gt (ToNumber trustEnd) 0.4 then warning else danger |} |}
  end.

(** An entry computed from a value that is not there. *)
Definition undefined_kpi (v : option number) : KPI :=
  {| value := v; change := nan; status := danger |}.

(** The series [calculateKPIs] indexes, in the order of their first use. *)
Definition kpi_series : list text :=
  map str ["T"; "S"; "D"; "X"; "E"; "V"; "L"]%string.

Record NamedResult := { name : text; result : SimulationResult }.

Record Comparison := { recommendation : text; reasoning : text }.

(** The weighted score of [compareScenarios], higher is better. *)
Definition score (kpi : KPIMetrics) : number :=
  (ToNumber (value (capability kpi)) * 0.3
   + (1 - ToNumber (value (risk kpi))) * 0.3
   + ToNumber (value (compliance kpi)) * 0.2
   + ToNumber (value (trust kpi)) * 0.2)%float.

Section Compare.
(** Number.prototype.toFixed *)
Variable toFixed : number -> nat -> text.

Definition closing_sentence : text :=
  str ". This approach is more sustainable for long-term procurement and political support.".

Definition compareScenarios (scenarioA scenarioB : NamedResult)
  : outcome exn Comparison :=
  let* kpiA := calculateKPIs (Some (result scenarioA)) None in
  let* kpiB := calculateKPIs (Some (result scenarioB)) None in
  let scoreA := score kpiA in
  let scoreB := score kpiB in
  let winner := if gt scoreA scoreB then scenarioA else scenarioB in
  let loser := if gt scoreA scoreB then scenarioB else scenarioA in
  let winnerKPI := if gt scoreA scoreB then kpiA else kpiB in
  let loserKPI := if gt scoreA scoreB then kpiB else kpiA in
  let riskDiff :=
    PrimFloat.abs (ToNumber (value (risk winnerKPI))
                   - ToNumber (value (risk loserKPI)))%float in
  let capDiff :=
    PrimFloat.abs (ToNumber (value (capability winnerKPI))
                   - ToNumber (value (capability loserKPI)))%float in
  let reasoning := name winner ++ str " provides " in
  let reasoning :=
    if gt riskDiff 0.2
    then reasoning ++ toFixed (riskDiff * 100)%float 0
                   ++ str "% lower incident risk"
    else reasoning in
  let reasoning :=
    if gt capDiff 0.1 && gt riskDiff 0.1
    then reasoning ++ str " while maintaining "
    else reasoning in
  let reasoning :=
    if gt capDiff 0.1
    then reasoning ++ toFixed (capDiff * 100)%float 0 ++ str "% "
                   ++ (if gt (ToNumber (value (capability winnerKPI)))
                             (ToNumber (value (capability loserKPI)))
                       then str "higher" else str "comparable")
                   ++ str " capability"
    else reasoning in
  let reasoning := reasoning ++ closing_sentence in
  Resolved {| recommendation := name winner; reasoning := reasoning |}.
End Compare.

End InsightKpis.

Module KpiExamples.
Import Js InsightEngine InsightExamples InsightKpis.

(** A run without a single time point: every series is there, and empty. *)
Definition empty_run : SimulationResult :=
  {| t := [];
     states := series [("X", []); ("L", []); ("V", []); ("T", []);
                       ("S", []); ("D", []); ("E", [])]%string;
     params := ∅;
     initial := [] |}.

(** A cautious run to compare [risky_run] with. *)
Definition cautious_run : SimulationResult :=
  {| t := [0; 5; 10]%float;
     states := series [("X", [0.1; 0.1; 0.1]); ("L", [0.8; 0.8; 0.9]);
                       ("V", [0.3; 0.5; 0.7]); ("T", [0.5; 0.5; 0.6]);
                       ("S", [0.5; 0.5; 0.5]); ("D", [0.5; 0.5; 0.5]);
                       ("E", [0.5; 0.7; 0.8]); ("R", [0.6; 0.5; 0.5])]%string%float;
     params := ∅;
     initial := [] |}.

(** A run that scores high on capability, compliance and trust, with
    incidents at 0.5; and a run that scores low on them, with incidents
    at 0.1. *)
Definition flat (x : number) : list number := [x; x; x].

Definition strong_run : SimulationResult :=
  {| t := [0; 5; 10]%float;
     states := series [("X", flat 0.5); ("L", flat 0.9); ("V", flat 0.9);
                       ("T", flat 0.9); ("S", flat 0.9); ("D", flat 0.9);
                       ("E", flat 0.9)]%string%float;
     params := ∅;
     initial := [] |}.

Definition weak_run : SimulationResult :=
  {| t := [0; 5; 10]%float;
     states := series [("X", flat 0.1); ("L", flat 0.3); ("V", flat 0.3);
                       ("T", flat 0.3); ("S", flat 0.3); ("D", flat 0.3);
                       ("E", flat 0.3)]%string%float;
     params := ∅;
     initial := [] |}.

Definition strong : NamedResult := {| name := str "rapid_scaling"; result := strong_run |}.
Definition weak : NamedResult := {| name := str "baseline"; result := weak_run |}.

Definition risky : NamedResult := {| name := str "rapid_scaling"; result := risky_run |}.
Definition cautious : NamedResult :=
  {| name := str "compliance_first"; result := cautious_run |}.

End KpiExamples.

(** ** api/drafts.ts: applying a draft *)

Module DraftsApiApply.
Import Js DraftsApi.

Record MergeResult := {
  success : bool;
  effective_model : option any;
  errors : list text;
  warnings : list text;
  applied_changes : number;
  skipped_changes : number
}.

(** The response to an apply request, its body read as a [MergeResult]. *)
Record ApplyResponse := {
  apply_status : nat;
  apply_statusText : text;
  apply_json : outcome error MergeResult
}.

Definition apply_ok (r : ApplyResponse) : bool :=
  (200 <=? apply_status r) && (apply_status r <=? 299).

Section Client.
Variable fetch : Request -> outcome error ApplyResponse.

Definition applyDraft_request (draftId : text) (commit : bool) : Request :=
  {| url := if commit
            then API_BASE ++ str "/drafts/" ++ draftId ++ str "/apply?commit=true"
            else API_BASE ++ str "/drafts/" ++ draftId ++ str "/apply";
     method := POST;
     content_type_json := false;
     body := NoBody |}.

Definition applyDraft (draftId : text) (commit : bool)
  : outcome error MergeResult :=
  match fetch (applyDraft_request draftId commit) with
  | Rejected e => Rejected e
  | Resolved response =>
      if negb (apply_ok response)
      then Rejected (Error (str "Failed to apply draft: "
                              ++ apply_statusText response))
      else apply_json response
  end.
End Client.

End DraftsApiApply.

(** ** GraphEditor.tsx: undo and redo, AI proposals, applying the draft *)

Module GraphEditorHandlers.
Import Js DraftsApi DraftsApiApply GraphEditor.

(** What [alert] is called with, by the branch that calls it. *)
Inductive alert :=
| AppliedAlert (commit : bool)
| ApplyFailedAlert (errors : list text)
| ApplyCrashedAlert.

(** The editor around the draft state: the lines written with
    [console.log], the AI modal, the alerts shown and the models passed to
    [onModelUpdate]. *)
Record editor := {
  core : world;
  console_log : list (text * PatchChange);
  showAIModal : bool;
  aiProposals : list PatchChange;
  alerts : list alert;
  model_updates : list any
}.

Definition with_core (e : editor) (w : world) : editor :=
  {| core := w; console_log := console_log e; showAIModal := showAIModal e;
     aiProposals := aiProposals e; alerts := alerts e;
     model_updates := model_updates e |}.

Definition set_stacks (w : world) (undo redo : list PatchChange) : world :=
  {| draftState := draftState w; undoStack := undo; redoStack := redo;
     console_errors := console_errors w; sent := sent w |}.

(** [handleUndo]: the last change moves from the undo stack to the redo
    stack and is logged; nothing else happens (the undo itself is left
    to do in the source). *)
Definition handleUndo (e : editor) : editor :=
  if length (undoStack (core e)) =? 0 then e
  else
    match last (undoStack (core e)) with
    | None => e
    | Some lastChange =>
        {| core := set_stacks (core e)
                     (removelast (undoStack (core e)))
                     (redoStack (core e) ++ [lastChange]);
           console_log := console_log e ++ [(str "Undo:", lastChange)];
           showAIModal := showAIModal e; aiProposals := aiProposals e;
           alerts := alerts e; model_updates := model_updates e |}
    end.

Definition handleRedo (e : editor) : editor :=
  if length (redoStack (core e)) =? 0 then e
  else
    match last (redoStack (core e)) with
    | None => e
    | Some change =>
        {| core := set_stacks (core e)
                     (undoStack (core e) ++ [change])
                     (removelast (redoStack (core e)));
           console_log := console_log e ++ [(str "Redo:", change)];
           showAIModal := showAIModal e; aiProposals := aiProposals e;
           alerts := alerts e; model_updates := model_updates e |}
    end.

(** ToBoolean on a JSON value. *)
Definition truthy (v : any) : bool :=
  match v with
  | Undefined | Null => false
  | Bool b => b
  | Num x => negb (PrimFloat.eqb x 0 || negb (PrimFloat.eqb x x))
  | Str s => negb (length s =? 0)
  | Arr _ | Obj _ => true
  end.

Section Handlers.
(** The network and the backend behind it: the reply to a request may
    depend on the requests sent before it. *)
Variable net : list Request -> Request -> outcome error Response.
Variable apply_net : list Request -> Request -> outcome error ApplyResponse.
(** Whether the [onModelUpdate] prop is passed. *)
Variable onModelUpdate : bool.

(** [addChange] as the callback of one render: [captured] is the
    [draftState.draft] that render saw (the dependency of
    [useCallback]); the state updates are functional and act on the
    current state. *)
Definition addChange_of (captured : option Draft) (change : PatchChange)
    (w : world) : world :=
  match captured with
  | None => startDraft (net (sent w)) w
  | Some d =>
      let fetch := net (sent w) in
      let w := {| draftState := draftState w; undoStack := undoStack w;
                  redoStack := redoStack w;
                  console_errors := console_errors w;
                  sent := sent w ++ [addChange_request (draft_id d) change] |} in
      match addChangeToDraft fetch (draft_id d) change with
      | Resolved _ =>
          {| draftState :=
               {| active := active (draftState w);
                  draft := draft (draftState w);
                  changes := changes (draftState w) ++ [change] |};
             undoStack := undoStack w ++ [change];
             redoStack := [];
             console_errors := console_errors w; sent := sent w |}
      | Rejected e =>
          {| draftState := draftState w; undoStack := undoStack w;
             redoStack := redoStack w;
             console_errors :=
               console_errors w ++ [(str "Failed to add change:", e)];
             sent := sent w |}
      end
  end.

(** An edit made by the user: [addChange] of the current render. *)
Definition edit (change : PatchChange) (w : world) : world :=
  addChange (net (sent w)) change w.

(** [handleAcceptAIProposals]: the loop awaits [addChange] for each
    proposal in turn; [addChange] is the callback of the render in which
    the proposals were accepted, for all of them. *)
Definition handleAcceptAIProposals (changes : list PatchChange) (e : editor)
  : editor :=
  let captured := draft (draftState (core e)) in
  let w := fold_left (fun w change => addChange_of captured change w)
             changes (core e) in
  {| core := w; console_log := console_log e;
     showAIModal := false; aiProposals := [];
     alerts := alerts e; model_updates := model_updates e |}.

(** [handleApply(commit)]. *)
Definition handleApply (commit : bool) (e : editor) : editor :=
  match draft (draftState (core e)) with
  | None => e
  | Some d =>
      let w := core e in
      let request := applyDraft_request (draft_id d) commit in
      let w1 := {| draftState := draftState w; undoStack := undoStack w;
                   redoStack := redoStack w;
                   console_errors := console_errors w;
                   sent := sent w ++ [request] |} in
      match applyDraft (apply_net (sent w)) (draft_id d) commit with
      | Resolved result =>
          if success result then
            {| core :=
                 {| draftState :=
                      {| active := false; draft := None; changes := [] |};
                    undoStack := undoStack w1; redoStack := redoStack w1;
                    console_errors := console_errors w1; sent := sent w1 |};
               console_log := console_log e;
               showAIModal := showAIModal e; aiProposals := aiProposals e;
               alerts := alerts e ++ [AppliedAlert commit];
               model_updates :=
                 match effective_model result with
                 | Some model =>
                     if onModelUpdate && truthy model
                     then model_updates e ++ [model]
                     else model_updates e
                 | None => model_updates e
                 end |}
          else
            {| core := w1; console_log := console_log e;
               showAIModal := showAIModal e; aiProposals := aiProposals e;
               alerts := alerts e ++ [ApplyFailedAlert (errors result)];
               model_updates := model_updates e |}
      | Rejected err =>
          {| core :=
               {| draftState := draftState w1; undoStack := undoStack w1;
                  redoStack := redoStack w1;
                  console_errors :=
                    console_errors w1 ++ [(str "Apply failed:", err)];
                  sent := sent w1 |};
             console_log := console_log e;
             showAIModal := showAIModal e; aiProposals := aiProposals e;
             alerts := alerts e ++ [ApplyCrashedAlert];
             model_updates := model_updates e |}
      end
  end.
End Handlers.

Section Canvas.
(** The edges of React Flow, of which the editor reads the [id]. *)
Variable Edge : Type.
Variable edge_id : Edge -> text.
Variable net : list Request -> Request -> outcome error Response.

(** The edges on the canvas and the draft state beside them. *)
Record canvas := { edges : list Edge; graph : world }.

Definition relation_deleted (edgeId : text) : PatchChange :=
  {| op := str "remove_relation"; symbol := None; id := Some edgeId;
     data := []; reason := Some (str "Relation deleted") |}.

(** [handleEdgeDelete]: the edge leaves the canvas and the removal goes
    to [addChange]. *)
Definition handleEdgeDelete (edgeId : text) (cv : canvas) : canvas :=
  {| edges :=
       List.filter
         (fun edge => if text_eq_dec (edge_id edge) edgeId then false else true)
         (edges cv);
     graph := edit net (relation_deleted edgeId) (graph cv) |}.
End Canvas.

End GraphEditorHandlers.

(** ** How the backend answers a run of proposals *)

Module ProposalReplies.
Import Js DraftsApi GraphEditor.

Section Replies.
Variable net : list Request -> Request -> outcome error Response.

(** How the add-change request of each proposal settles, the requests
    being sent one after the other to the draft [d], the first one
    after [history]. *)
Fixpoint replies (d : Draft) (history : list Request)
    (proposals : list PatchChange)
  : list (PatchChange * outcome error unit) :=
  match proposals with
  | [] => []
  | c :: rest =>
      (c, addChangeToDraft (net history) (draft_id d) c)
      :: replies d (history ++ [addChange_request (draft_id d) c]) rest
  end.
End Replies.

(** The proposals whose request succeeded, in order. *)
Definition accepted (rs : list (PatchChange * outcome error unit))
  : list PatchChange :=
  flat_map (fun r => match snd r with
                     | Resolved _ => [fst r]
                     | Rejected _ => []
                     end) rs.

(** The lines the failed requests leave on the error console, in order. *)
Definition failures (rs : list (PatchChange * outcome error unit))
  : list (text * error) :=
  flat_map (fun r => match snd r with
                     | Resolved _ => []
                     | Rejected e => [(str "Failed to add change:", e)]
                     end) rs.

End ProposalReplies.

Module GraphEditorHandlersExamples.
Import Js DraftsApi DraftsApiApply GraphEditor GraphEditorHandlers
  FrontEndExamples GraphEditorExamples.

Definition rename : PatchChange :=
  {| op := str "update_state"; symbol := Some (str "T"); id := None;
     data := [(str "label", Str (str "Targeting"))];
     reason := Some (str "Node properties updated") |}.

Definition fresh : editor :=
  {| core := fresh_editor; console_log := [];
     showAIModal := true; aiProposals := [reposition; rename];
     alerts := []; model_updates := [] |}.

(** The example backend, whatever was sent before. *)
Definition steady (history : list Request) (r : Request)
  : outcome error Response :=
  backend r.

Definition merged : MergeResult :=
  {| success := true; effective_model := Some (Obj []);
     errors := []; warnings := [];
     applied_changes := 1%float; skipped_changes := 0%float |}.

Definition applying (history : list Request) (r : Request)
  : outcome error ApplyResponse :=
  Resolved {| apply_status := 200; apply_statusText := str "OK";
              apply_json := Resolved merged |}.

(** Two relations on the canvas of an editor without a draft. *)
Definition two_links : canvas (text * text) :=
  {| edges := [(str "S", str "T"); (str "R", str "T")];
     graph := fresh_editor |}.

Definition link_id (e : text * text) : text := fst e ++ str "_to_" ++ snd e.

(** An editor with a draft open and one change recorded. *)
Definition editing : editor :=
  with_core fresh
    {| draftState := {| active := true; draft := Some session_draft;
                        changes := [reposition] |};
       undoStack := [reposition]; redoStack := [];
       console_errors := []; sent := [] |}.

End GraphEditorHandlersExamples.

(** ** EdgeEditModal.tsx: saving an edited relation *)

Module EdgeEditModal.
Import Js Undefined.

(** [edge.data], with its two optional fields. *)
Record EdgeData := {
  data_coefficient : option number;
  data_description : option text
}.

Record Edge := {
  id : text;
  source : text;
  target : text;
  data : option EdgeData
}.

Inductive relation_type := positive | negative.

(** The second argument of [onSave]. *)
Record EdgeUpdates := {
  upd_coefficient : number;
  upd_description : text;
  type : relation_type
}.

(** The [useState] cells of the modal. *)
Record State := {
  coefficient : number;
  description : text;
  errors : list text
}.

(** Calls made on the props' callbacks, in order. *)
Inductive call :=
| onSave (edgeId : text) (updates : EdgeUpdates)
| onDelete (edgeId : text)
| onClose.

(** [edge.data?.coefficient] and [edge.data?.description]. *)
Definition stored_coefficient (edge : Edge) : option number :=
  match data edge with Some d => data_coefficient d | None => None end.

Definition stored_description (edge : Edge) : option text :=
  match data edge with Some d => data_description d | None => None end.

(** The effect that runs when the modal is given an edge: both fields
    fall back when the stored value is missing or falsy. *)
Definition load (edge : Edge) (st : State) : State :=
  {| coefficient := or_else (stored_coefficient edge) 0.5;
     description := match stored_description edge with
                    | Some (c :: d) => c :: d
                    | _ => []
                    end;
     errors := errors st |}.

Definition newErrors (st : State) : list text :=
  (if PrimFloat.eqb (coefficient st) 0
   then [str "Coefficient cannot be zero"] else [])
  ++ (if gt (PrimFloat.abs (coefficient st)) 1
      then [str "Coefficient should typically be between -1 and 1"]
      else []).

(** [handleSave] for the edge being edited. *)
Definition handleSave (edge : Edge) (st : State) : State * list call :=
  let st := {| coefficient := coefficient st; description := description st;
               errors := [] |} in
  match newErrors st with
  | (_ :: _) as es =>
      ({| coefficient := coefficient st; description := description st;
          errors := es |}, [])
  | [] =>
      (st,
       [onSave (id edge)
          {| upd_coefficient := coefficient st;
             upd_description := description st;
             type := if PrimFloat.leb 0 (coefficient st)
                     then positive else negative |};
        onClose])
  end.

(** [handleDelete], given whether the [onDelete] prop is passed and the
    user's answer to [confirm]. *)
Definition handleDelete (has_onDelete confirmed : bool) (edge : Edge)
  : list call :=
  if has_onDelete && confirmed then [onDelete (id edge); onClose] else [].

End EdgeEditModal.

Module EdgeEditExamples.
Import Js EdgeEditModal.

Definition link (c : option number) : Edge :=
  {| id := str "S_to_T"; source := str "S"; target := str "T";
     data := Some {| data_coefficient := c;
                     data_description := Some (str "Surveillance feeds targeting") |} |}.

Definition blank_form : State :=
  {| coefficient := 0.5%float; description := []; errors := [] |}.

End EdgeEditExamples.

(** ** ScenarioModal.tsx: the scenario form *)

Module ScenarioModal.
Import Js App.

Inductive modal_mode := create | edit.
Inductive tab := params | initials.

Record Props := {
  isOpen : bool;
  parameters : gmap text Parameter_;
  states : gmap text State;
  existingScenario : option Scenario;
  mode : modal_mode
}.

(** The [useState] cells of the form. *)
Record Form := {
  name : text;
  description : text;
  paramOverrides : gmap text number;
  initialOverrides : gmap text number;
  activeTab : tab
}.

(** Calls made on the props' callbacks, in order. *)
Inductive call :=
| onSave (scenario : Scenario)
| onClose.

(** The effect that resets the form when the modal opens. *)
Definition reset (p : Props) (st : Form) : Form :=
  if isOpen p then
    match existingScenario p, mode p with
    | Some existing, edit =>
        {| name := App.name existing;
           description := App.description existing;
           paramOverrides := param_overrides existing;
           initialOverrides := initial_overrides existing;
           activeTab := activeTab st |}
    | _, _ =>
        {| name := []; description := [];
           paramOverrides := ∅; initialOverrides := ∅;
           activeTab := activeTab st |}
    end
  else st.

Definition setParamOverrides (m : gmap text number) (st : Form) : Form :=
  {| name := name st; description := description st;
     paramOverrides := m; initialOverrides := initialOverrides st;
     activeTab := activeTab st |}.

Definition setInitialOverrides (m : gmap text number) (st : Form) : Form :=
  {| name := name st; description := description st;
     paramOverrides := paramOverrides st; initialOverrides := m;
     activeTab := activeTab st |}.

(** [parameters[key]?.value ?? 0.5] *)
Definition handleAddParam (p : Props) (key : text) (st : Form) : Form :=
  let defaultVal :=
    match parameters p !! key with
    | Some q => value q
    | None => 0.5%float
    end in
  setParamOverrides (<[key := defaultVal]> (paramOverrides st)) st.

Definition handleRemoveParam (key : text) (st : Form) : Form :=
  setParamOverrides (delete key (paramOverrides st)) st.

Definition handleParamChange (key : text) (v : number) (st : Form) : Form :=
  setParamOverrides (<[key := v]> (paramOverrides st)) st.

Definition handleAddInitial (p : Props) (key : text) (st : Form) : Form :=
  let defaultVal :=
    match states p !! key with
    | Some s => initial s
    | None => 0.5%float
    end in
  setInitialOverrides (<[key := defaultVal]> (initialOverrides st)) st.

Definition handleRemoveInitial (key : text) (st : Form) : Form :=
  setInitialOverrides (delete key (initialOverrides st)) st.

Definition handleInitialChange (key : text) (v : number) (st : Form) : Form :=
  setInitialOverrides (<[key := v]> (initialOverrides st)) st.

(** The scenario [handleSave] builds from the form. *)
Definition scenario_of (st : Form) : Scenario :=
  {| App.name := trim (name st);
     App.description := trim (description st);
     param_overrides := paramOverrides st;
     initial_overrides := initialOverrides st |}.

Definition handleSave (st : Form) : list call :=
  match trim (name st) with
  | [] => []
  | _ :: _ => [onSave (scenario_of st); onClose]
  end.

End ScenarioModal.

(** ** App.tsx: the scenario handlers *)

Module AppHandlers.
Import Js App.

(** The [useState] cells the scenario handlers read or set;
    [paramValues] and [initialValues] are kept together in [values]. *)
Record AppState := {
  config : option FullConfig;
  selectedScenario : option text;
  values : Values;
  error : option text;
  compareMode : bool;
  modalOpen : bool;
  modalMode : ScenarioModal.modal_mode;
  editingScenario : option Scenario
}.

Inductive exn := TypeError (reading : text).

(** [String.prototype.toLowerCase] on code units below 256: the letters
    A to Z and the capital letters of Latin-1 move up by 32. *)
Definition is_upper (c : ascii) : bool :=
  let n := nat_of_ascii c in
  ((65 <=? n) && (n <=? 90))
  || ((192 <=? n) && (n <=? 214)) || ((216 <=? n) && (n <=? 222)).

Definition lower (c : ascii) : ascii :=
  if is_upper c then ascii_of_nat (nat_of_ascii c + 32) else c.

Definition toLowerCase (s : text) : text := map lower s.

(** [s.replace(/\s+/g, '_')]: every maximal run of white space becomes
    one underscore; [in_run] tells that the previous code unit was white
    space. *)
Fixpoint replace_runs (in_run : bool) (s : text) : text :=
  match s with
  | [] => []
  | c :: rest =>
      if is_whitespace c then
        if in_run then replace_runs true rest
        else "_"%char :: replace_runs true rest
      else c :: replace_runs false rest
  end.

(** [scenario.name.toLowerCase().replace(/\s+/g, '_')] *)
Definition scenario_key (name : text) : text :=
  replace_runs false (toLowerCase name).

Definition set_config (st : AppState) (cfg : FullConfig) : AppState :=
  {| config := Some cfg; selectedScenario := selectedScenario st;
     values := values st; error := error st; compareMode := compareMode st;
     modalOpen := modalOpen st; modalMode := modalMode st;
     editingScenario := editingScenario st |}.

Definition with_scenarios (cfg : FullConfig) (m : gmap text Scenario)
  : FullConfig :=
  {| states := states cfg; parameters := parameters cfg; scenarios := m |}.

(** A call of [handleSaveScenario] suspended at [await saveScenario]:
    the key, the scenario and the configuration its closure holds. *)
Record PendingSave := {
  save_key : text;
  save_scenario : Scenario;
  save_config : FullConfig
}.

(** The app together with the save requests that have not settled. *)
Record Session := { app : AppState; pending : list PendingSave }.

Section Handlers.
(** [saveScenario] of api.ts, by how the call settles. *)
Variable saveScenario : text -> Scenario -> outcome exn unit.
(** [Object.keys] on the scenarios. *)
Variable Object_keys : gmap text Scenario -> list text.

(** [handleSelectScenario]; for a name that is not a scenario the
    call of [loadScenarioValues] reads a property of [undefined]. *)
Definition handleSelectScenario (name : text) (st : AppState)
  : outcome exn AppState :=
  match config st with
  | None => Resolved st
  | Some cfg =>
      match scenarios cfg !! name with
      | None => Rejected (TypeError (str "param_overrides"))
      | Some scenario =>
          Resolved
            {| config := config st; selectedScenario := Some name;
               values := loadScenarioValues scenario cfg;
               error := error st; compareMode := false;
               modalOpen := modalOpen st; modalMode := modalMode st;
               editingScenario := editingScenario st |}
      end
  end.

Definition handleSaveScenario (scenario : Scenario) (st : AppState)
  : AppState :=
  match config st with
  | None => st
  | Some cfg =>
      let key := scenario_key (name scenario) in
      {| config := Some (with_scenarios cfg (<[key := scenario]> (scenarios cfg)));
         selectedScenario := Some key;
         values := loadScenarioValues scenario cfg;
         error := match saveScenario key scenario with
                  | Resolved _ => error st
                  | Rejected _ => Some (str "Failed to save scenario to file")
                  end;
         compareMode := compareMode st;
         modalOpen := modalOpen st; modalMode := modalMode st;
         editingScenario := editingScenario st |}
  end.

Definition handleDeleteScenario (name : text) (st : AppState) : AppState :=
  match config st with
  | None => st
  | Some cfg =>
      let rest := delete name (scenarios cfg) in
      {| config := Some (with_scenarios cfg rest);
         selectedScenario :=
           if bool_decide (selectedScenario st = Some name)
           then match Object_keys rest with
                | first :: _ => Some first
                | [] => None
                end
           else selectedScenario st;
         values := values st; error := error st;
         compareMode := compareMode st;
         modalOpen := modalOpen st; modalMode := modalMode st;
         editingScenario := editingScenario st |}
  end.

(** [handleDuplicateScenario]; for a name that is not a scenario the
    spread of [src.param_overrides] reads a property of [undefined]. *)
Definition handleDuplicateScenario (name : text) (st : AppState)
  : outcome exn AppState :=
  match config st with
  | None => Resolved st
  | Some cfg =>
      match scenarios cfg !! name with
      | None => Rejected (TypeError (str "param_overrides"))
      | Some src =>
          let newName := name ++ str "_copy" in
          let newScenario :=
            {| App.name := newName;
               description := description src;
               param_overrides := param_overrides src;
               initial_overrides := initial_overrides src |} in
          Resolved
            (set_config st
               (with_scenarios cfg (<[newName := newScenario]> (scenarios cfg))))
      end
  end.

(** [handleSaveScenario] up to its [await]: the scenario is put into
    the configuration and the request is sent; the call is then
    suspended with what its closure holds. *)
Definition handleSaveScenario_start (scenario : Scenario) (st : AppState)
  : AppState * option PendingSave :=
  match config st with
  | None => (st, None)
  | Some cfg =>
      let key := scenario_key (name scenario) in
      (set_config st
         (with_scenarios cfg (<[key := scenario]> (scenarios cfg))),
       Some {| save_key := key; save_scenario := scenario;
               save_config := cfg |})
  end.

(** [handleSaveScenario] from its [await] on, run on the state of that
    moment: the error is set when the request failed, the key is
    selected and the values are loaded from the scenario and the
    configuration the call started with. *)
Definition handleSaveScenario_resume (p : PendingSave) (st : AppState)
  : AppState :=
  {| config := config st;
     selectedScenario := Some (save_key p);
     values := loadScenarioValues (save_scenario p) (save_config p);
     error := match saveScenario (save_key p) (save_scenario p) with
              | Resolved _ => error st
              | Rejected _ => Some (str "Failed to save scenario to file")
              end;
     compareMode := compareMode st;
     modalOpen := modalOpen st; modalMode := modalMode st;
     editingScenario := editingScenario st |}.

(** What the scenario panel and the scenario form make the app do, and
    the settling of a save request: a save is two steps, and other
    handlers can run between them. *)
Inductive action :=
| Select (name : text)
| Save (scenario : Scenario)
| Settle (index : nat)
| Delete (name : text)
| Duplicate (name : text).

Definition with_app (s : Session) (st : AppState) : Session :=
  {| app := st; pending := pending s |}.

Definition handle (a : action) (s : Session) : outcome exn Session :=
  match a with
  | Select name =>
      match handleSelectScenario name (app s) with
      | Resolved st => Resolved (with_app s st)
      | Rejected e => Rejected e
      end
  | Save scenario =>
      match handleSaveScenario_start scenario (app s) with
      | (st, Some p) => Resolved {| app := st; pending := pending s ++ [p] |}
      | (st, None) => Resolved (with_app s st)
      end
  | Settle index =>
      match pending s !! index with
      | Some p =>
          Resolved {| app := handleSaveScenario_resume p (app s);
                      pending := delete index (pending s) |}
      | None => Resolved s
      end
  | Delete name => Resolved (with_app s (handleDeleteScenario name (app s)))
  | Duplicate name =>
      match handleDuplicateScenario name (app s) with
      | Resolved st => Resolved (with_app s st)
      | Rejected e => Rejected e
      end
  end.
End Handlers.

(** The scenarios of a state; none before the configuration is loaded. *)
Definition scenarios_of (st : AppState) : gmap text Scenario :=
  match config st with Some cfg => scenarios cfg | None => ∅ end.

(** The selection is empty or names a scenario of the configuration. *)
Definition selection_valid (st : AppState) : Prop :=
  match selectedScenario st with
  | Some k => is_Some (scenarios_of st !! k)
  | None => True
  end.

(** The scenario panel offers its buttons for the scenarios of the
    configuration only; the form can save any scenario; a request that
    settles is one that is pending. *)
Definition offered (a : action) (s : Session) : Prop :=
  match a with
  | Select name | Delete name | Duplicate name =>
      is_Some (scenarios_of (app s) !! name)
  | Save _ => True
  | Settle index => index < length (pending s)
  end.

(** The scenario of every pending save is in the configuration. *)
Definition pending_saved (s : Session) : Prop :=
  forall p, In p (pending s) -> is_Some (scenarios_of (app s) !! save_key p).

(** The action does not delete a scenario whose save is pending. *)
Definition spares_pending (a : action) (s : Session) : Prop :=
  match a with
  | Delete name => forall p, In p (pending s) -> save_key p <> name
  | _ => True
  end.

(** [Object.keys] lists the keys of the object, in some order. *)
Definition enumerates (Object_keys : gmap text Scenario -> list text) : Prop :=
  forall m k, In k (Object_keys m) <-> is_Some (m !! k).

(** A key as [handleSaveScenario] forms it. *)
Definition normalised (key : text) : Prop :=
  Forall (fun c => is_whitespace c = false /\ is_upper c = false) key.

End AppHandlers.

Module AppHandlersExamples.
Import Js App AppExamples AppHandlers.

(** The keys in the order of [map_to_list]. *)
Definition keys_in_some_order (m : gmap text Scenario) : list text :=
  (map_to_list m).*1.

Definition always_saved (key : text) (s : Scenario) : outcome exn unit :=
  Resolved tt.

Definition loaded : AppState :=
  {| config := Some AppExamples.config;
     selectedScenario := Some (str "compliance_first");
     values := loadScenarioValues baseline AppExamples.config;
     error := None; compareMode := false;
     modalOpen := false; modalMode := ScenarioModal.create;
     editingScenario := None |}.

Definition rapid : Scenario :=
  {| name := str "Rapid  Scaling"; description := str "Scale first";
     param_overrides := {[ str "kT" := 0.95%float ]};
     initial_overrides := ∅ |}.

(** The app after the scenario form saved [rapid], the request pending. *)
Definition saving : Session :=
  {| app := fst (handleSaveScenario_start rapid loaded);
     pending := [{| save_key := str "rapid_scaling"; save_scenario := rapid;
                    save_config := AppExamples.config |}] |}.

End AppHandlersExamples.

(** ** NodeEditModal.tsx: loading the node being edited *)

Module NodeEditModalLoad.
Import Js.

(** [EditableNodeData], with the two equation fields the modal reads
    from the node data when they are there. *)
Record EditableNodeData := {
  symbol : text;
  label : text;
  short : text;
  category : text;
  description : text;
  business_meaning : text;
  initial : number;
  color : text;
  isDraft : bool;
  isModified : bool;
  target_equation : option text;
  equation : option text
}.

Record Node := { id : text; data : EditableNodeData }.

(** [value || ''] on an optional string. *)
Definition or_empty (v : option text) : text :=
  match v with
  | Some (c :: rest) => c :: rest
  | _ => []
  end.

(** The effect that runs when the modal is given a node: the form fields
    are set from the node data; the dependencies, the [validating] flag
    and the errors are left as they are. *)
Definition load (node : Node) (st : NodeEditModal.State) : NodeEditModal.State :=
  {| NodeEditModal.name := label (data node);
     NodeEditModal.description := description (data node);
     NodeEditModal.businessMeaning := business_meaning (data node);
     NodeEditModal.initial := initial (data node);
     NodeEditModal.category := category (data node);
     NodeEditModal.targetEquation := or_empty (target_equation (data node));
     NodeEditModal.derivativeEquation := or_empty (equation (data node));
     NodeEditModal.targetDeps := NodeEditModal.targetDeps st;
     NodeEditModal.derivativeDeps := NodeEditModal.derivativeDeps st;
     NodeEditModal.validating := NodeEditModal.validating st;
     NodeEditModal.errors := NodeEditModal.errors st |}.

(** What the two equation editors of the modal do to its state: their
    [onChange] sets the equation and its dependencies. *)
Inductive equation_change :=
| TargetChanged (eq : text) (deps : EquationEditor.EquationDependencies)
| DerivativeChanged (eq : text) (deps : EquationEditor.EquationDependencies).

Definition onChange (c : equation_change) (st : NodeEditModal.State)
  : NodeEditModal.State :=
  match c with
  | TargetChanged eq deps =>
      {| NodeEditModal.name := NodeEditModal.name st;
         NodeEditModal.description := NodeEditModal.description st;
         NodeEditModal.businessMeaning := NodeEditModal.businessMeaning st;
         NodeEditModal.initial := NodeEditModal.initial st;
         NodeEditModal.category := NodeEditModal.category st;
         NodeEditModal.targetEquation := eq;
         NodeEditModal.derivativeEquation := NodeEditModal.derivativeEquation st;
         NodeEditModal.targetDeps := deps;
         NodeEditModal.derivativeDeps := NodeEditModal.derivativeDeps st;
         NodeEditModal.validating := NodeEditModal.validating st;
         NodeEditModal.errors := NodeEditModal.errors st |}
  | DerivativeChanged eq deps =>
      {| NodeEditModal.name := NodeEditModal.name st;
         NodeEditModal.description := NodeEditModal.description st;
         NodeEditModal.businessMeaning := NodeEditModal.businessMeaning st;
         NodeEditModal.initial := NodeEditModal.initial st;
         NodeEditModal.category := NodeEditModal.category st;
         NodeEditModal.targetEquation := NodeEditModal.targetEquation st;
         NodeEditModal.derivativeEquation := eq;
         NodeEditModal.targetDeps := NodeEditModal.targetDeps st;
         NodeEditModal.derivativeDeps := deps;
         NodeEditModal.validating := NodeEditModal.validating st;
         NodeEditModal.errors := NodeEditModal.errors st |}
  end.

Definition edit_equations (cs : list equation_change)
    (st : NodeEditModal.State) : NodeEditModal.State :=
  fold_left (fun st c => onChange c st) cs st.

(** The updates that hand a node's own values back. *)
Definition own_values (node : Node) : NodeEditModal.NodeUpdates :=
  {| NodeEditModal.label := label (data node);
     NodeEditModal.upd_description := description (data node);
     NodeEditModal.business_meaning := business_meaning (data node);
     NodeEditModal.upd_initial := initial (data node);
     NodeEditModal.upd_category := category (data node) |}.

End NodeEditModalLoad.

Module NodeEditLoadExamples.
Import Js NodeEditModalLoad.

Definition targeting (name : text) (x : number) : Node :=
  {| id := str "T";
     data := {| symbol := str "T"; label := name; short := str "T";
                category := str "capability";
                description := str "Accuracy of targeting";
                business_meaning := str "How accurate are our AI targeting systems?";
                initial := x; color := str "#3b82f6";
                isDraft := false; isModified := false;
                target_equation := None; equation := Some (str "p['kT'] * (T_target - T)") |} |}.

Definition rewritten : list equation_change :=
  [DerivativeChanged (str "p['kT'] * (S - T)")
     {| EquationEditor.stocks := [str "S"; str "T"];
        EquationEditor.parameters := [str "kT"] |}].

End NodeEditLoadExamples.

(** ** AIProposalModal.tsx: choosing among the proposals *)

Module AIProposalModal.
Import Js DraftsApi Chart.

(** The [useState] cells of the modal; the selection is a set of
    indices into the proposals. *)
Record State := {
  prompt : text;
  selectedChanges : gset nat
}.

Inductive call :=
| onAccept (changes : list PatchChange)
| onGenerate (prompt : text).

Definition handleGenerate (st : State) : list call :=
  match trim (prompt st) with
  | [] => []
  | _ :: _ => [onGenerate (prompt st)]
  end.

Definition toggleChange (index : nat) (st : State) : State :=
  {| prompt := prompt st;
     selectedChanges :=
       if bool_decide (index ∈ selectedChanges st)
       then selectedChanges st ∖ {[ index ]}
       else selectedChanges st ∪ {[ index ]} |}.

(** The Select All / Deselect All button. *)
Definition toggleAll (proposals : list PatchChange) (st : State) : State :=
  {| prompt := prompt st;
     selectedChanges :=
       if size (selectedChanges st) =? length proposals then ∅
       else list_to_set (seq 0 (length proposals)) |}.

(** [proposals.filter((_, i) => selectedChanges.has(i))] *)
Definition selected (proposals : list PatchChange) (st : State)
  : list PatchChange :=
  filter_index (fun i => bool_decide (i ∈ selectedChanges st)) 0 proposals.

Definition handleAcceptSelected (proposals : list PatchChange) (st : State)
  : State * list call :=
  match selected proposals st with
  | [] => (st, [])
  | (_ :: _) as chosen =>
      ({| prompt := []; selectedChanges := ∅ |}, [onAccept chosen])
  end.

End AIProposalModal.

Module AIProposalExamples.
Import Js DraftsApi AIProposalModal FrontEndExamples GraphEditorHandlersExamples.

(** The last of five earlier proposals is still selected. *)
Definition stale : State :=
  {| prompt := str "strengthen V&V"; selectedChanges := {[ 4 ]} |}.

Definition second_only : State :=
  {| prompt := str "strengthen V&V"; selectedChanges := {[ 1 ]} |}.

End AIProposalExamples.

(** * Theorems *)

(** ** Facts about the matcher *)
Module FloatFacts.
Import Js.

Lemma SFcompare_antisym x y :
  SFcompare y x = option_map CompOpp (SFcompare x y).
Proof.
  destruct x as [[]|[]| |[] m1 e1], y as [[]|[]| |[] m2 e2]; simpl;
    try reflexivity;
    rewrite (Z.compare_antisym e1 e2); destruct (e1 ?= e2)%Z; simpl;
    try reflexivity;
    change (Pos.compare_cont Eq m2 m1) with (Pos.compare m2 m1);
    change (Pos.compare_cont Eq m1 m2) with (Pos.compare m1 m2);
    rewrite (Pos.compare_antisym m1 m2);
    now destruct (m1 ?= m2)%positive.
Qed.

(** [x <= y] rules out [y < x], NaN included. *)
Lemma leb_not_gt (x y : number) :
  PrimFloat.leb x y = true -> PrimFloat.ltb y x = false.
Proof.
  rewrite leb_spec, ltb_spec. unfold SFleb, SFltb.
  rewrite (SFcompare_antisym (Prim2SF x) (Prim2SF y)).
  now destruct (SFcompare (Prim2SF x) (Prim2SF y)) as [[]|].
Qed.

Lemma lt_irrefl_of_leb (x y : number) :
  PrimFloat.leb x y = true -> lt y x = false.
Proof. apply leb_not_gt. Qed.

End FloatFacts.

Module RegexFacts.
Import Js Regex EquationEditorDenotation.

Lemma cursor_at_app (pre rest : text) :
  cursor_at (pre ++ rest) (length pre) = Cursor (rev pre) rest.
Proof.
  unfold cursor_at.
  rewrite firstn_app, Nat.sub_diag, firstn_all, skipn_app, Nat.sub_diag, skipn_all.
  simpl. now rewrite app_nil_r.
Qed.

Lemma consumed_app b a t rest :
  consumed (Cursor b a) (Cursor (rev t ++ b) rest) = t.
Proof.
  unfold consumed, position. simpl.
  rewrite length_app, Nat.add_sub.
  rewrite firstn_app, Nat.sub_diag, firstn_all. simpl.
  now rewrite app_nil_r, rev_involutive.
Qed.

Lemma strip_Some t a rest : strip t a = Some rest <-> a = t ++ rest.
Proof.
  revert a. induction t as [|x t IH]; intros a; simpl.
  - split; [intros [= ->]|intros ->]; reflexivity.
  - destruct a as [|y a]; [split; discriminate|].
    destruct (Ascii.eqb x y) eqn:E.
    + apply Ascii.eqb_eq in E as ->. rewrite IH. split; [intros ->|intros [= ->]]; reflexivity.
    + apply Ascii.eqb_neq in E. split; [discriminate|]. intros [= <- _]. now destruct E.
Qed.

Lemma rmatch_literal {R} t b a caps (k : cursor -> captures -> option R) :
  rmatch (literal t) (Cursor b a) caps k =
  match strip t a with
  | Some rest => k (Cursor (rev t ++ b) rest) caps
  | None => None
  end.
Proof.
  revert b a. induction t as [|x t IH]; intros b a; simpl; [reflexivity|].
  destruct a as [|y a]; [reflexivity|].
  destruct (Ascii.eqb x y) eqn:E; [|reflexivity].
  apply Ascii.eqb_eq in E as ->.
  unfold literal in IH. rewrite IH. now rewrite <- app_assoc.
Qed.

(** The first position from the cursor on where the pattern matches. *)
Lemma search_Some r a : forall b m,
  search r b a = Some m ->
  exists d a', a = d ++ a' /\ match_here r (Cursor (rev d ++ b) a') = Some m
    /\ forall d1 d2, d = d1 ++ d2 -> d2 <> [] ->
         match_here r (Cursor (rev d1 ++ b) (d2 ++ a')) = None.
Proof.
  induction a as [|y a IH]; intros b m; simpl.
  - destruct (match_here r (Cursor b [])) eqn:E; [|discriminate].
    intros [= ->]. exists [], []. repeat split; auto.
    intros d1 d2 H. now destruct d1, d2.
  - destruct (match_here r (Cursor b (y :: a))) eqn:E.
    + intros [= ->]. exists [], (y :: a). repeat split; auto.
      intros d1 d2 H. now destruct d1, d2.
    + intros H. apply IH in H as (d & a' & -> & Hm & Hfirst).
      exists (y :: d), a'. simpl. rewrite <- app_assoc. repeat split; auto.
      intros d1 d2 Hd Hne. destruct d1 as [|x d1].
      * simpl in *. subst d2. exact E.
      * injection Hd as <- ->. simpl. rewrite <- app_assoc.
        now apply Hfirst.
Qed.

Lemma search_None r a : forall b,
  search r b a = None ->
  forall d a', a = d ++ a' -> match_here r (Cursor (rev d ++ b) a') = None.
Proof.
  induction a as [|y a IH]; intros b; simpl.
  - destruct (match_here r (Cursor b [])) eqn:E; [discriminate|].
    intros _ d a' H. symmetry in H. apply app_eq_nil in H as [-> ->]. exact E.
  - destruct (match_here r (Cursor b (y :: a))) eqn:E; [discriminate|].
    intros H d a' Hd. destruct d as [|x d]; simpl in *.
    + now subst a'.
    + injection Hd as <- ->. rewrite <- app_assoc. now apply (IH (y :: b)).
Qed.

End RegexFacts.

Module EquationEditorRun.
Import Js Regex EquationEditor EquationEditorDenotation RegexFacts.

Lemma set_li_lookup w rx r i o :
  regexps w !! rx = Some o ->
  regexps (set_li w rx r i) !! rx = Some {| source := r; lastIndex := i |}.
Proof.
  intros H. simpl. apply list_lookup_insert_eq. eapply lookup_lt_Some, H.
Qed.

Lemma set_li_twice w rx r i j :
  set_li (set_li w rx r i) rx r j = set_li w rx r j.
Proof. unfold set_li, with_regexps. simpl. now rewrite list_insert_insert_eq. Qed.

Lemma set_li_same w rx r i :
  regexps w !! rx = Some {| source := r; lastIndex := i |} ->
  set_li w rx r i = w.
Proof.
  intros H. unfold set_li, with_regexps. rewrite list_insert_id by exact H.
  now destruct w.
Qed.

Lemma RegExp_exec_run w rx r i s :
  regexps w !! rx = Some {| source := r; lastIndex := i |} ->
  RegExp_exec rx s w =
    (fst (builtin_exec r s i), set_li w rx r (snd (builtin_exec r s i))).
Proof.
  intros H. unfold RegExp_exec. rewrite H. simpl.
  now destruct (builtin_exec r s i).
Qed.

Lemma set_lastIndex_run w rx r i j :
  regexps w !! rx = Some {| source := r; lastIndex := i |} ->
  set_lastIndex rx j w = (tt, set_li w rx r j).
Proof. intros H. unfold set_lastIndex. now rewrite H. Qed.

Lemma match_loop_run s rx r fuel : forall w i,
  regexps w !! rx = Some {| source := r; lastIndex := i |} ->
  match_loop fuel rx s w =
    (map matched (fst (run_exec true fuel r s i)),
     set_li w rx r (snd (run_exec true fuel r s i))).
Proof.
  induction fuel as [|fuel IH]; intros w i H; simpl.
  - unfold ret. now rewrite set_li_same.
  - unfold bind at 1. rewrite (RegExp_exec_run _ _ _ _ _ H).
    destruct (builtin_exec r s i) as [[m|] j]; simpl; [|reflexivity].
    pose proof (set_li_lookup w rx r j _ H) as H1.
    unfold bind at 1.
    destruct (matched m) as [|c cs] eqn:Em.
    + rewrite (set_lastIndex_run _ _ _ _ (S (end_index m)) H1), set_li_twice.
      unfold bind at 1.
      rewrite (IH _ (S (end_index m))) by (eapply set_li_lookup, H).
      rewrite set_li_twice.
      destruct (run_exec true fuel r s (S (end_index m))). simpl.
      unfold ret. now rewrite Em.
    + unfold ret at 1. unfold bind at 1.
      rewrite (IH _ j H1), set_li_twice.
      destruct (run_exec true fuel r s j). simpl.
      unfold ret. now rewrite Em.
Qed.

Lemma exec_loop_run s rx r fuel : forall w i,
  regexps w !! rx = Some {| source := r; lastIndex := i |} ->
  exec_loop fuel rx s w =
    (map capture1 (fst (run_exec false fuel r s i)),
     set_li w rx r (snd (run_exec false fuel r s i))).
Proof.
  induction fuel as [|fuel IH]; intros w i H; simpl.
  - unfold ret. now rewrite set_li_same.
  - unfold bind at 1. rewrite (RegExp_exec_run _ _ _ _ _ H).
    destruct (builtin_exec r s i) as [[m|] j]; simpl; [|reflexivity].
    pose proof (set_li_lookup w rx r j _ H) as H1.
    unfold bind at 1.
    rewrite (IH _ j H1), set_li_twice.
    now destruct (run_exec false fuel r s j).
Qed.

(** One run of the callback: its result, and the world it leaves. *)
Lemma dependencies_run w :
  exists li1 li2,
    dependencies w =
      ({| stocks := stocks_of (localEquation w) (availableStocks (props w));
          parameters := parameters_of (localEquation w) |},
       with_regexps w
         (regexps w
          ++ [{| source := stockPattern (availableStocks (props w));
                 lastIndex := li1 |};
              {| source := paramPattern; lastIndex := li2 |}])).
Proof.
  destruct w as [p eq h].
  unfold dependencies, bind, get_localEquation, get_availableStocks,
    new_RegExp, String_match, bind. cbn -[match_loop exec_loop].
  set (r1 := stockPattern (availableStocks p)).
  set (o1 := {| source := r1; lastIndex := 0 |}).
  set (w1 := with_regexps _ (h ++ [o1])).
  assert (H1 : regexps w1 !! length h = Some o1).
  { simpl. now rewrite lookup_app_r, Nat.sub_diag by lia. }
  rewrite (set_lastIndex_run _ _ _ _ 0 H1).
  rewrite (match_loop_run _ _ r1 _ _ 0) by (eapply set_li_lookup, H1).
  rewrite set_li_twice.
  set (run1 := run_exec true _ r1 eq 0).
  unfold ret.
  set (w2 := set_li w1 (length h) r1 (snd run1)).
  assert (Hw2 : regexps w2 = h ++ [{| source := r1; lastIndex := snd run1 |}]).
  { unfold w2, set_li, w1. simpl.
    now rewrite insert_app_r_alt, Nat.sub_diag by lia. }
  assert (H2 : (regexps w2 ++ [{| source := paramPattern; lastIndex := 0 |}])
               !! length (regexps w2)
               = Some {| source := paramPattern; lastIndex := 0 |}).
  { now rewrite lookup_app_r, Nat.sub_diag by lia. }
  match goal with
  | |- context [exec_loop ?f ?rx ?s ?w'] =>
      rewrite (exec_loop_run s rx paramPattern f w' 0) by exact H2
  end.
  set (run2 := run_exec false _ paramPattern eq 0).
  exists (snd run1), (snd run2).
  f_equal.
  - unfold stocks_of, parameters_of.
    change (2 + length eq) with (S (S (length eq))). fold r1 run1 run2. simpl.
    f_equal. now destruct (map matched (fst run1)).
  - assert (Hp : props w2 = p) by reflexivity.
    assert (He : localEquation w2 = eq) by reflexivity.
    clear H2. clearbody w2. destruct w2 as [p2 eq2 h2]. simpl in *. subst.
    unfold set_li, with_regexps. simpl. f_equal.
    rewrite insert_app_r_alt by (rewrite length_app; simpl; lia).
    rewrite Nat.sub_diag. simpl.
    now rewrite <- app_assoc.
Qed.

End EquationEditorRun.

Module LoopFacts.
Import Js Regex EquationEditor EquationEditorDenotation RegexFacts EquationEditorRun.

Lemma class_plus_inv {R} negated members a : forall b caps (k : cursor -> captures -> option R) res,
  class_plus negated members b a caps k = Some res ->
  exists c' , k c' caps = Some res
    /\ text_of c' = rev b ++ a /\ length b <= position c'.
Proof.
  induction a as [|y a IH]; intros b caps k res; simpl; [discriminate|].
  destruct (class_accepts negated members y); [|discriminate].
  destruct (class_plus negated members (y :: b) a caps k) eqn:E.
  - intros [= ->]. apply IH in E as (c' & Hk & Ht & Hp).
    exists c'. repeat split; auto.
    + rewrite Ht. simpl. now rewrite <- app_assoc.
    + simpl in Hp. lia.
  - intros Hk. exists (Cursor (y :: b) a). repeat split; auto.
    + unfold text_of. simpl. now rewrite <- app_assoc.
    + unfold position. simpl. lia.
Qed.

(** A successful match hands its continuation a cursor further right in
    the same text. *)
Lemma rmatch_inv {R} r : forall c caps (k : cursor -> captures -> option R) res,
  rmatch r c caps k = Some res ->
  exists c' caps', k c' caps' = Some res
    /\ text_of c' = text_of c /\ position c <= position c'.
Proof.
  induction r; intros [b a] caps k res; simpl.
  - intros H. exists (Cursor b a), caps. auto.
  - destruct a as [|y a]; [discriminate|].
    destruct (Ascii.eqb c y); [|discriminate].
    intros H. exists (Cursor (y :: b) a), caps. repeat split; auto.
    + unfold text_of. simpl. now rewrite <- app_assoc.
    + unfold position. simpl. lia.
  - destruct a as [|y a]; [discriminate|].
    destruct (class_accepts negated members y); [|discriminate].
    intros H. exists (Cursor (y :: b) a), caps. repeat split; auto.
    + unfold text_of. simpl. now rewrite <- app_assoc.
    + unfold position. simpl. lia.
  - intros H. apply class_plus_inv in H as (c' & Hk & Ht & Hp).
    exists c', caps. auto.
  - destruct (at_word_boundary (Cursor b a)); [|discriminate].
    intros H. exists (Cursor b a), caps. auto.
  - intros H. apply IHr1 in H as (c1 & caps1 & H & Ht1 & Hp1).
    apply IHr2 in H as (c2 & caps2 & H & Ht2 & Hp2).
    exists c2, caps2. repeat split; auto; [congruence | lia].
  - destruct (rmatch r1 (Cursor b a) caps k) eqn:E.
    + intros [= ->]. now apply IHr1 in E.
    + intros H. now apply IHr2 in H.
  - intros H. apply IHr in H as (c1 & caps1 & H & Ht1 & Hp1).
    eexists c1, _. eauto.
Qed.

Lemma consumed_length c c' :
  text_of c' = text_of c -> position c <= position c' ->
  length (consumed c c') = position c' - position c.
Proof.
  intros _ Hp. unfold consumed. rewrite length_rev, length_firstn.
  unfold position in *. lia.
Qed.

Lemma match_here_shape r c m :
  match_here r c = Some m ->
  index m = position c /\ position c <= end_index m
  /\ end_index m <= length (text_of c)
  /\ length (matched m) = end_index m - index m.
Proof.
  unfold match_here. intros H.
  apply rmatch_inv in H as (c' & caps' & [= <-] & Ht & Hp). simpl.
  repeat split; auto.
  - rewrite <- Ht. unfold text_of, position. rewrite length_app, length_rev. lia.
  - now apply consumed_length.
Qed.

Lemma text_of_cursor_at s k : k <= length s -> text_of (cursor_at s k) = s.
Proof.
  intros _. unfold text_of, cursor_at. simpl.
  rewrite rev_involutive. apply firstn_skipn.
Qed.

Lemma position_cursor_at s k : k <= length s -> position (cursor_at s k) = k.
Proof.
  intros H. unfold position, cursor_at. simpl.
  rewrite length_rev, length_firstn. lia.
Qed.

Lemma cursor_at_shift s i d a' :
  i <= length s -> skipn i s = d ++ a' ->
  cursor_at s (i + length d) = Cursor (rev d ++ rev (firstn i s)) a'.
Proof.
  intros Hi Hs.
  assert (E : s = (firstn i s ++ d) ++ a').
  { rewrite <- app_assoc, <- Hs. symmetry. apply firstn_skipn. }
  assert (L : i + length d = length (firstn i s ++ d)).
  { rewrite length_app, length_firstn. lia. }
  rewrite L. rewrite E at 1. rewrite cursor_at_app. now rewrite rev_app_distr.
Qed.

(** [exec] reports the leftmost match at or after [lastIndex]. *)
Lemma exec_Some r s i m j :
  builtin_exec r s i = (Some m, j) ->
  j = end_index m /\
  exists k, i <= k <= length s
    /\ match_here r (cursor_at s k) = Some m
    /\ forall k', i <= k' < k -> match_here r (cursor_at s k') = None.
Proof.
  unfold builtin_exec. destruct (length s <? i) eqn:Hi; [discriminate|].
  apply Nat.ltb_ge in Hi.
  destruct (search _ _ _) as [m'|] eqn:E; [|discriminate].
  intros [= -> <-]. split; [reflexivity|].
  apply search_Some in E as (d & a' & Ha & Hm & Hfirst). simpl in Ha.
  assert (Hlen : length (skipn i s) = length d + length a')
    by (rewrite Ha; apply length_app).
  rewrite length_skipn in Hlen.
  exists (i + length d). split; [lia|]. split.
  - now rewrite (cursor_at_shift s i d a').
  - intros k' Hk'.
    pose proof (firstn_skipn (k' - i) d) as Hd.
    specialize (Hfirst (firstn (k' - i) d) (skipn (k' - i) d) (eq_sym Hd)).
    assert (Hl : length (firstn (k' - i) d) = k' - i)
      by (rewrite length_firstn; lia).
    replace k' with (i + length (firstn (k' - i) d)) by lia.
    rewrite (cursor_at_shift s i _ (skipn (k' - i) d ++ a')).
    + apply Hfirst. intros Hnil.
      apply (f_equal (@length _)) in Hnil. rewrite length_skipn in Hnil.
      simpl in Hnil. lia.
    + exact Hi.
    + rewrite Ha. rewrite <- Hd at 1. now rewrite <- app_assoc.
Qed.

Lemma exec_None r s i j :
  builtin_exec r s i = (None, j) ->
  forall k, i <= k <= length s -> match_here r (cursor_at s k) = None.
Proof.
  unfold builtin_exec. destruct (length s <? i) eqn:Hi.
  - apply Nat.ltb_lt in Hi. intros _ k Hk. lia.
  - apply Nat.ltb_ge in Hi.
    destruct (search _ _ _) as [m'|] eqn:E; [discriminate|].
    intros _ k Hk. simpl in E.
    pose proof (search_None _ _ _ E (firstn (k - i) (skipn i s))
                  (skipn (k - i) (skipn i s))
                  (eq_sym (firstn_skipn _ _))) as H.
    assert (Hl : length (firstn (k - i) (skipn i s)) = k - i)
      by (rewrite length_firstn, length_skipn; lia).
    replace k with (i + length (firstn (k - i) (skipn i s))) by lia.
    rewrite (cursor_at_shift s i _ (skipn (k - i) (skipn i s))); auto.
    symmetry. apply firstn_skipn.
Qed.

(** Every reported match is a match of the pattern somewhere in the text. *)
Lemma run_exec_sound advance r s fuel : forall i m,
  In m (fst (run_exec advance fuel r s i)) ->
  exists k, k <= length s /\ match_here r (cursor_at s k) = Some m.
Proof.
  induction fuel as [|fuel IH]; intros i m; simpl; [tauto|].
  destruct (builtin_exec r s i) as [[m'|] j] eqn:E; simpl; [|tauto].
  match goal with
  | |- context [run_exec advance fuel r s ?j'] =>
      specialize (IH j' m); destruct (run_exec advance fuel r s j')
  end.
  simpl in *. intros [<-|H]; [|auto].
  apply exec_Some in E as (_ & k & Hk & Hm & _). exists k. split; [lia|auto].
Qed.

(** A match at [k0] is reported when every match to its left is non-empty
    and ends at or before [k0], and the fuel covers the rest of the text. *)
Lemma run_exec_complete advance r s k0 m0 :
  k0 <= length s ->
  match_here r (cursor_at s k0) = Some m0 ->
  (forall k m, k < k0 -> match_here r (cursor_at s k) = Some m ->
               k < end_index m <= k0) ->
  forall fuel i, i <= k0 -> length s < i + fuel ->
    In m0 (fst (run_exec advance fuel r s i)).
Proof.
  intros Hk0 Hm0 Hleft. induction fuel as [|fuel IH]; intros i Hi Hfuel; [lia|].
  simpl. destruct (builtin_exec r s i) as [[m|] j] eqn:E.
  - apply exec_Some in E as (-> & k & Hk & Hm & Hfirst).
    destruct (Nat.lt_ge_cases k0 k) as [Hlt|Hge].
    { rewrite Hfirst in Hm0 by lia. discriminate. }
    destruct (Nat.eq_dec k k0) as [->|Hne].
    { assert (m = m0) by congruence. subst.
      match goal with
      | |- context [run_exec advance fuel r s ?j'] =>
          destruct (run_exec advance fuel r s j')
      end. now left. }
    assert (Hk' : k < k0) by lia.
    pose proof (Hleft k m Hk' Hm) as Hend.
    pose proof (match_here_shape _ _ _ Hm) as (Hidx & _ & _ & Hlen).
    rewrite position_cursor_at in Hidx by lia.
    assert (Hj : (if advance
                  then match matched m with [] => S (end_index m) | _ :: _ => end_index m end
                  else end_index m) = end_index m).
    { destruct advance; [|reflexivity].
      destruct (matched m); [simpl in Hlen; lia | reflexivity]. }
    rewrite Hj.
    specialize (IH (end_index m)).
    destruct (run_exec advance fuel r s (end_index m)). simpl in *.
    right. apply IH; lia.
  - pose proof (exec_None _ _ _ _ E k0) as H. rewrite H in Hm0 by lia. discriminate.
Qed.

End LoopFacts.

Module StockFacts.
Import Js Regex EquationEditor EquationEditorSpec EquationEditorDenotation
  RegexFacts EquationEditorRun LoopFacts.

Lemma uniq_from_In seen l x :
  In x (uniq_from seen l) <-> In x l /\ ~ In x seen.
Proof.
  revert seen. induction l as [|y l IH]; intros seen; simpl; [tauto|].
  unfold memb. destruct (in_dec text_eq_dec y seen) as [Hy|Hy].
  - rewrite IH. split; [tauto|]. intros [[<-|H] Hn]; tauto.
  - simpl. rewrite IH. simpl. split.
    + intros [<-|[H Hn]]; [tauto|]. tauto.
    + intros [[<-|H] Hn]; [tauto|].
      destruct (text_eq_dec y x) as [->|Hne]; [tauto|]. right. tauto.
Qed.

Lemma uniq_from_NoDup seen l : NoDup (uniq_from seen l).
Proof.
  revert seen. induction l as [|y l IH]; intros seen; simpl; [constructor|].
  unfold memb. destruct (in_dec text_eq_dec y seen); [apply IH|].
  apply NoDup_cons_2; [|apply IH].
  rewrite list_elem_of_In, uniq_from_In. simpl. tauto.
Qed.

Lemma spread_Set_In l x : In x (spread_Set l) <-> In x l.
Proof. unfold spread_Set. rewrite uniq_from_In. simpl. tauto. Qed.

Lemma spread_Set_NoDup l : NoDup (spread_Set l).
Proof. apply uniq_from_NoDup. Qed.

(** *** Building the alternation from the joined symbols *)

Lemma identifier_no_bar x : identifier x -> no_bar x.
Proof.
  intros [_ H]. eapply Forall_impl; [exact H|]. simpl.
  intros c Hc. destruct (Ascii.eqb c bar) eqn:E; [|reflexivity].
  apply Ascii.eqb_eq in E. subst c. discriminate.
Qed.

Lemma split_no_bar x : no_bar x -> split_alternatives x = [x].
Proof.
  induction 1 as [|c x Hc _ IH]; simpl; [reflexivity|]. now rewrite Hc, IH.
Qed.

Lemma split_app_bar x rest :
  no_bar x -> split_alternatives (x ++ bar :: rest) = x :: split_alternatives rest.
Proof.
  induction 1 as [|c x Hc _ IH]; simpl; [reflexivity|]. now rewrite Hc, IH.
Qed.

Lemma split_join st :
  st <> [] -> Forall no_bar st -> split_alternatives (join [bar] st) = st.
Proof.
  intros Hne H. induction H as [|x st Hx Hst IH]; [congruence|].
  destruct st as [|y st]; simpl.
  - now apply split_no_bar.
  - change (split_alternatives (x ++ bar :: join [bar] (y :: st)) = x :: y :: st).
    rewrite split_app_bar by exact Hx. f_equal. now apply IH.
Qed.

(** *** Matching an alternation of literals *)

Lemma rmatch_alternation {R} alts b a caps (k : cursor -> captures -> option R) :
  alts <> [] ->
  rmatch (alternation alts) (Cursor b a) caps k = try_alts alts b a caps k.
Proof.
  induction alts as [|t alts IH]; [congruence|]. intros _.
  destruct alts as [|t' alts].
  - simpl alternation. rewrite rmatch_literal. simpl.
    now destruct (strip t a) as [r|]; [destruct (k _ caps)|].
  - change (alternation (t :: t' :: alts))
      with (RAlt (literal t) (alternation (t' :: alts))).
    cbn [rmatch]. rewrite rmatch_literal, IH by congruence. reflexivity.
Qed.

Lemma try_alts_Some {R} alts b a caps (k : cursor -> captures -> option R) res :
  try_alts alts b a caps k = Some res ->
  exists t rest, In t alts /\ a = t ++ rest
    /\ k (Cursor (rev t ++ b) rest) caps = Some res.
Proof.
  induction alts as [|t alts IH]; simpl; [discriminate|].
  destruct (strip t a) as [r|] eqn:Es.
  - destruct (k (Cursor (rev t ++ b) r) caps) eqn:Ek.
    + intros [= ->]. apply strip_Some in Es. exists t, r. auto.
    + intros H. apply IH in H as (t' & rest & ? & ? & ?). exists t', rest. auto.
  - intros H. apply IH in H as (t' & rest & ? & ? & ?). exists t', rest. auto.
Qed.

Lemma try_alts_exists {R} alts b a caps (k : cursor -> captures -> option R) t rest res :
  In t alts -> a = t ++ rest ->
  k (Cursor (rev t ++ b) rest) caps = Some res ->
  exists res', try_alts alts b a caps k = Some res'.
Proof.
  intros Hin Ha Hk. induction alts as [|t' alts IH]; simpl; [destruct Hin|].
  destruct (match strip t' a with Some r => _ | None => None end) eqn:E; [eauto|].
  destruct Hin as [->|Hin]; [|auto].
  apply strip_Some in Ha. rewrite Ha, Hk in E. discriminate.
Qed.

Lemma stockPattern_identifiers st :
  st <> [] -> Forall identifier st -> stockPattern st = stock_regex st.
Proof.
  intros Hne H. unfold stockPattern, parse_alternation, stock_regex.
  rewrite split_join; auto.
  eapply Forall_impl; [exact H|]. apply identifier_no_bar.
Qed.

Lemma stock_match_inv alts b a m :
  alts <> [] ->
  match_here (stock_regex alts) (Cursor b a) = Some m ->
  exists t rest, In t alts /\ a = t ++ rest
    /\ at_word_boundary (Cursor b a) = true
    /\ at_word_boundary (Cursor (rev t ++ b) rest) = true
    /\ m = MatchResult (length b) (length t + length b) t [(1, t)].
Proof.
  intros Hne. unfold match_here, stock_regex. cbn [rmatch].
  destruct (at_word_boundary (Cursor b a)) eqn:Hb; [|discriminate].
  rewrite rmatch_alternation by exact Hne.
  intros H. apply try_alts_Some in H as (t & rest & Hin & Ha & H).
  cbn [rmatch] in H.
  destruct (at_word_boundary (Cursor (rev t ++ b) rest)) eqn:Hb'; [|discriminate].
  injection H as <-. exists t, rest. repeat split; auto.
  rewrite consumed_app. unfold position. simpl.
  now rewrite length_app, length_rev.
Qed.

Lemma stock_match_intro alts b a t rest :
  alts <> [] -> In t alts -> a = t ++ rest ->
  at_word_boundary (Cursor b a) = true ->
  at_word_boundary (Cursor (rev t ++ b) rest) = true ->
  exists m, match_here (stock_regex alts) (Cursor b a) = Some m.
Proof.
  intros Hne Hin Ha Hb Hb'. unfold match_here, stock_regex. cbn [rmatch].
  rewrite Hb, rmatch_alternation by exact Hne.
  eapply try_alts_exists; eauto. cbn [rmatch]. now rewrite Hb'.
Qed.

(** *** Identifiers and word boundaries *)

Lemma identifier_starts t rest : identifier t -> starts_with_word (t ++ rest) = true.
Proof. intros [Hne H]. destruct H; [congruence|]. assumption. Qed.

Lemma identifier_ends t pre : identifier t -> ends_with_word (pre ++ t) = true.
Proof.
  intros [Hne H]. unfold ends_with_word. rewrite rev_app_distr.
  apply Forall_rev in H.
  destruct (rev t) as [|c l] eqn:E.
  - apply (f_equal (@rev _)) in E. rewrite rev_involutive in E. now subst.
  - simpl. now inversion H.
Qed.

Lemma word_before_rev pre a : word_before (Cursor (rev pre) a) = ends_with_word pre.
Proof. reflexivity. Qed.

Lemma word_before_rev_app t b a :
  word_before (Cursor (rev t ++ b) a) = ends_with_word (rev b ++ t).
Proof.
  unfold word_before, ends_with_word. simpl.
  now rewrite rev_app_distr, rev_involutive.
Qed.

Lemma word_after_eq b a : word_after (Cursor b a) = starts_with_word a.
Proof. reflexivity. Qed.

(** A word run that stops at a boundary is determined by where it starts. *)
Lemma unique_token t : forall t' r r',
  Forall (fun c => is_word_char c = true) t ->
  Forall (fun c => is_word_char c = true) t' ->
  starts_with_word r = false -> starts_with_word r' = false ->
  t ++ r = t' ++ r' -> t = t'.
Proof.
  induction t as [|c t IH]; intros t' r r' Ht Ht' Hr Hr' E.
  - destruct t' as [|c' t']; [reflexivity|]. simpl in E. subst r.
    simpl in Hr. inversion Ht'; congruence.
  - destruct t' as [|c' t']; simpl in E.
    + subst r'. simpl in Hr'. inversion Ht; congruence.
    + injection E as <- E. f_equal.
      inversion Ht; inversion Ht'; subst. now apply (IH t' r r').
Qed.

Lemma ends_with_word_app_ne pre d :
  d <> [] -> ends_with_word (pre ++ d) = ends_with_word d.
Proof.
  intros Hd. unfold ends_with_word. rewrite rev_app_distr.
  destruct (rev d) as [|c l] eqn:E; [|reflexivity].
  apply (f_equal (@rev _)) in E. rewrite rev_involutive in E. now subst.
Qed.

(** A word run cannot reach across a position with a non-word character
    before it. *)
Lemma word_run_short t : forall d rest B,
  Forall (fun c => is_word_char c = true) t ->
  t ++ rest = d ++ B -> d <> [] -> ends_with_word d = false ->
  length t < length d.
Proof.
  induction t as [|c t IH]; intros d rest B Ht E Hd Hend.
  - destruct d; [congruence|simpl; lia].
  - destruct d as [|x d]; [congruence|]. simpl in E. injection E as <- E.
    inversion Ht; subst.
    destruct d as [|y d].
    + unfold ends_with_word in Hend. simpl in Hend. congruence.
    + simpl. apply -> Nat.succ_lt_mono.
      apply (IH (y :: d) rest B); [assumption|exact E|congruence|].
      rewrite <- Hend. symmetry.
      apply (ends_with_word_app_ne [c] (y :: d)). congruence.
Qed.

Section Stocks.
Variable st : list text.
Hypothesis st_nonempty : st <> [].
Hypothesis st_identifiers : Forall identifier st.

Lemma st_identifier t : In t st -> identifier t.
Proof using st_identifiers.
  intros H. exact (proj1 (List.Forall_forall _ _) st_identifiers t H).
Qed.

(** A match of the stock pattern is a standalone occurrence of a known
    symbol. *)
Lemma stock_match_standalone s k m :
  k <= length s ->
  match_here (stock_regex st) (cursor_at s k) = Some m ->
  In (matched m) st /\ standalone s (matched m)
  /\ index m = k /\ end_index m = length (matched m) + k
  /\ matched m <> [].
Proof using st_nonempty st_identifiers.
  intros Hk H. unfold cursor_at in H.
  apply stock_match_inv in H as (t & rest & Hin & Ha & Hb & Hb' & ->);
    [|exact st_nonempty].
  pose proof (st_identifier t Hin) as Hid.
  simpl. rewrite length_rev, length_firstn.
  replace (k `min` length s) with k by lia.
  repeat split; auto; [|apply Hid].
  exists (firstn k s), rest. repeat split.
  - rewrite <- Ha. symmetry. apply firstn_skipn.
  - unfold at_word_boundary in Hb.
    rewrite word_before_rev, word_after_eq, Ha, identifier_starts in Hb by exact Hid.
    now destruct (ends_with_word (firstn k s)).
  - unfold at_word_boundary in Hb'.
    rewrite word_before_rev_app, word_after_eq, identifier_ends in Hb' by exact Hid.
    now destruct (starts_with_word rest).
Qed.

(** A standalone occurrence of a known symbol is a match of the pattern,
    and the symbol is what is matched there. *)
Lemma standalone_stock_match pre sym post :
  In sym st ->
  ends_with_word pre = false -> starts_with_word post = false ->
  exists m,
    match_here (stock_regex st) (cursor_at (pre ++ sym ++ post) (length pre)) = Some m
    /\ matched m = sym.
Proof using st_nonempty st_identifiers.
  intros Hin Hpre Hpost. rewrite cursor_at_app.
  pose proof (st_identifier sym Hin) as Hid.
  destruct (stock_match_intro st (rev pre) (sym ++ post) sym post) as [m Hm]; auto.
  - unfold at_word_boundary.
    now rewrite word_before_rev, word_after_eq, identifier_starts, Hpre.
  - unfold at_word_boundary.
    rewrite word_before_rev_app, word_after_eq, identifier_ends, Hpost by exact Hid.
    reflexivity.
  - exists m. split; [exact Hm|].
    apply stock_match_inv in Hm as (t & rest & Hin' & Ha & Hb & Hb' & ->);
      [|exact st_nonempty].
    simpl. pose proof (st_identifier t Hin') as Hid'.
    unfold at_word_boundary in Hb'.
    rewrite word_before_rev_app, word_after_eq, identifier_ends in Hb' by exact Hid'.
    symmetry. eapply unique_token; [apply Hid|apply Hid'|exact Hpost| |exact Ha].
    now destruct (starts_with_word rest).
Qed.

(** Matches to the left of a standalone occurrence end before it. *)
Lemma stock_no_overlap pre sym post k m :
  ends_with_word pre = false ->
  k < length pre ->
  match_here (stock_regex st) (cursor_at (pre ++ sym ++ post) k) = Some m ->
  k < end_index m <= length pre.
Proof using st_nonempty st_identifiers.
  intros Hpre Hk Hm.
  set (s := pre ++ sym ++ post) in *.
  assert (Hks : k <= length s) by (unfold s; rewrite length_app; lia).
  pose proof (stock_match_standalone s k m Hks Hm) as (Hin & _ & _ & Hend & Hne).
  unfold cursor_at in Hm.
  apply stock_match_inv in Hm as (t & rest & _ & Ha & _ & _ & ->);
    [|exact st_nonempty].
  simpl in *. pose proof (st_identifier t Hin) as [_ Hw].
  assert (E : firstn k s ++ t ++ rest = pre ++ sym ++ post).
  { rewrite <- Ha. apply firstn_skipn. }
  assert (Hl : length (firstn k s) = k) by (rewrite length_firstn; lia).
  apply app_eq_app in E as [d [[E1 E2]|[E1 E2]]].
  - apply (f_equal (@length _)) in E1. rewrite length_app in E1. lia.
  - assert (Hd : d <> []).
    { intros ->. rewrite app_nil_r in E1.
      apply (f_equal (@length _)) in E1. lia. }
    assert (Hshort : length t < length d).
    { eapply word_run_short; eauto.
      rewrite <- Hpre, E1. symmetry. now apply ends_with_word_app_ne. }
    rewrite E1, length_app, Hl. rewrite Hend.
    destruct t; [congruence|]. simpl in *. lia.
Qed.

Lemma stocks_of_exact s :
  NoDup (stocks_of s st)
  /\ forall sym, In sym (stocks_of s st) <-> In sym st /\ standalone s sym.
Proof using st_nonempty st_identifiers.
  split; [apply spread_Set_NoDup|].
  intros sym. unfold stocks_of.
  rewrite stockPattern_identifiers by assumption.
  rewrite spread_Set_In, in_map_iff. split.
  - intros (m & <- & Hm).
    apply run_exec_sound in Hm as (k & Hk & Hm).
    pose proof (stock_match_standalone s k m Hk Hm). tauto.
  - intros (Hin & pre & post & -> & Hpre & Hpost).
    destruct (standalone_stock_match pre sym post Hin Hpre Hpost) as (m & Hm & Hsym).
    exists m. split; [exact Hsym|].
    apply run_exec_complete with (k0 := length pre).
    + rewrite length_app. lia.
    + exact Hm.
    + intros k m' Hk Hm'. eapply stock_no_overlap; eauto.
    + lia.
    + lia.
Qed.
End Stocks.

End StockFacts.

Module ParamFacts.
Import Js Regex EquationEditor EquationEditorSpec EquationEditorDenotation
  RegexFacts EquationEditorRun LoopFacts StockFacts.

Lemma accepts_quote y : class_accepts false quotes y = is_quote y.
Proof. reflexivity. Qed.

Lemma accepts_non_quote y : class_accepts true quotes y = negb (is_quote y).
Proof. reflexivity. Qed.

Lemma class_plus_none {R} negated members b a caps (k : cursor -> captures -> option R) :
  stops negated members a -> class_plus negated members b a caps k = None.
Proof. destruct a as [|y a]; simpl; [reflexivity|]. now intros ->. Qed.

(** A greedy class repetition hands over its longest run whenever the
    continuation cannot start on a character of the class. *)
Lemma class_plus_greedy {R} negated members caps (k : cursor -> captures -> option R) :
  (forall b' y rest caps',
      class_accepts negated members y = true ->
      k (Cursor b' (y :: rest)) caps' = None) ->
  forall run b rest,
    run <> [] ->
    Forall (fun c => class_accepts negated members c = true) run ->
    stops negated members rest ->
    class_plus negated members b (run ++ rest) caps k
    = k (Cursor (rev run ++ b) rest) caps.
Proof.
  intros Hk run. induction run as [|y run IH]; intros b rest Hne Hrun Hrest;
    [congruence|].
  inversion Hrun as [|? ? Hy Hrun']; subst. simpl. rewrite Hy.
  destruct run as [|y' run].
  - simpl. now rewrite class_plus_none.
  - rewrite IH by (auto; congruence).
    replace (rev (y' :: run) ++ [y]) with (rev (y :: y' :: run)) by reflexivity.
    simpl. rewrite <- !app_assoc. simpl.
    inversion Hrun'; subst.
    rewrite (Hk (y :: b) y' (run ++ rest) caps) by assumption.
    now destruct (k _ caps).
Qed.

Lemma stops_at_quote rest :
  match rest with y :: _ => is_quote y = true | [] => True end ->
  stops true quotes rest.
Proof.
  destruct rest as [|y rest]; [trivial|]. intros H. unfold stops.
  now rewrite accepts_non_quote, H.
Qed.

Lemma quote_free_prefix a :
  exists run rest, a = run ++ rest
    /\ Forall (fun c => is_quote c = false) run
    /\ match rest with y :: _ => is_quote y = true | [] => True end.
Proof.
  induction a as [|y a (run & rest & -> & Hrun & Hrest)].
  - exists [], []. auto.
  - destruct (is_quote y) eqn:E.
    + exists [], (y :: run ++ rest). auto.
    + exists (y :: run), rest. auto.
Qed.

Lemma capture1_single m name : groups m = [(1, name)] -> capture1 m = name.
Proof. unfold capture1, group. now intros ->. Qed.

Ltac head_eqb H :=
  match type of H with
  | context [Ascii.eqb ?x ?y] =>
      let E := fresh "E" in
      destruct (Ascii.eqb x y) eqn:E; [apply Ascii.eqb_eq in E; subst|discriminate]
  end.

(** What a match of the parameter pattern looks like. *)
Lemma param_match_inv b a m :
  match_here paramPattern (Cursor b a) = Some m ->
  exists q1 name q2 post,
    a = "p"%char :: "["%char :: q1 :: name ++ q2 :: "]"%char :: post
    /\ is_quote q1 = true /\ is_quote q2 = true
    /\ name <> [] /\ Forall (fun c => is_quote c = false) name
    /\ groups m = [(1, name)]
    /\ index m = length b /\ end_index m = length b + 5 + length name.
Proof.
  unfold match_here, paramPattern. cbn [rmatch after before].
  destruct a as [|y0 [|y1 [|q1 a]]]; try discriminate;
    try (intros H; head_eqb H; discriminate);
    try (intros H; head_eqb H; head_eqb H; discriminate).
  intros H. head_eqb H. head_eqb H.
  rewrite accepts_quote in H. destruct (is_quote q1) eqn:Hq1; [|discriminate].
  destruct (quote_free_prefix a) as (run & rest & -> & Hrun & Hrest).
  destruct run as [|c run].
  { rewrite class_plus_none in H; [discriminate|]. now apply stops_at_quote. }
  rewrite class_plus_greedy in H.
  - cbn [rmatch after before] in H.
    destruct rest as [|q2 [|y2 post]]; try discriminate.
    + destruct (class_accepts false quotes q2); discriminate.
    + rewrite accepts_quote in H. destruct (is_quote q2) eqn:Hq2; [|discriminate].
      head_eqb H. injection H as <-.
      exists q1, (c :: run), q2, post. cbn [groups index end_index].
      repeat split; auto; try congruence.
      * change (rev run ++ [c]) with (rev (c :: run)). now rewrite consumed_app.
      * unfold position. cbn [before]. simpl.
        rewrite !length_app, length_rev. simpl. lia.
  - intros b' y rest' caps' Hy. cbn [rmatch after before].
    rewrite accepts_non_quote in Hy. rewrite accepts_quote.
    now destruct (is_quote y).
  - congruence.
  - eapply Forall_impl; [exact Hrun|]. intros x Hx. cbv beta in *.
    now rewrite accepts_non_quote, Hx.
  - now apply stops_at_quote.
Qed.

Lemma param_match_intro b q1 name q2 post :
  is_quote q1 = true -> is_quote q2 = true ->
  name <> [] -> Forall (fun c => is_quote c = false) name ->
  exists m,
    match_here paramPattern
      (Cursor b ("p"%char :: "["%char :: q1 :: name ++ q2 :: "]"%char :: post))
    = Some m
    /\ groups m = [(1, name)].
Proof.
  intros Hq1 Hq2 Hne Hname.
  unfold match_here, paramPattern. cbn [rmatch after before].
  rewrite !Ascii.eqb_refl, accepts_quote, Hq1.
  rewrite class_plus_greedy.
  - cbn [rmatch after before]. rewrite accepts_quote, Hq2, Ascii.eqb_refl.
    eexists. split; [reflexivity|]. cbn [groups]. now rewrite consumed_app.
  - intros b' y rest' caps' Hy. cbn [rmatch after before].
    rewrite accepts_non_quote in Hy. rewrite accepts_quote.
    now destruct (is_quote y).
  - exact Hne.
  - eapply Forall_impl; [exact Hname|]. intros x Hx. cbv beta in *.
    now rewrite accepts_non_quote, Hx.
  - now apply stops_at_quote.
Qed.

(** The text of a reference to an identifier cannot begin inside the name
    or the closing part of another reference. *)
Lemma bracket_tail n1 : forall d q2 post q w tail,
  Forall (fun c => is_quote c = false) n1 ->
  is_quote q2 = true -> is_quote q = true -> is_word_char w = true ->
  n1 ++ q2 :: "]"%char :: post
    = d ++ "p"%char :: "["%char :: q :: w :: tail ->
  length n1 + 2 <= length d.
Proof.
  induction n1 as [|c n1 IH]; intros d q2 post q w tail Hn Hq2 Hq Hw E.
  - destruct d as [|x [|y d]]; simpl in *; [| |lia].
    + injection E as -> _. discriminate.
    + injection E as _ E. discriminate.
  - inversion Hn as [|? ? Hc Hn']; subst.
    destruct d as [|x d]; simpl in *.
    + injection E as -> E.
      destruct n1 as [|c' n1]; simpl in E.
      * injection E as -> _. discriminate.
      * injection E as -> E. inversion Hn' as [|? ? Hc' Hn'']; subst.
        destruct n1 as [|c'' n1]; simpl in E.
        -- injection E as _ <- _. discriminate.
        -- injection E as -> _. inversion Hn''; congruence.
    + injection E as _ E. apply IH in E; auto. lia.
Qed.

Lemma param_no_overlap pre q name q' post k m :
  is_quote q = true -> identifier name ->
  k < length pre ->
  match_here paramPattern
    (cursor_at (pre ++ "p"%char :: "["%char :: q :: name ++ q' :: "]"%char :: post) k)
    = Some m ->
  k < end_index m <= length pre.
Proof.
  intros Hq [Hne Hw] Hk Hm.
  set (s := pre ++ _) in *.
  unfold cursor_at in Hm.
  apply param_match_inv in Hm
    as (q1 & n1 & q2 & post1 & Ha & Hq1 & Hq2 & Hn1 & Hfree & _ & _ & Hend).
  rewrite length_rev, length_firstn in Hend.
  assert (Hks : k <= length s) by (unfold s; rewrite length_app; lia).
  replace (k `min` length s) with k in Hend by lia.
  split; [lia|].
  assert (E : firstn k s ++ "p"%char :: "["%char :: q1 :: n1 ++ q2 :: "]"%char :: post1
              = pre ++ "p"%char :: "["%char :: q :: name ++ q' :: "]"%char :: post)
    by (rewrite <- Ha; apply firstn_skipn).
  assert (Hl : length (firstn k s) = k) by (rewrite length_firstn; lia).
  destruct name as [|w name]; [congruence|]. inversion Hw; subst.
  apply app_eq_app in E as [d [[E1 E2]|[E1 E2]]].
  - apply (f_equal (@length _)) in E1. rewrite length_app in E1. lia.
  - rewrite E1, length_app, Hl, Hend.
    destruct d as [|x0 [|x1 [|x2 d]]]; simpl in E2.
    + rewrite app_nil_r in E1. apply (f_equal (@length _)) in E1. lia.
    + injection E2 as _ E2. discriminate.
    + injection E2 as _ _ E2. subst q1. discriminate.
    + injection E2 as _ _ _ E2. simpl in E2.
      apply bracket_tail in E2; auto. simpl. lia.
Qed.

Lemma parameters_of_sound s name :
  In name (parameters_of s) -> bracket_reference s name.
Proof.
  unfold parameters_of. rewrite spread_Set_In, in_map_iff.
  intros (m & <- & Hm).
  apply run_exec_sound in Hm as (k & Hk & Hm). unfold cursor_at in Hm.
  apply param_match_inv in Hm
    as (q1 & n & q2 & post & Ha & Hq1 & Hq2 & Hn & Hfree & Hg & _ & _).
  rewrite (capture1_single _ _ Hg).
  exists (firstn k s), q1, q2, post. repeat split; auto.
  rewrite <- Ha. symmetry. apply firstn_skipn.
Qed.

Lemma parameters_of_complete s name :
  identifier name -> bracket_reference s name -> In name (parameters_of s).
Proof.
  intros Hid (pre & q1 & q2 & post & -> & Hq1 & Hq2 & Hne & Hfree).
  unfold parameters_of. rewrite spread_Set_In, in_map_iff.
  destruct (param_match_intro (rev pre) q1 name q2 post) as (m & Hm & Hg); auto.
  rewrite <- cursor_at_app in Hm.
  exists m. split; [now apply capture1_single|].
  apply run_exec_complete with (k0 := length pre).
  - rewrite length_app. lia.
  - exact Hm.
  - intros k m' Hk Hm'.
    now apply (param_no_overlap pre q1 name q2 post k m').
  - lia.
  - lia.
Qed.

Lemma parameters_of_NoDup s : NoDup (parameters_of s).
Proof. apply spread_Set_NoDup. Qed.

End ParamFacts.

Module FuelFacts.
Import Js Regex EquationEditor EquationEditorSpec EquationEditorDenotation
  RegexFacts EquationEditorRun LoopFacts StockFacts ParamFacts.

Lemma exec_Some_bounds r s i m j :
  builtin_exec r s i = (Some m, j) ->
  i <= index m /\ index m <= end_index m <= length s
  /\ length (matched m) = end_index m - index m.
Proof.
  intros H. apply exec_Some in H as (_ & k & Hk & Hm & _).
  apply match_here_shape in Hm as (Hi & Hle & Hend & Hlen).
  rewrite position_cursor_at in * by lia.
  rewrite text_of_cursor_at in Hend by lia. lia.
Qed.

(** Once the fuel covers what is left of the text, more fuel changes
    nothing: the loop of [match] always moves on. *)
Lemma run_exec_advance_stable r s fuel : forall fuel' i,
  i <= S (length s) -> S (length s) < i + fuel -> fuel <= fuel' ->
  run_exec true fuel r s i = run_exec true fuel' r s i.
Proof.
  induction fuel as [|fuel IH]; intros fuel' i Hi Hfuel Hle; [lia|].
  destruct fuel' as [|fuel']; [lia|]. simpl.
  destruct (builtin_exec r s i) as [[m|] j] eqn:E; [|reflexivity].
  pose proof (exec_Some_bounds _ _ _ _ _ E) as (H1 & H2 & Hlen).
  apply exec_Some in E as (-> & _).
  rewrite (IH fuel'); [reflexivity| | |lia];
    destruct (matched m); simpl in Hlen; lia.
Qed.

(** The same for a [while (exec)] loop over a pattern that never matches
    the empty text. *)
Lemma run_exec_stable r s fuel :
  (forall c m, match_here r c = Some m -> index m < end_index m) ->
  forall fuel' i,
  i <= S (length s) -> S (length s) < i + fuel -> fuel <= fuel' ->
  run_exec false fuel r s i = run_exec false fuel' r s i.
Proof.
  intros Hprog. induction fuel as [|fuel IH]; intros fuel' i Hi Hfuel Hle; [lia|].
  destruct fuel' as [|fuel']; [lia|]. simpl.
  destruct (builtin_exec r s i) as [[m|] j] eqn:E; [|reflexivity].
  pose proof (exec_Some_bounds _ _ _ _ _ E) as (H1 & H2 & Hlen).
  apply exec_Some in E as (-> & k & _ & Hm & _).
  apply Hprog in Hm.
  rewrite (IH fuel'); [reflexivity|lia|lia|lia].
Qed.

Lemma paramPattern_progress c m :
  match_here paramPattern c = Some m -> index m < end_index m.
Proof.
  destruct c as [b a]. intros H.
  apply param_match_inv in H as (? & ? & ? & ? & _ & _ & _ & _ & _ & _ & -> & ->).
  lia.
Qed.

(** The rounds granted to the two loops of the callback are enough: with
    any larger number the loops return the same matches and leave the same
    [lastIndex]. *)
Lemma match_loop_fuel_suffices s rx r w fuel :
  regexps w !! rx = Some {| source := r; lastIndex := 0 |} ->
  2 + length s <= fuel ->
  match_loop fuel rx s w = match_loop (2 + length s) rx s w.
Proof.
  intros H Hfuel. rewrite !(match_loop_run s rx r _ w 0 H).
  now rewrite (run_exec_advance_stable r s (2 + length s) fuel 0) by lia.
Qed.

Lemma exec_loop_fuel_suffices s rx w fuel :
  regexps w !! rx = Some {| source := paramPattern; lastIndex := 0 |} ->
  2 + length s <= fuel ->
  exec_loop fuel rx s w = exec_loop (2 + length s) rx s w.
Proof.
  intros H Hfuel. rewrite !(exec_loop_run s rx paramPattern _ w 0 H).
  now rewrite (run_exec_stable paramPattern s (2 + length s)
                 paramPattern_progress fuel 0) by lia.
Qed.

End FuelFacts.

Module EquationEditorClaims.
Import Js Regex EquationEditor EquationEditorSpec EquationEditorExamples
  EquationEditorDenotation RegexFacts EquationEditorRun LoopFacts StockFacts
  ParamFacts.

Lemma dependencies_value w :
  fst (dependencies w)
  = {| stocks := stocks_of (localEquation w) (availableStocks (props w));
       parameters := parameters_of (localEquation w) |}.
Proof. destruct (dependencies_run w) as (li1 & li2 & ->). reflexivity. Qed.

(** With no known stock the joined source is empty and the pattern is an
    empty group between two word boundaries: it matches the empty text at
    every word boundary of the equation, here at 0, 1, 3 and 5. *)
Example empty_stock_list_matches :
  stockPattern [] = RSeq RWordBoundary (RSeq (RGroup 1 REmpty) RWordBoundary)
  /\ map (fun m => (index m, matched m))
       (fst (run_exec true (2 + length (str "p['zz']")) (stockPattern [])
               (str "p['zz']") 0))
     = [(0, []); (1, []); (3, []); (5, [])].
Proof. split; vm_compute; reflexivity. Qed.

(** C1 (as stated) fails: with no known stock the pattern degenerates to
    an empty group between two word boundaries, so the empty text is
    reported as a stock; and a referenced parameter is recorded although
    it is not a known parameter. *)
Lemma dependencies_not_exact :
  extract empty_props (str "p['zz']")
    = {| stocks := [[]]; parameters := [str "zz"] |}
  /\ ~ exact_dependencies (str "p['zz']")
         (availableStocks empty_props) (known_parameters empty_props)
         (extract empty_props (str "p['zz']")).
Proof.
  assert (E : extract empty_props (str "p['zz']")
              = {| stocks := [[]]; parameters := [str "zz"] |})
    by (vm_compute; reflexivity).
  split; [exact E|]. rewrite E. intros [Hs _].
  destruct (proj1 (Hs []) (or_introl eq_refl)) as [[] _].
Qed.

(** C1 (amended): for a non-empty list of known stocks that are
    identifiers, [dependencies.stocks] lists, without duplicates, exactly
    the known stocks that occur in the equation as standalone tokens;
    [dependencies.parameters] lists, without duplicates, names taken from
    bracket references [p['name']] of the equation, and every identifier
    so referenced is listed, whether or not it is a known parameter. *)
Theorem dependencies_exact_for_identifiers (w : world) :
  availableStocks (props w) <> [] ->
  Forall identifier (availableStocks (props w)) ->
  let d := fst (dependencies w) in
  (NoDup (stocks d)
   /\ forall sym, In sym (stocks d)
                  <-> In sym (availableStocks (props w))
                      /\ standalone (localEquation w) sym)
  /\ NoDup (parameters d)
  /\ (forall name, In name (parameters d)
                   -> bracket_reference (localEquation w) name)
  /\ (forall name, identifier name
                   -> bracket_reference (localEquation w) name
                   -> In name (parameters d)).
Proof.
  intros Hne Hid d. unfold d. rewrite dependencies_value. simpl.
  split; [now apply stocks_of_exact|].
  split; [apply parameters_of_NoDup|].
  split; [apply parameters_of_sound|apply parameters_of_complete].
Qed.

Lemma dependencies_exact_for_identifiers_witness :
  let d := fst (dependencies targeting_world) in
  (NoDup (stocks d)
   /\ forall sym, In sym (stocks d)
                  <-> In sym (availableStocks (props targeting_world))
                      /\ standalone (localEquation targeting_world) sym)
  /\ NoDup (parameters d)
  /\ (forall name, In name (parameters d)
                   -> bracket_reference (localEquation targeting_world) name)
  /\ (forall name, identifier name
                   -> bracket_reference (localEquation targeting_world) name
                   -> In name (parameters d)).
Proof.
  apply (dependencies_exact_for_identifiers targeting_world).
  - simpl. discriminate.
  - simpl. repeat constructor; try discriminate.
Defined.




(** C3: dependency extraction is deterministic and leaves its inputs
    alone: two runs on the same equation text and the same known stocks
    compute the same dependencies, whatever RegExp objects earlier runs
    left behind and whatever parameters are known, and a run changes
    neither the props nor the equation text nor any existing RegExp
    object: it only allocates two new ones. *)
Theorem dependencies_deterministic (w1 w2 : world) :
  localEquation w1 = localEquation w2 ->
  availableStocks (props w1) = availableStocks (props w2) ->
  fst (dependencies w1) = fst (dependencies w2)
  /\ props (snd (dependencies w1)) = props w1
  /\ localEquation (snd (dependencies w1)) = localEquation w1
  /\ exists fresh, regexps (snd (dependencies w1)) = regexps w1 ++ fresh
                   /\ length fresh = 2.
Proof.
  intros He Hs.
  split; [now rewrite !dependencies_value, He, Hs|].
  destruct (dependencies_run w1) as (li1 & li2 & ->). simpl.
  repeat split. eexists. split; reflexivity.
Qed.

Lemma dependencies_deterministic_witness :
  fst (dependencies targeting_world) = fst (dependencies later_world)
  /\ props (snd (dependencies targeting_world)) = props targeting_world
  /\ localEquation (snd (dependencies targeting_world))
     = localEquation targeting_world
  /\ exists fresh,
       regexps (snd (dependencies targeting_world))
       = regexps targeting_world ++ fresh
       /\ length fresh = 2.
Proof.
  apply (dependencies_deterministic targeting_world later_world); reflexivity.
Defined.

End EquationEditorClaims.

Module DraftsApiClaims.
Import Js DraftsApi HostNumbers FrontEndExamples.

(** C4: removing a change from a draft either succeeds or fails with an
    error, never silently: [removeChangeFromDraft] resolves exactly when
    the DELETE request is answered with a success status (2xx), and
    rejects in every other case, with the [Error] built from the status
    text when the backend answers with another status, and with the
    network's own error when there is no answer. *)
Theorem removeChangeFromDraft_ok_or_error
    (fetch : Request -> outcome error Response) (ToString : number -> text)
    (draftId : text) (changeIndex : number) :
  let request := removeChange_request ToString draftId changeIndex in
  let result := removeChangeFromDraft fetch ToString draftId changeIndex in
  (result = Resolved tt
   <-> exists response, fetch request = Resolved response /\ ok response = true)
  /\ (forall e, result = Rejected e
      <-> fetch request = Rejected e
          \/ exists response,
               fetch request = Resolved response /\ ok response = false
               /\ e = Error (str "Failed to remove change: " ++ statusText response))
  /\ (forall response, ok response = true <-> 200 <= status response <= 299).
Proof.
  intros request result. unfold result, removeChangeFromDraft. fold request.
  split; [|split].
  - destruct (fetch request) as [response|e].
    + destruct (ok response) eqn:Hok; simpl.
      * split; [eauto|reflexivity].
      * split; [discriminate|]. intros (r & [= <-] & H). congruence.
    + split; [discriminate|]. intros (r & H & _). discriminate.
  - intros e. destruct (fetch request) as [response|e'].
    + destruct (ok response) eqn:Hok; simpl.
      * split; [discriminate|]. intros [H|(r & [= <-] & H & _)]; [discriminate|congruence].
      * split.
        -- intros [= <-]. right. eauto.
        -- intros [H|(r & [= <-] & _ & ->)]; [discriminate|reflexivity].
    + split.
      * intros [= ->]. now left.
      * intros [[= ->]|(r & H & _)]; [reflexivity|discriminate].
  - intros response. unfold ok.
    rewrite andb_true_iff, !Nat.leb_le. reflexivity.
Qed.

Lemma removeChangeFromDraft_examples :
  removeChangeFromDraft backend ToString (str "draft_20260205_143000") 1%float
    = Resolved tt
  /\ removeChangeFromDraft backend ToString (str "draft_20260205_143000") 5%float
    = Rejected (Error (str "Failed to remove change: Not Found"))
  /\ removeChangeFromDraft offline ToString (str "draft_20260205_143000") 1%float
    = Rejected (HostError (str "TypeError: Failed to fetch")).
Proof.
  pose proof (removeChangeFromDraft_ok_or_error backend ToString
                (str "draft_20260205_143000") 1%float) as (H1 & _ & _).
  pose proof (removeChangeFromDraft_ok_or_error backend ToString
                (str "draft_20260205_143000") 5%float) as (_ & H2 & _).
  pose proof (removeChangeFromDraft_ok_or_error offline ToString
                (str "draft_20260205_143000") 1%float) as (_ & H3 & _).
  split; [|split].
  - apply H1. eexists. split; [vm_compute; reflexivity|reflexivity].
  - apply H2. right. eexists. split; [vm_compute; reflexivity|].
    split; reflexivity.
  - apply H3. left. reflexivity.
Defined.

End DraftsApiClaims.

Module NodeEditClaims.
Import Js EquationEditor NodeEditModal NodeEditExamples FloatFacts.

Lemma trimStart_spec s :
  match trimStart s with
  | c :: _ => is_whitespace c = false
  | [] => blank s
  end.
Proof.
  induction s as [|c s IH]; simpl; [constructor|].
  destruct (is_whitespace c) eqn:E; [|exact E].
  destruct (trimStart s); [|exact IH]. now constructor.
Qed.

Lemma trimStart_blank s : blank s -> trimStart s = [].
Proof. induction 1 as [|c s Hc _ IH]; simpl; [reflexivity|]. now rewrite Hc. Qed.

(** [!name.trim()] holds exactly for blank names. *)
Lemma trim_blank s : trim s = [] <-> blank s.
Proof.
  unfold trim, trimEnd. split.
  - intros H. apply (f_equal (@rev _)) in H. rewrite rev_involutive in H.
    simpl in H.
    pose proof (trimStart_spec (rev (trimStart s))) as H1. rewrite H in H1.
    unfold blank in H1. apply Forall_rev in H1. rewrite rev_involutive in H1.
    pose proof (trimStart_spec s) as H2.
    destruct (trimStart s) as [|c r]; [exact H2|].
    inversion H1; congruence.
  - intros H. rewrite (trimStart_blank s H). reflexivity.
Qed.

Lemma newErrors_nil st :
  newErrors st = []
  <-> ~ blank (name st) /\ lt (initial st) 0 = false /\ gt (initial st) 1 = false.
Proof.
  unfold newErrors. rewrite <- trim_blank.
  destruct (trim (name st)) as [|c r]; simpl.
  - split; [discriminate|]. intros [H _]. now destruct H.
  - destruct (lt (initial st) 0), (gt (initial st) 1); simpl;
      (split; [try discriminate; intros _; repeat split; discriminate
              |intros (_ & ? & ?); try discriminate; reflexivity]).
Qed.

Lemma newErrors_messages st :
  (blank (name st) -> In (str "Name is required") (newErrors st))
  /\ (lt (initial st) 0 = true \/ gt (initial st) 1 = true ->
      In (str "Initial value must be between 0 and 1") (newErrors st)).
Proof.
  unfold newErrors. split.
  - intros H. apply trim_blank in H. rewrite H. now left.
  - intros H. apply in_or_app. right.
    destruct H as [-> | ->]; [now left|].
    rewrite orb_true_r. now left.
Qed.

(** C7: a save with a blank name or with an initial value below 0 or
    above 1 is rejected: the validation errors are shown (the message on
    the name for a blank name, the message on the bounds for a value out
    of them) and [onSave] is not called (nor is the modal closed); a save
    with a non-blank name and an initial value between 0 and 1 calls
    [onSave] once, with the entered values, and closes the modal. *)
Theorem handleSave_enforces_bounds (nodeId : text) (st : State) :
  (blank (name st) \/ lt (initial st) 0 = true \/ gt (initial st) 1 = true ->
     snd (handleSave nodeId st) = []
     /\ errors (fst (handleSave nodeId st)) <> []
     /\ (blank (name st) ->
         In (str "Name is required") (errors (fst (handleSave nodeId st))))
     /\ (lt (initial st) 0 = true \/ gt (initial st) 1 = true ->
         In (str "Initial value must be between 0 and 1")
            (errors (fst (handleSave nodeId st))))
     /\ validating (fst (handleSave nodeId st)) = false)
  /\ (~ blank (name st) ->
      PrimFloat.leb 0 (initial st) = true ->
      PrimFloat.leb (initial st) 1 = true ->
      snd (handleSave nodeId st)
      = [onSave nodeId
           {| label := name st;
              upd_description := description st;
              business_meaning := businessMeaning st;
              upd_initial := initial st;
              upd_category := category st |}
           {| target := targetDeps st; derivative := derivativeDeps st |};
         onClose]
      /\ errors (fst (handleSave nodeId st)) = []
      /\ validating (fst (handleSave nodeId st)) = false).
Proof.
  unfold handleSave.
  change (newErrors (setErrors [] (setValidating true st))) with (newErrors st).
  pose proof (newErrors_messages st) as [Hname Hbounds].
  split.
  - intros H. destruct (newErrors st) as [|e es] eqn:E.
    + apply newErrors_nil in E as (Hn & Hlo & Hhi).
      destruct H as [H|[H|H]]; [now destruct Hn|congruence|congruence].
    + simpl. repeat split; [discriminate|exact Hname|exact Hbounds].
  - intros Hn Hlo Hhi.
    assert (E : newErrors st = []).
    { apply newErrors_nil. repeat split; [exact Hn| |].
      - now apply leb_not_gt.
      - unfold gt. now apply leb_not_gt. }
    rewrite E. simpl. repeat split.
Qed.

Lemma handleSave_enforces_bounds_witness :
  (snd (handleSave (str "T") (form (str "Targeting") 1.5%float)) = []
   /\ In (str "Initial value must be between 0 and 1")
         (errors (fst (handleSave (str "T") (form (str "Targeting") 1.5%float)))))
  /\ (snd (handleSave (str "T") (form (str "  ") 0.5%float)) = []
      /\ In (str "Name is required")
            (errors (fst (handleSave (str "T") (form (str "  ") 0.5%float)))))
  /\ snd (handleSave (str "T") (form (str "Targeting") 0.5%float))
     = [onSave (str "T")
          {| label := str "Targeting";
             upd_description := str "Accuracy of targeting";
             business_meaning := str "How accurate are our AI targeting systems?";
             upd_initial := 0.5%float;
             upd_category := str "capability" |}
          {| target := no_dependencies; derivative := no_dependencies |};
        onClose].
Proof.
  assert (Hhigh : gt (initial (form (str "Targeting") 1.5%float)) 1 = true)
    by reflexivity.
  assert (Hblank : blank (name (form (str "  ") 0.5%float)))
    by (simpl; repeat constructor).
  destruct (proj1 (handleSave_enforces_bounds (str "T") (form (str "Targeting") 1.5%float))
              (or_intror (or_intror Hhigh))) as (H1 & _ & _ & H2 & _).
  destruct (proj1 (handleSave_enforces_bounds (str "T") (form (str "  ") 0.5%float))
              (or_introl Hblank)) as (H3 & _ & H4 & _).
  split; [split; [exact H1|exact (H2 (or_intror Hhigh))]|].
  split; [split; [exact H3|exact (H4 Hblank)]|].
  apply (proj2 (handleSave_enforces_bounds (str "T") (form (str "Targeting") 0.5%float))).
  - intros H. inversion H as [|? ? Hc _]. vm_compute in Hc. discriminate Hc.
  - reflexivity.
  - reflexivity.
Defined.

(** The two comparisons are false on NaN (what [parseFloat] makes of an
    emptied field), so such a value passes the check and is saved. *)
Example handleSave_lets_NaN_through :
  snd (handleSave (str "T") (form (str "Targeting") nan))
  = [onSave (str "T")
       {| label := str "Targeting";
          upd_description := str "Accuracy of targeting";
          business_meaning := str "How accurate are our AI targeting systems?";
          upd_initial := nan;
          upd_category := str "capability" |}
       {| target := no_dependencies; derivative := no_dependencies |};
     onClose].
Proof. reflexivity. Qed.

End NodeEditClaims.

Module GraphEditorClaims.
Import Js DraftsApi GraphEditor FrontEndExamples GraphEditorExamples.

(** C8: while no draft is active, [addChange] only starts a draft: the one
    request it sends creates the draft and does not carry the change, the
    change is appended neither to the draft state nor to the undo stack,
    and nothing is reported about it; when the draft is created, the draft
    state is the new draft with no change in it and the console is left
    as it was; when the creation fails, only that failure is logged. *)
Theorem addChange_without_draft_drops_change
    (fetch : Request -> outcome error Response)
    (change : PatchChange) (w : world) :
  draft (draftState w) = None ->
  let w' := addChange fetch change w in
  let creation := createDraft_request (Some session_description) None in
  sent w' = sent w ++ [creation]
  /\ ~ carries change creation
  /\ undoStack w' = undoStack w
  /\ redoStack w' = redoStack w
  /\ ((exists d,
         createDraft fetch (Some session_description) None = Resolved d
         /\ draftState w' = {| active := true; draft := Some d; changes := [] |}
         /\ console_errors w' = console_errors w)
      \/ (exists e,
            createDraft fetch (Some session_description) None = Rejected e
            /\ draftState w' = draftState w
            /\ console_errors w'
               = console_errors w ++ [(str "Failed to create draft:", e)])).
Proof.
  intros Hnone w' creation. unfold w', addChange. rewrite Hnone.
  unfold startDraft.
  destruct (createDraft fetch (Some session_description) None) as [d|e]; simpl;
    (repeat split; [discriminate|]); [left|right]; eauto.
Qed.

Lemma first_edit_is_lost :
  let w' := addChange backend reposition fresh_editor in
  draftState w' = {| active := true; draft := Some session_draft; changes := [] |}
  /\ undoStack w' = []
  /\ console_errors w' = []
  /\ Forall (fun r => ~ carries reposition r) (sent w').
Proof.
  pose proof (addChange_without_draft_drops_change backend reposition
                fresh_editor eq_refl) as (Hs & Hc & Hu & _ & Hd).
  cbv zeta in *.
  split; [|split; [|split]].
  - destruct Hd as [(d & Hd & -> & _)|(e & He & _)].
    + vm_compute in Hd. now injection Hd as <-.
    + vm_compute in He. discriminate He.
  - exact Hu.
  - destruct Hd as [(d & _ & _ & ->)|(e & He & _)]; [reflexivity|].
    vm_compute in He. discriminate He.
  - rewrite Hs. simpl. constructor; [exact Hc|constructor].
Defined.

End GraphEditorClaims.

Module InsightClaims.
Import Js InsightEngine HostNumbers InsightExamples InsightRules.

Lemma state_at_present result key i xs :
  states result !! key = Some xs ->
  state_at result key i = Resolved (at_index xs i).
Proof. unfold state_at. now intros ->. Qed.

(** C9 (as stated) fails: the result of a model without the state X is a
    simulation result like any other, and for it [generateInsights]
    throws instead of returning a list. *)
Lemma generateInsights_throws_without_X :
  generateInsights toFixed (Some run_without_X) (str "baseline")
    = Rejected (TypeError (str "X"))
  /\ ~ always_returns_at_most_three toFixed.
Proof.
  assert (E : generateInsights toFixed (Some run_without_X) (str "baseline")
              = Rejected (TypeError (str "X"))) by (vm_compute; reflexivity).
  split; [exact E|].
  intros H. destruct (H (Some run_without_X) (str "baseline")) as (l & Hl & _).
  rewrite E in Hl. discriminate Hl.
Qed.

(** With the eight series there, [generateInsights] returns the first
    three of the insights its rules push. *)
Lemma generateInsights_computed (toFixed : number -> nat -> text)
    (scenarioName : text) (result : SimulationResult)
    (xX xL xV xT xS xD xE xR : list number) :
  states result !! str "X" = Some xX -> states result !! str "L" = Some xL ->
  states result !! str "V" = Some xV -> states result !! str "T" = Some xT ->
  states result !! str "S" = Some xS -> states result !! str "D" = Some xD ->
  states result !! str "E" = Some xE -> states result !! str "R" = Some xR ->
  generateInsights toFixed (Some result) scenarioName
  = Resolved (firstn 3 (computed toFixed (length (t result))
                          xX xL xV xT xS xD xE xR)).
Proof.
  intros HX HL HV HT HS HD HE HR.
  unfold generateInsights.
  rewrite !(state_at_present _ _ _ _ HX), !(state_at_present _ _ _ _ HL),
    !(state_at_present _ _ _ _ HV), !(state_at_present _ _ _ _ HT),
    !(state_at_present _ _ _ _ HS), !(state_at_present _ _ _ _ HD),
    !(state_at_present _ _ _ _ HE), !(state_at_present _ _ _ _ HR).
  unfold computed, pushed. cbv zeta.
  repeat match goal with
         | |- context [if ?c then _ else _] => destruct c
         end; reflexivity.
Qed.

(** C9 (amended): for a null result [generateInsights] returns the empty
    list; for a result that holds the eight state series X, L, V, T, S, D,
    E and R it returns the first three of the insights it computed, that
    is, of the insights of its six rules whose condition holds, in the
    order of the rules, hence a list of at most three insights; for a
    result that lacks one of these series it throws a TypeError for a
    series that is missing. *)
Theorem generateInsights_at_most_three
    (toFixed : number -> nat -> text) (scenarioName : text) :
  generateInsights toFixed None scenarioName = Resolved []
  /\ (forall result xX xL xV xT xS xD xE xR,
        states result !! str "X" = Some xX ->
        states result !! str "L" = Some xL ->
        states result !! str "V" = Some xV ->
        states result !! str "T" = Some xT ->
        states result !! str "S" = Some xS ->
        states result !! str "D" = Some xD ->
        states result !! str "E" = Some xE ->
        states result !! str "R" = Some xR ->
        let all := computed toFixed (length (t result))
                     xX xL xV xT xS xD xE xR in
        generateInsights toFixed (Some result) scenarioName
          = Resolved (firstn 3 all)
        /\ length (firstn 3 all) <= 3
        /\ (length all <= 3 -> firstn 3 all = all))
  /\ (forall result,
        (forall key, In key required_series -> is_Some (states result !! key)) ->
        exists insights,
          generateInsights toFixed (Some result) scenarioName = Resolved insights
          /\ length insights <= 3)
  /\ (forall result key,
        In key required_series -> states result !! key = None ->
        exists missing,
          In missing required_series /\ states result !! missing = None
          /\ generateInsights toFixed (Some result) scenarioName
             = Rejected (TypeError missing)).
Proof.
  split; [reflexivity|]. split; [|split].
  - intros result xX xL xV xT xS xD xE xR HX HL HV HT HS HD HE HR all.
    split; [now apply generateInsights_computed|].
    split; [rewrite length_firstn; lia|].
    intros Hlen. now apply firstn_all2.
  - intros result Hall.
    assert (Hk : forall k, In k required_series ->
                 exists xs, states result !! k = Some xs).
    { intros k Hin. destruct (Hall k Hin) as [xs Hxs]. eauto. }
    destruct (Hk (str "X")) as [xX HX]; [vm_compute; tauto|].
    destruct (Hk (str "L")) as [xL HL]; [vm_compute; tauto|].
    destruct (Hk (str "V")) as [xV HV]; [vm_compute; tauto|].
    destruct (Hk (str "T")) as [xT HT]; [vm_compute; tauto|].
    destruct (Hk (str "S")) as [xS HS]; [vm_compute; tauto|].
    destruct (Hk (str "D")) as [xD HD]; [vm_compute; tauto|].
    destruct (Hk (str "E")) as [xE HE]; [vm_compute; tauto|].
    destruct (Hk (str "R")) as [xR HR]; [vm_compute; tauto|].
    rewrite (generateInsights_computed toFixed scenarioName result
               xX xL xV xT xS xD xE xR) by assumption.
    eexists. split; [reflexivity|]. rewrite length_firstn. lia.
  - intros result key Hin Hmiss. unfold generateInsights, state_at.
    assert (HinX : In (str "X") required_series) by (vm_compute; tauto).
    assert (HinL : In (str "L") required_series) by (vm_compute; tauto).
    assert (HinV : In (str "V") required_series) by (vm_compute; tauto).
    assert (HinT : In (str "T") required_series) by (vm_compute; tauto).
    assert (HinS : In (str "S") required_series) by (vm_compute; tauto).
    assert (HinD : In (str "D") required_series) by (vm_compute; tauto).
    assert (HinE : In (str "E") required_series) by (vm_compute; tauto).
    assert (HinR : In (str "R") required_series) by (vm_compute; tauto).
    destruct (states result !! str "X") as [xX|] eqn:HX; [|now exists (str "X")].
    destruct (states result !! str "L") as [xL|] eqn:HL; [|now exists (str "L")].
    destruct (states result !! str "V") as [xV|] eqn:HV; [|now exists (str "V")].
    destruct (states result !! str "T") as [xT|] eqn:HT; [|now exists (str "T")].
    destruct (states result !! str "S") as [xS|] eqn:HS; [|now exists (str "S")].
    destruct (states result !! str "D") as [xD|] eqn:HD; [|now exists (str "D")].
    destruct (states result !! str "E") as [xE|] eqn:HE; [|now exists (str "E")].
    destruct (states result !! str "R") as [xR|] eqn:HR; [|now exists (str "R")].
    exfalso. unfold required_series in Hin. cbn [map In] in Hin.
    repeat destruct Hin as [<-|Hin]; try congruence.
Qed.

Lemma generateInsights_at_most_three_witness :
  (generateInsights toFixed (Some risky_run) (str "baseline")
   = Resolved
       (firstn 3
          (computed toFixed 3 [0.1; 0.5; 0.8]%float [0.8; 0.6; 0.4]%float
             [0.3; 0.3; 0.3]%float [0.5; 0.6; 0.7]%float [0.5; 0.5; 0.5]%float
             [0.5; 0.5; 0.5]%float [0.5; 0.5; 0.5]%float [0.6; 0.4; 0.2]%float))
   /\ length (computed toFixed 3 [0.1; 0.5; 0.8]%float [0.8; 0.6; 0.4]%float
                [0.3; 0.3; 0.3]%float [0.5; 0.6; 0.7]%float [0.5; 0.5; 0.5]%float
                [0.5; 0.5; 0.5]%float [0.5; 0.5; 0.5]%float [0.6; 0.4; 0.2]%float)
      = 4)
  /\ exists missing,
       In missing required_series /\ states run_without_X !! missing = None
       /\ generateInsights toFixed (Some run_without_X) (str "baseline")
          = Rejected (TypeError missing).
Proof.
  destruct (generateInsights_at_most_three toFixed (str "baseline"))
    as (_ & Hok & _ & Hmiss).
  split; [split|].
  - apply (Hok risky_run); vm_compute; reflexivity.
  - vm_compute. reflexivity.
  - apply (Hmiss run_without_X (str "X")); [vm_compute; tauto|].
    vm_compute. reflexivity.
Defined.

Example risky_run_insights :
  option_map (map (fun i => string_of_list_ascii (title i)))
    (match generateInsights toFixed (Some risky_run) (str "baseline") with
     | Resolved l => Some l
     | Rejected _ => None
     end)
  = Some ["High Incident Risk"; "Trust Erosion"; "V&V Investment Gap"]%string.
Proof. vm_compute. reflexivity. Qed.

End InsightClaims.

Module AppClaims.
Import Js App AppExamples.

(** The loop that collects the defaults keeps every key and reads the
    chosen field. *)
Lemma collect_lookup {A} (f : A -> number) (m : gmap text A) (k : text) :
  collect f m !! k = f <$> (m !! k).
Proof.
  unfold collect.
  apply (map_fold_weak_ind
           (fun (d : gmap text number) (m : gmap text A) => d !! k = f <$> (m !! k))).
  - now rewrite !lookup_empty.
  - intros i x m' r Hi IH. rewrite !lookup_insert.
    destruct (decide (i = k)); [reflexivity|exact IH].
Qed.

Lemma spread2_lookup (defaults overrides : gmap text number) (k : text) :
  spread2 defaults overrides !! k
  = match overrides !! k with
    | Some v => Some v
    | None => defaults !! k
    end.
Proof.
  unfold spread2. rewrite lookup_union.
  now destruct (overrides !! k), (defaults !! k).
Qed.

(** C10: selecting a scenario resolves every binding by override first,
    default second: each parameter gets the scenario's override when there
    is one and the configured value otherwise, each state gets the
    scenario's initial override when there is one and the configured
    initial value otherwise (a key the configuration does not have gets a
    value only from an override). *)
Theorem loadScenarioValues_override_then_default
    (scenario : Scenario) (cfg : FullConfig) (k : text) :
  paramValues (loadScenarioValues scenario cfg) !! k
    = match param_overrides scenario !! k with
      | Some v => Some v
      | None => value <$> (parameters cfg !! k)
      end
  /\ initialValues (loadScenarioValues scenario cfg) !! k
    = match initial_overrides scenario !! k with
      | Some v => Some v
      | None => initial <$> (states cfg !! k)
      end.
Proof.
  unfold loadScenarioValues. simpl.
  now rewrite !spread2_lookup, !collect_lookup.
Qed.

Example compliance_first_values :
  paramValues (loadScenarioValues baseline config) !! str "kT" = Some 0.9%float
  /\ paramValues (loadScenarioValues baseline config) !! str "kS" = Some 0.2%float
  /\ initialValues (loadScenarioValues baseline config) !! str "S" = Some 0.1%float
  /\ initialValues (loadScenarioValues baseline config) !! str "T" = Some 0.3%float
  /\ initialValues (loadScenarioValues baseline config) !! str "Q" = None.
Proof.
  repeat split.
Qed.

End AppClaims.

Module DslClaims.
Import Js EquationDsl CoreExamples FloatFacts.

(** What [min] of [max] does to a number and an interval [lo <= hi]: a
    number inside the interval is kept, one below it becomes [lo], one
    above it becomes [hi]. *)
Lemma min_max_inside (x lo hi : number) :
  PrimFloat.leb lo x = true -> PrimFloat.leb x hi = true ->
  fmin (fmax x lo) hi = x.
Proof.
  intros Hlo Hhi. unfold fmin, fmax.
  now rewrite (lt_irrefl_of_leb lo x Hlo), (lt_irrefl_of_leb x hi Hhi).
Qed.

Lemma min_max_below (x lo hi : number) :
  lt x lo = true -> PrimFloat.leb lo hi = true ->
  fmin (fmax x lo) hi = lo.
Proof.
  intros Hx Hlohi. unfold fmin, fmax.
  now rewrite Hx, (lt_irrefl_of_leb lo hi Hlohi).
Qed.

Lemma min_max_above (x lo hi : number) :
  PrimFloat.leb lo x = true -> lt hi x = true ->
  fmin (fmax x lo) hi = hi.
Proof.
  intros Hlo Hx. unfold fmin, fmax.
  now rewrite (lt_irrefl_of_leb lo x Hlo), Hx.
Qed.

(** C6: the evaluator's [clamp] is [min] of [max]: a call
    [clamp(a, lo, hi)] evaluates, errors included, to what
    [min(max(a, lo), hi)] evaluates to; on numbers it is
    [min(max(x, lo), hi)], which keeps a number of the interval, raises a
    smaller one to [lo] and lowers a larger one to [hi]; and
    [clamp(x, 0, 1)] evaluates to 0, 0, 0.5, 1 and 1 for x = -1, 0, 0.5, 1
    and 2. *)
Theorem clamp_is_min_of_max
    (libm_exp libm_log : number -> number)
    (libm_pow : number -> number -> number) :
  let eval := evaluate libm_exp libm_log libm_pow in
  (forall (a lo hi : expr) (sb pb : gmap text number),
      eval (Call (str "clamp") [a; lo; hi]) sb pb
      = eval (Call (str "min") [Call (str "max") [a; lo]; hi]) sb pb)
  /\ (forall x lo hi : number,
        apply_function libm_exp libm_log (str "clamp") [x; lo; hi]
        = inr (fmin (fmax x lo) hi))
  /\ (forall x lo hi : number,
        PrimFloat.leb lo hi = true ->
        (PrimFloat.leb lo x = true -> PrimFloat.leb x hi = true ->
         apply_function libm_exp libm_log (str "clamp") [x; lo; hi] = inr x)
        /\ (lt x lo = true ->
            apply_function libm_exp libm_log (str "clamp") [x; lo; hi] = inr lo)
        /\ (PrimFloat.leb lo x = true -> lt hi x = true ->
            apply_function libm_exp libm_log (str "clamp") [x; lo; hi] = inr hi))
  /\ eval clamp_x_0_1 (bind_x (-1)%float) ∅ = inr 0%float
  /\ eval clamp_x_0_1 (bind_x 0%float) ∅ = inr 0%float
  /\ eval clamp_x_0_1 (bind_x 0.5%float) ∅ = inr 0.5%float
  /\ eval clamp_x_0_1 (bind_x 1%float) ∅ = inr 1%float
  /\ eval clamp_x_0_1 (bind_x 2%float) ∅ = inr 1%float.
Proof.
  intros eval. split; [|split; [reflexivity|split]].
  - intros a lo hi sb pb. unfold eval. cbn [evaluate map sequence].
    destruct (evaluate _ _ _ a sb pb) as [e|va]; [reflexivity|].
    destruct (evaluate _ _ _ lo sb pb) as [e|vlo]; [reflexivity|].
    destruct (evaluate _ _ _ hi sb pb) as [e|vhi]; reflexivity.
  - intros x lo hi Hlohi.
    change (apply_function libm_exp libm_log (str "clamp") [x; lo; hi])
      with (@inr EvaluationError number (fmin (fmax x lo) hi)).
    split; [|split].
    + intros Hlo Hhi. now rewrite min_max_inside.
    + intros Hx. now rewrite min_max_below.
    + intros Hlo Hx. now rewrite min_max_above.
  - repeat split; vm_compute; reflexivity.
Qed.

Lemma clamp_is_min_of_max_witness :
  apply_function (fun x => x) (fun x => x) (str "clamp") [0.25; 0; 1]%float
    = inr 0.25%float
  /\ apply_function (fun x => x) (fun x => x) (str "clamp") [(-3); 0; 1]%float
    = inr 0%float
  /\ apply_function (fun x => x) (fun x => x) (str "clamp") [7; 0; 1]%float
    = inr 1%float.
Proof.
  destruct (clamp_is_min_of_max (fun x => x) (fun x => x) (fun x _ => x))
    as (_ & _ & H & _).
  split; [|split].
  - apply (H 0.25 0 1)%float; reflexivity.
  - apply (H (-3) 0 1)%float; reflexivity.
  - apply (H 7 0 1)%float; reflexivity.
Defined.

End DslClaims.

Module MergeClaims.
Import Js EquationDsl PatchSystem MergeSpec CoreExamples.






(** *** Documents and what an operation leaves of them *)



(** *** Lists and maps *)











(** *** The checks of the validator, entity by entity *)


(** *** More known symbols never make an expression invalid *)



Section Merge.
Variable parse : text -> ValidationError + expr.

























(** *** The documents an operation can leave *)















End Merge.


Example effective_model_after_merge :
  effective_model
    (merge parse_examples base (draft_of [add_M; link_T_Q; link_T_M]) preview)
  = Some with_M_linked.
Proof. vm_compute. reflexivity. Qed.

Example skipped_link_reason :
  skipped (merge parse_examples base (draft_of [add_M; link_T_Q; link_T_M]) preview)
  = [(1, UnknownState (str "Q"))].
Proof. vm_compute. reflexivity. Qed.

End MergeClaims.

(** ** The quick-insert buttons of the equation editor *)

Module InsertFacts.
Import Js Regex EquationEditor EquationEditorSpec EquationEditorDenotation
  EquationEditorInsert EquationEditorInsertExamples.

Lemma length_slices s n :
  n <= length s -> length (slice_to s n) = n /\ length (slice_from s n) = length s - n.
Proof.
  intros H. unfold slice_to, slice_from.
  rewrite length_firstn, length_skipn. lia.
Qed.

Lemma handle_keeps_cursor_inside a st :
  cursor_inside st -> well_formed a st -> cursor_inside (handle a st).
Proof.
  unfold cursor_inside. intros Hc Hw.
  destruct (length_slices _ _ Hc) as [Hb Ha].
  destruct a; simpl in *; auto;
    rewrite ?length_app, ?Hb, ?Ha; simpl; rewrite ?length_app; simpl; lia.
Qed.

(** X1: a parameter picked from the Parameter menu is always listed among
    the dependencies of the new text, wherever the cursor was, when its
    key is an identifier. *)
Theorem inserted_parameter_is_listed (p : EquationEditorProps) (st : State)
    (paramKey : text) :
  identifier paramKey ->
  In paramKey (parameters (dependencies_of p (insertParameter paramKey st))).
Proof.
  intros Hid. unfold dependencies_of, extract.
  rewrite EquationEditorClaims.dependencies_value. simpl.
  apply ParamFacts.parameters_of_complete; [exact Hid|].
  exists (slice_to (localEquation st) (cursorPosition st)), squote, squote,
    (slice_from (localEquation st) (cursorPosition st)).
  destruct Hid as [Hne Hw]. repeat split; auto.
  - rewrite <- app_assoc. reflexivity.
  - eapply Forall_impl; [exact Hw|]. intros c Hc.
    destruct c as [[] [] [] [] [] [] [] []]; try reflexivity; discriminate Hc.
Qed.

Lemma inserted_parameter_is_listed_witness :
  In (str "kT")
     (parameters (dependencies_of three_stocks (insertParameter (str "kT") typing))).
Proof.
  apply (inserted_parameter_is_listed three_stocks typing (str "kT")).
  split; [discriminate|]. repeat constructor.
Defined.

(** X2: a stock picked from the Stock menu is listed among the
    dependencies of the new text when the known stocks are identifiers
    and no word character touches the cursor on either side. *)
Theorem inserted_stock_is_listed (p : EquationEditorProps) (st : State)
    (stock : text) :
  Forall identifier (availableStocks p) ->
  In stock (availableStocks p) ->
  ends_with_word (slice_to (localEquation st) (cursorPosition st)) = false ->
  starts_with_word (slice_from (localEquation st) (cursorPosition st)) = false ->
  In stock (stocks (dependencies_of p (insertStock stock st))).
Proof.
  intros Hids Hin Hb Ha. unfold dependencies_of, extract.
  rewrite EquationEditorClaims.dependencies_value. simpl.
  apply StockFacts.stocks_of_exact; auto.
  - intros E. rewrite E in Hin. destruct Hin.
  - split; [exact Hin|]. eexists _, _. split; [reflexivity|]. split; assumption.
Qed.

Lemma inserted_stock_is_listed_witness :
  In (str "S")
     (stocks (dependencies_of three_stocks (insertStock (str "S") typing))).
Proof.
  apply (inserted_stock_is_listed three_stocks typing (str "S")).
  - simpl. repeat constructor; discriminate.
  - simpl. auto.
  - reflexivity.
  - reflexivity.
Defined.

(** X3: in every state the user can reach from the first render, the
    cursor lies within the text: each insert button moves it by the
    length of what it inserts. *)
Theorem cursor_stays_inside (equation : text) (st : State) :
  reachable equation st ->
  cursorPosition st <= length (localEquation st).
Proof.
  induction 1 as [|a st _ IH Hw].
  - simpl. lia.
  - now apply handle_keeps_cursor_inside.
Qed.

Lemma cursor_stays_inside_witness :
  cursorPosition (handle (PickFunction (str "clamp")) (mount (str "0.2 * R")))
  <= length (localEquation
               (handle (PickFunction (str "clamp")) (mount (str "0.2 * R")))).
Proof.
  apply (cursor_stays_inside (str "0.2 * R")).
  apply reach_step; [apply reach_mount|exact I].
Defined.

(** X4: with the cursor inside the text, a function button followed by a
    stock pick puts the stock between the parentheses of the call, and
    leaves the cursor right after the stock, before the closing
    parenthesis. *)
Theorem function_then_stock (st : State) (func stock : text) :
  cursorPosition st <= length (localEquation st) ->
  let st' := insertStock stock (insertFunction func st) in
  localEquation st'
  = slice_to (localEquation st) (cursorPosition st)
    ++ func ++ str "(" ++ stock ++ str ")"
    ++ slice_from (localEquation st) (cursorPosition st)
  /\ slice_to (localEquation st') (cursorPosition st')
     = slice_to (localEquation st) (cursorPosition st)
       ++ func ++ str "(" ++ stock
  /\ slice_from (localEquation st') (cursorPosition st')
     = str ")" ++ slice_from (localEquation st) (cursorPosition st).
Proof.
  intros Hc st'. unfold st', insertStock, insertFunction. cbn [localEquation cursorPosition].
  set (b := slice_to (localEquation st) (cursorPosition st)).
  set (a := slice_from (localEquation st) (cursorPosition st)).
  assert (Hb : length b = cursorPosition st) by (apply length_slices; exact Hc).
  assert (E1 : slice_to (b ++ (func ++ str "()") ++ a)
                 (cursorPosition st + length func + 1)
               = b ++ func ++ str "(").
  { unfold slice_to. replace (b ++ (func ++ str "()") ++ a)
      with ((b ++ func ++ str "(") ++ str ")" ++ a)
      by (rewrite <- !app_assoc; reflexivity).
    rewrite firstn_app, firstn_all2 by (rewrite !length_app; simpl; lia).
    rewrite !length_app. simpl.
    replace (cursorPosition st + length func + 1 - (length b + (length func + 1)))
      with 0 by lia.
    simpl. now rewrite app_nil_r. }
  assert (E2 : slice_from (b ++ (func ++ str "()") ++ a)
                 (cursorPosition st + length func + 1)
               = str ")" ++ a).
  { unfold slice_from. replace (b ++ (func ++ str "()") ++ a)
      with ((b ++ func ++ str "(") ++ str ")" ++ a)
      by (rewrite <- !app_assoc; reflexivity).
    rewrite skipn_app, skipn_all2 by (rewrite !length_app; simpl; lia).
    rewrite !length_app. simpl.
    replace (cursorPosition st + length func + 1 - (length b + (length func + 1)))
      with 0 by lia.
    reflexivity. }
  rewrite E1, E2.
  assert (El : length (b ++ func ++ str "(") = cursorPosition st + length func + 1)
    by (rewrite !length_app; simpl; lia).
  split; [now rewrite <- !app_assoc|].
  split.
  - unfold slice_to.
    replace ((b ++ func ++ str "(") ++ stock ++ str ")" ++ a)
      with (((b ++ func ++ str "(") ++ stock) ++ str ")" ++ a)
      by (rewrite <- !app_assoc; reflexivity).
    rewrite firstn_app, firstn_all2 by (rewrite length_app; lia).
    rewrite length_app, El, Nat.sub_diag. simpl.
    now rewrite app_nil_r, <- !app_assoc.
  - unfold slice_from.
    replace ((b ++ func ++ str "(") ++ stock ++ str ")" ++ a)
      with (((b ++ func ++ str "(") ++ stock) ++ str ")" ++ a)
      by (rewrite <- !app_assoc; reflexivity).
    rewrite skipn_app, skipn_all2 by (rewrite length_app; lia).
    rewrite length_app, El, Nat.sub_diag. reflexivity.
Qed.

Lemma function_then_stock_witness :
  localEquation (insertStock (str "S") (insertFunction (str "max") typing))
  = str "0.2 * max(S)".
Proof.
  destruct (function_then_stock typing (str "max") (str "S")) as [E _].
  - simpl. lia.
  - rewrite E. reflexivity.
Defined.

End InsertFacts.

(** ** The stock pattern built from an empty list of stocks *)

Module EmptyStockList.
Import Js Regex EquationEditor EquationEditorSpec EquationEditorDenotation
  RegexFacts LoopFacts.

Lemma empty_pattern_here c :
  match_here (stockPattern []) c
  = if at_word_boundary c
    then Some (MatchResult (position c) (position c) [] [(1, [])])
    else None.
Proof.
  unfold match_here, stockPattern. cbn.
  destruct (at_word_boundary c); [|reflexivity].
  unfold consumed. now rewrite Nat.sub_diag.
Qed.

Lemma boundary_has_word s k :
  at_word_boundary (cursor_at s k) = true -> existsb is_word_char s = true.
Proof.
  unfold at_word_boundary, word_before, word_after, cursor_at. cbn.
  intros H. apply existsb_exists.
  destruct (rev (firstn k s)) as [|x b] eqn:Eb.
  - destruct (skipn k s) as [|y a] eqn:Ea; [discriminate|].
    exists y. split; [|now destruct (is_word_char y)].
    rewrite <- (firstn_skipn k s), Ea. apply in_or_app. right. now left.
  - destruct (is_word_char x) eqn:Ex.
    + exists x. split; [|exact Ex].
      rewrite <- (firstn_skipn k s). apply in_or_app. left.
      apply in_rev. rewrite Eb. now left.
    + destruct (skipn k s) as [|y a] eqn:Ea; [discriminate|].
      exists y. split; [|now destruct (is_word_char y)].
      rewrite <- (firstn_skipn k s), Ea. apply in_or_app. right. now left.
Qed.

Lemma word_has_boundary s :
  existsb is_word_char s = true ->
  exists k, k <= length s /\ at_word_boundary (cursor_at s k) = true.
Proof.
  induction s as [|c s IH] using rev_ind; [discriminate|].
  rewrite existsb_app. simpl. rewrite orb_false_r.
  destruct (is_word_char c) eqn:Ec.
  - intros _. exists (S (length s)). split; [rewrite length_app; simpl; lia|].
    unfold at_word_boundary, word_before, word_after, cursor_at. cbn [before after].
    replace (S (length s)) with (length (s ++ [c])) by (rewrite length_app; simpl; lia).
    rewrite firstn_all, skipn_all, rev_app_distr. simpl. now rewrite Ec.
  - rewrite orb_false_r. intros H. destruct (IH H) as (k & Hk & Hb).
    destruct (Nat.eq_dec k (length s)) as [->|Hne].
    + exists (length s). split; [rewrite length_app; simpl; lia|].
      revert Hb. unfold at_word_boundary, word_before, word_after, cursor_at.
      cbn [before after].
      rewrite firstn_app, Nat.sub_diag, firstn_all, skipn_all. simpl.
      rewrite app_nil_r, skipn_app, skipn_all, Nat.sub_diag. simpl.
      rewrite Ec. now destruct (rev s) as [|x ?]; [|destruct (is_word_char x)].
    + exists k. split; [rewrite length_app; simpl; lia|].
      revert Hb. unfold at_word_boundary, word_before, word_after, cursor_at.
      cbn [before after].
      rewrite firstn_app, skipn_app.
      replace (k - length s) with 0 by lia. simpl. rewrite app_nil_r.
      destruct (skipn k s) as [|y a] eqn:Ea; [|auto].
      apply (f_equal (@length _)) in Ea. rewrite length_skipn in Ea. simpl in Ea. lia.
Qed.

Lemma uniq_from_blank seen ms :
  Forall (fun m => m = []) ms -> In [] seen -> uniq_from seen ms = [].
Proof.
  induction 1 as [|m ms -> _ IH]; intros Hs; simpl; [reflexivity|].
  unfold memb. destruct (in_dec text_eq_dec [] seen); [auto|contradiction].
Qed.

Lemma spread_Set_blank ms :
  ms <> [] -> Forall (fun m : text => m = []) ms -> spread_Set ms = [[]].
Proof.
  intros Hne H. destruct H as [|m ms -> H]; [congruence|].
  unfold spread_Set. simpl. f_equal. apply uniq_from_blank; [exact H|now left].
Qed.

Lemma run_exec_first advance fuel r s i m j :
  builtin_exec r s i = (Some m, j) ->
  exists more, fst (run_exec advance (S fuel) r s i) = m :: more.
Proof.
  intros E. simpl. rewrite E.
  match goal with
  | |- context [run_exec advance fuel r s ?j'] =>
      destruct (run_exec advance fuel r s j') as [more k]
  end.
  now exists more.
Qed.

Lemma stocks_of_nil s :
  stocks_of s [] = if existsb is_word_char s then [[]] else [].
Proof.
  unfold stocks_of.
  set (ms := fst (run_exec true (2 + length s) (stockPattern []) s 0)).
  assert (Hall : Forall (fun m : text => m = []) (map matched ms)).
  { apply List.Forall_forall. intros t Ht. apply in_map_iff in Ht as (m & <- & Hm).
    apply run_exec_sound in Hm as (k & _ & Hm).
    rewrite empty_pattern_here in Hm.
    destruct (at_word_boundary _); [|discriminate]. now injection Hm as <-. }
  destruct (existsb is_word_char s) eqn:Ew.
  - apply spread_Set_blank; [|exact Hall].
    destruct (word_has_boundary s Ew) as (k & Hk & Hb).
    destruct (builtin_exec (stockPattern []) s 0) as [[m|] j] eqn:E.
    + destruct (run_exec_first true (S (length s)) _ _ _ _ _ E) as [more Hm].
      subst ms. change (2 + length s) with (S (S (length s))).
      rewrite Hm. discriminate.
    + pose proof (exec_None _ _ _ _ E k (conj (Nat.le_0_l k) Hk)) as Hn.
      rewrite empty_pattern_here, Hb in Hn. discriminate.
  - destruct ms as [|m ms'] eqn:Ems; [reflexivity|].
    assert (Hm : In m (fst (run_exec true (2 + length s) (stockPattern []) s 0)))
      by (fold ms; rewrite Ems; now left).
    apply run_exec_sound in Hm as (k & _ & Hm).
    rewrite empty_pattern_here in Hm.
    destruct (at_word_boundary (cursor_at s k)) eqn:Hb; [|discriminate].
    apply boundary_has_word in Hb. congruence.
Qed.

(** X5: when the editor is given no stock list (the default of the node
    editor, [availableStocks = []]), no stock is ever detected: for a text
    with a letter, digit or underscore the stocks component is the single
    empty string, and for any other text it is empty. *)
Theorem no_stock_without_stock_list (p : EquationEditorProps) (eq : text) :
  availableStocks p = [] ->
  stocks (extract p eq) = if existsb is_word_char eq then [[]] else [].
Proof.
  intros Hp. unfold extract. rewrite EquationEditorClaims.dependencies_value.
  simpl. rewrite Hp. apply stocks_of_nil.
Qed.

Lemma no_stock_without_stock_list_witness :
  stocks (extract EquationEditorExamples.empty_props
            (str "p['kT'] * (T_target - T)")) = [[]].
Proof.
  rewrite (no_stock_without_stock_list EquationEditorExamples.empty_props);
    reflexivity.
Defined.

End EmptyStockList.

(** ** Trimming and sampling in the timeline chart *)

Module ChartFacts.
Import Js Undefined InsightEngine Chart ChartSpec ChartExamples.

Lemma allStagnant_false cur prev : allStagnant cur prev = false <-> moved cur prev.
Proof.
  unfold allStagnant, moved. split.
  - intros H.
    destruct (forallb _ _) eqn:E in H; [discriminate|].
    apply not_true_iff_false in E.
    assert (Hex : exists kv, In kv (map_to_list cur)
              /\ (if is_t (fst kv) then true
                  else negb (gt (PrimFloat.abs
                                   (ToNumber (snd kv)
                                    - ToNumber (field prev (fst kv)))%float)
                               threshold)) = false).
    { clear H. induction (map_to_list cur) as [|kv l IH]; [now elim E|].
      simpl in E.
      match type of E with
      | (?a && _ <> true) => destruct a eqn:Ea
      end.
      - destruct IH as (kv' & Hin & Hkv'); [exact E|].
        exists kv'. split; [now right|exact Hkv'].
      - exists kv. split; [now left|exact Ea]. }
    destruct Hex as ([key v] & Hin & Hkv). simpl in Hkv.
    exists key, v. unfold is_t in Hkv.
    destruct (text_eq_dec key (str "t")) as [|Hne]; [discriminate|].
    split; [exact Hne|]. split.
    + apply elem_of_map_to_list. now apply list_elem_of_In.
    + now apply negb_false_iff.
  - intros (key & v & Hne & Hk & Hgt).
    apply not_true_iff_false. intros Hall.
    rewrite forallb_forall in Hall.
    specialize (Hall (key, v)). simpl in Hall.
    unfold is_t in Hall. destruct (text_eq_dec key (str "t")); [contradiction|].
    rewrite Hgt in Hall. discriminate Hall.
    apply list_elem_of_In. now apply elem_of_map_to_list.
Qed.

Lemma stagnant_at_false data i : stagnant_at data i = false <-> moved_at data i.
Proof. apply allStagnant_false. Qed.

Lemma stagnant_at_true data i : stagnant_at data i = true <-> ~ moved_at data i.
Proof.
  rewrite <- stagnant_at_false. destruct (stagnant_at data i); split; congruence.
Qed.

(** What the outer loop returns when entered at [i]: either it runs down
    to 10 past stagnant points only, or it stops at the first point, from
    the right, that moved. *)
Lemma scan_spec data i :
  (scan data i = length data
   /\ forall j, 10 <= j <= i -> stagnant_at data j = true)
  \/ (exists i0, 10 <= i0 <= i /\ scan data i = i0 + 5
                 /\ stagnant_at data i0 = false
                 /\ forall j, i0 < j <= i -> stagnant_at data j = true).
Proof.
  induction i as [|i IH].
  - left. split; [reflexivity|]. intros j Hj. lia.
  - cbn [scan]. destruct (10 <=? S i) eqn:Hi.
    + apply Nat.leb_le in Hi. destruct (stagnant_at data (S i)) eqn:Hs.
      * destruct IH as [[E Hall]|(i0 & Hi0 & E & Hm & Hall)].
        -- left. split; [exact E|]. intros j Hj.
           destruct (Nat.eq_dec j (S i)) as [->|]; [exact Hs|]. apply Hall. lia.
        -- right. exists i0. split; [lia|]. split; [exact E|]. split; [exact Hm|].
           intros j Hj. destruct (Nat.eq_dec j (S i)) as [->|]; [exact Hs|].
           apply Hall. lia.
      * right. exists (S i). split; [lia|]. split; [reflexivity|].
        split; [exact Hs|]. intros j Hj. lia.
    + apply Nat.leb_gt in Hi. left. split; [reflexivity|]. intros j Hj. lia.
Qed.

Lemma detectStagnationPoint_bounds data :
  Nat.min 15 (length data) <= detectStagnationPoint data <= length data.
Proof.
  unfold detectStagnationPoint. destruct (length data <? 10) eqn:Hn.
  - apply Nat.ltb_lt in Hn. lia.
  - apply Nat.ltb_ge in Hn.
    destruct (scan_spec data (length data - 1))
      as [[E _]|(i0 & Hi0 & E & _)]; rewrite E; lia.
Qed.

Lemma length_points round1 result ts : length (points round1 result ts) = length ts.
Proof. unfold points. apply length_imap. Qed.

(** X7: when [detectStagnationPoint] cuts the series, it cuts exactly five
    points after the last point that moved: the point at the returned
    index minus 5 differs from its predecessor by more than 0.001 in some
    series, that index is at least 10, and no later point moved (a
    difference that is NaN counts as no move). *)
Theorem cut_is_five_after_last_move (data : list point) :
  detectStagnationPoint data < length data ->
  let i := detectStagnationPoint data - 5 in
  10 <= i
  /\ detectStagnationPoint data = i + 5
  /\ moved_at data i
  /\ forall j, i < j < length data -> ~ moved_at data j.
Proof.
  unfold detectStagnationPoint. destruct (length data <? 10) eqn:Hn; [lia|].
  apply Nat.ltb_ge in Hn. intros Hlt.
  destruct (scan_spec data (length data - 1))
    as [[E _]|(i0 & Hi0 & E & Hm & Hall)]; rewrite E in *; [lia|].
  rewrite Nat.min_l in * by lia.
  replace (i0 + 5 - 5) with i0 by lia. cbv zeta.
  repeat split; try lia.
  - now apply stagnant_at_false.
  - intros j Hj. apply stagnant_at_true, Hall. lia.
Qed.

Lemma cut_is_five_after_last_move_witness :
  detectStagnationPoint settling = 17 /\ moved_at settling 12.
Proof.
  assert (E : detectStagnationPoint settling = 17) by (vm_compute; reflexivity).
  split; [exact E|].
  destruct (cut_is_five_after_last_move settling) as (_ & _ & Hm & _).
  - rewrite E. vm_compute. lia.
  - rewrite E in Hm. exact Hm.
Defined.

(** X8: a series whose points from index 10 on never move is not trimmed
    at all, however long its flat tail is: trimming only happens after a
    move at index 10 or later. *)
Theorem flat_tail_is_kept (data : list point) :
  (forall j, 10 <= j < length data -> ~ moved_at data j) ->
  detectStagnationPoint data = length data.
Proof.
  intros Hflat. unfold detectStagnationPoint.
  destruct (length data <? 10) eqn:Hn; [reflexivity|].
  apply Nat.ltb_ge in Hn.
  destruct (scan_spec data (length data - 1))
    as [[E _]|(i0 & Hi0 & E & Hm & _)]; rewrite E; [lia|].
  apply stagnant_at_false in Hm. elim (Hflat i0); [lia|exact Hm].
Qed.

Lemma flat_tail_is_kept_witness :
  detectStagnationPoint (map pt (repeat 0.5%float 40)) = 40.
Proof.
  apply (flat_tail_is_kept (map pt (repeat 0.5%float 40))).
  intros j Hj. apply stagnant_at_true.
  change (length (map pt (repeat 0.5%float 40))) with 40 in Hj.
  do 40 (destruct j as [|j]; [try lia; vm_compute; reflexivity|]). lia.
Defined.

(** *** Sampling *)

Lemma filter_index_sublist {A} f (xs : list A) : forall i,
  sublist (filter_index f i xs) xs.
Proof.
  induction xs as [|x xs IH]; intros i; simpl; [constructor|].
  destruct (f i); [apply sublist_skip|apply sublist_cons]; apply IH.
Qed.

Lemma filter_index_In {A} f (xs : list A) : forall i k x,
  xs !! k = Some x -> f (i + k) = true -> In x (filter_index f i xs).
Proof.
  induction xs as [|y xs IH]; intros i k x Hk Hf; [discriminate|].
  destruct k as [|k]; simpl in *.
  - injection Hk as ->. rewrite Nat.add_0_r in Hf. rewrite Hf. now left.
  - assert (Hin : In x (filter_index f (S i) xs))
      by (apply (IH (S i) k); [exact Hk|];
          replace (S i + k) with (i + S k) by lia; exact Hf).
    destruct (f i); [now right|exact Hin].
Qed.

Lemma filter_index_last {A} f (xs : list A) : forall i,
  f (i + length xs - 1) = true -> last (filter_index f i xs) = last xs.
Proof.
  induction xs as [|y xs IH]; intros i Hf; [reflexivity|].
  destruct xs as [|z xs].
  - simpl in *. replace (i + 1 - 1) with i in Hf by lia. now rewrite Hf.
  - assert (IH' : last (filter_index f (S i) (z :: xs)) = last (z :: xs)).
    { apply IH. cbn [length] in *.
      replace (S i + S (length xs) - 1) with (i + S (S (length xs)) - 1) by lia.
      exact Hf. }
    change (filter_index f i (y :: z :: xs))
      with (if f i then y :: filter_index f (S i) (z :: xs)
            else filter_index f (S i) (z :: xs)).
    rewrite last_cons_cons.
    destruct (f i); [|exact IH'].
    destruct (filter_index f (S i) (z :: xs)) as [|w ws] eqn:E.
    + symmetry in IH'. change (last (@nil A)) with (@None A) in IH'.
      apply last_None in IH'. discriminate.
    + rewrite last_cons_cons. exact IH'.
Qed.

Lemma fifths_bound {A} (xs : list A) : forall i,
  5 * length (filter_index (fun j => j mod 5 =? 0) i xs) + to_fifth i
  <= length xs + 4.
Proof.
  induction xs as [|x xs IH]; intros i.
  - simpl. unfold to_fifth. pose proof (Nat.mod_upper_bound (5 - i mod 5) 5). lia.
  - specialize (IH (S i)). cbn [filter_index length].
    assert (Hstep : (i mod 5 = 0 /\ to_fifth i = 0 /\ to_fifth (S i) = 4)
                    \/ (i mod 5 <> 0 /\ to_fifth (S i) + 1 = to_fifth i)).
    { unfold to_fifth.
      pose proof (Nat.mod_upper_bound i 5 ltac:(lia)) as Hi.
      replace (S i) with (1 + i) by lia.
      rewrite <- Nat.Div0.add_mod_idemp_r.
      destruct (i mod 5) as [|[|[|[|[|n]]]]]; simpl; lia. }
    destruct Hstep as [(H0 & Hd & Hd')|(H0 & Hd)].
    + rewrite H0. cbn [Nat.eqb length]. lia.
    + apply Nat.eqb_neq in H0. rewrite H0. lia.
Qed.

Lemma filter_index_weaken {A} (f g : nat -> bool) (n : nat) (xs : list A) :
  forall i,
  (forall j, f j = true -> g j = true \/ j = n) ->
  length (filter_index f i xs) <= length (filter_index g i xs)
                                  + (if (i <=? n) && (n <? i + length xs) then 1 else 0).
Proof.
  intros i Hfg. revert i. induction xs as [|x xs IH]; intros i; [simpl; lia|].
  specialize (IH (S i)). cbn [filter_index length].
  destruct (f i) eqn:Ef.
  - destruct (Hfg i Ef) as [Hg| ->].
    + rewrite Hg. cbn [length].
      destruct ((S i <=? n) && (n <? S i + length xs)) eqn:E1.
      * apply andb_true_iff in E1 as [H1 H2].
        apply Nat.leb_le in H1. apply Nat.ltb_lt in H2.
        replace ((i <=? n) && (n <? i + S (length xs))) with true; [lia|].
        symmetry. apply andb_true_iff.
        split; [apply Nat.leb_le|apply Nat.ltb_lt]; lia.
      * destruct ((i <=? n) && (n <? i + S (length xs))); lia.
    + replace ((S n <=? n) && (n <? S n + length xs)) with false in IH
        by (symmetry; apply andb_false_iff; left; apply Nat.leb_gt; lia).
      replace ((n <=? n) && (n <? n + S (length xs))) with true
        by (symmetry; apply andb_true_iff;
            split; [apply Nat.leb_le|apply Nat.ltb_lt]; lia).
      destruct (g n); cbn [length]; lia.
  - assert (Hmono : (if (S i <=? n) && (n <? S i + length xs) then 1 else 0)
                    <= (if (i <=? n) && (n <? i + S (length xs)) then 1 else 0)).
    { destruct ((S i <=? n) && (n <? S i + length xs)) eqn:E1; [|lia].
      apply andb_true_iff in E1 as [H1 H2].
      apply Nat.leb_le in H1. apply Nat.ltb_lt in H2.
      replace ((i <=? n) && (n <? i + S (length xs))) with true; [lia|].
      symmetry. apply andb_true_iff.
      split; [apply Nat.leb_le|apply Nat.ltb_lt]; lia. }
    destruct (g i); cbn [length]; lia.
Qed.

Lemma kept_cases n i :
  kept n i = true -> (i mod 5 =? 0) = true \/ i = n - 1.
Proof.
  unfold kept. intros H. apply orb_true_iff in H as [H|H]; [now left|].
  right. apply Z.eqb_eq in H. lia.
Qed.

(** X9: sampling the chart data keeps the points in their order, keeps
    every point whose index is a multiple of 5 and the last point (so the
    first and the last point of a non-empty series are always shown), and
    keeps at most one point in five, plus the last one. *)
Theorem sample_keeps_ends_and_fifths {A : Type} (data : list A) :
  sublist (sample data) data
  /\ (forall i x, data !! i = Some x ->
                  i mod 5 = 0 \/ S i = length data -> In x (sample data))
  /\ head (sample data) = head data
  /\ last (sample data) = last data
  /\ 5 * length (sample data) <= length data + 9.
Proof.
  unfold sample. repeat split.
  - apply filter_index_sublist.
  - intros i x Hi Hk. apply (filter_index_In _ data 0 i x Hi).
    unfold kept. apply orb_true_iff. simpl.
    destruct Hk as [Hk|Hk]; [left; now apply Nat.eqb_eq|right; apply Z.eqb_eq; lia].
  - destruct data; reflexivity.
  - destruct data as [|x data]; [reflexivity|].
    apply filter_index_last. unfold kept. apply orb_true_iff. right.
    apply Z.eqb_eq. simpl. lia.
  - pose proof (filter_index_weaken (kept (length data))
                  (fun j => j mod 5 =? 0) (length data - 1) data 0
                  (kept_cases (length data))) as H1.
    pose proof (fifths_bound data 0) as H2.
    destruct ((0 <=? length data - 1) && (length data - 1 <? 0 + length data));
      lia.
Qed.

Lemma sample_keeps_ends_and_fifths_witness :
  In 12 (sample (seq 0 13)) /\ last (sample (seq 0 13)) = Some 12.
Proof.
  destruct (sample_keeps_ends_and_fifths (seq 0 13)) as (_ & Hin & _ & Hl & _).
  split; [apply (Hin 12); [reflexivity|right; reflexivity]|].
  rewrite Hl. reflexivity.
Defined.

Lemma filter_index_includes {A} (f g : nat -> bool) (xs : list A) : forall i,
  (forall j, g j = true -> f j = true) ->
  length (filter_index g i xs) <= length (filter_index f i xs).
Proof.
  intros i Hgf. revert i. induction xs as [|x xs IH]; intros i; [simpl; lia|].
  specialize (IH (S i)). cbn [filter_index].
  destruct (g i) eqn:Eg.
  - rewrite (Hgf i Eg). cbn [length]. lia.
  - destruct (f i); cbn [length]; lia.
Qed.

Lemma fifths_cover {A} (xs : list A) : forall i,
  length xs
  <= 5 * length (filter_index (fun j => j mod 5 =? 0) i xs) + to_fifth i.
Proof.
  induction xs as [|x xs IH]; intros i; [simpl; lia|].
  specialize (IH (S i)). cbn [filter_index length].
  assert (Hstep : (i mod 5 = 0 /\ to_fifth i = 0 /\ to_fifth (S i) = 4)
                  \/ (i mod 5 <> 0 /\ to_fifth (S i) + 1 = to_fifth i)).
  { unfold to_fifth.
    pose proof (Nat.mod_upper_bound i 5 ltac:(lia)) as Hi.
    replace (S i) with (1 + i) by lia.
    rewrite <- Nat.Div0.add_mod_idemp_r.
    destruct (i mod 5) as [|[|[|[|[|n]]]]]; simpl; lia. }
  destruct Hstep as [(H0 & Hd & Hd')|(H0 & Hd)].
  + rewrite H0. cbn [Nat.eqb length]. lia.
  + apply Nat.eqb_neq in H0. rewrite H0. lia.
Qed.

Lemma sample_size {A} (data : list A) :
  length data <= 5 * length (sample data) <= length data + 9.
Proof.
  unfold sample. split.
  - pose proof (fifths_cover data 0) as H1.
    pose proof (filter_index_includes (kept (length data))
                  (fun j => j mod 5 =? 0) data 0) as H2.
    change (to_fifth 0) with 0 in H1.
    assert (H3 : forall j, (j mod 5 =? 0) = true -> kept (length data) j = true).
    { intros j Hj. unfold kept. now rewrite Hj. }
    specialize (H2 H3). lia.
  - pose proof (filter_index_weaken (kept (length data))
                  (fun j => j mod 5 =? 0) (length data - 1) data 0
                  (kept_cases (length data))) as H1.
    pose proof (fifths_bound data 0) as H2.
    destruct ((0 <=? length data - 1) && (length data - 1 <? 0 + length data));
      lia.
Qed.

(** X6: the timeline chart draws the sampled series, which is taken from
    the trimmed series: the trimmed series has as many points as
    [detectStagnationPoint] returns, between [min 15 n] and [n] for a run
    of [n] time points, and the chart draws between a fifth of them and a
    fifth of them plus two (five times the number of drawn points lies
    between the cut and the cut plus 9): never more than [(n + 9) / 5]
    points, and at least 3 for a run of 15 time points or more. *)
Theorem drawn_chart_size (round1 : number -> number)
    (result : SimulationResult) :
  let n := length (t result) in
  let cut := stagnationPoint round1 result in
  let drawn := sampledData round1 result in
  sublist drawn (trimmedData round1 result)
  /\ length (trimmedData round1 result) = cut
  /\ Nat.min 15 n <= cut <= n
  /\ cut <= 5 * length drawn <= cut + 9
  /\ (15 <= n -> 3 <= length drawn)
  /\ 5 * length drawn <= n + 9.
Proof.
  cbv zeta. unfold sampledData.
  assert (Hlen : length (trimmedData round1 result)
                 = stagnationPoint round1 result).
  { unfold trimmedData, stagnationPoint.
    pose proof (detectStagnationPoint_bounds (points round1 result (t result))) as H.
    rewrite length_points in H.
    rewrite length_points, length_firstn. lia. }
  assert (Hcut : Nat.min 15 (length (t result))
                 <= stagnationPoint round1 result <= length (t result)).
  { unfold stagnationPoint.
    pose proof (detectStagnationPoint_bounds (points round1 result (t result))) as H.
    now rewrite length_points in H. }
  pose proof (sample_size (trimmedData round1 result)) as Hs.
  rewrite Hlen in Hs.
  split; [apply filter_index_sublist|].
  split; [exact Hlen|]. split; [exact Hcut|]. split; [exact Hs|].
  split; lia.
Qed.

Lemma drawn_chart_size_witness :
  3 <= length (sampledData (fun x => x) settling_run)
  /\ 5 * length (sampledData (fun x => x) settling_run) <= 29.
Proof.
  destruct (drawn_chart_size (fun x => x) settling_run)
    as (_ & _ & _ & _ & H3 & H5).
  split; [apply H3; simpl; lia|exact H5].
Defined.

End ChartFacts.

(** ** KPI metrics and the comparison of two runs *)

Module KpiFacts.
Import Js Undefined InsightEngine InsightExamples InsightKpis KpiExamples
  FloatFacts.

(** *** NaN and differences of equal numbers *)

Lemma is_nan (x : number) : Prim2SF x = S754_nan -> x = nan.
Proof. intros H. rewrite <- (SF2Prim_Prim2SF x), H. reflexivity. Qed.

Lemma nan_sub (x : number) : (nan - x)%float = nan.
Proof.
  apply is_nan. rewrite sub_spec. change (Prim2SF nan) with S754_nan.
  now destruct (Prim2SF x).
Qed.

Lemma nan_div (x : number) : (nan / x)%float = nan.
Proof.
  apply is_nan. rewrite div_spec. change (Prim2SF nan) with S754_nan.
  now destruct (Prim2SF x).
Qed.

Lemma lt_irrefl (x : number) : lt x x = false.
Proof.
  unfold lt. rewrite ltb_spec. unfold SFltb.
  pose proof (SFcompare_antisym (Prim2SF x) (Prim2SF x)) as H.
  destruct (SFcompare (Prim2SF x) (Prim2SF x)) as [[]|];
    try reflexivity; discriminate H.
Qed.

Lemma lt_asym (x y : number) : lt x y = true -> lt y x = false.
Proof.
  unfold lt. rewrite !ltb_spec. unfold SFltb.
  rewrite (SFcompare_antisym (Prim2SF x) (Prim2SF y)).
  now destruct (SFcompare (Prim2SF x) (Prim2SF y)) as [[]|].
Qed.

(** [x - x] is a zero, or NaN when [x] is infinite or NaN. *)
Lemma SFsub_diag (s : spec_float) :
  SF64sub s s = S754_nan \/ exists sg, SF64sub s s = S754_zero sg.
Proof.
  destruct s as [sg|sg| |sg m e].
  - right. destruct sg; eexists; reflexivity.
  - left. now destruct sg.
  - now left.
  - right. unfold SF64sub, SFsub. rewrite Z.min_id, Z.sub_diag.
    eexists. reflexivity.
Qed.

Lemma no_gap_to_itself (x c : number) :
  lt 0 c = true -> gt (PrimFloat.abs (x - x)%float) c = false.
Proof.
  intros Hc. unfold gt. unfold lt in Hc. rewrite ltb_spec in *.
  rewrite abs_spec, sub_spec.
  change (Prim2SF 0) with (S754_zero false) in Hc.
  destruct (SFsub_diag (Prim2SF x)) as [->|[sg ->]].
  - now destruct (Prim2SF c).
  - unfold SFltb in *. rewrite SFcompare_antisym.
    change (SFabs (S754_zero sg)) with (S754_zero false).
    now destruct (SFcompare (S754_zero false) (Prim2SF c)) as [[]|].
Qed.

(** *** [calculateKPIs] *)

Ltac missing_series key E :=
  left; exists (str key); split; [simpl; tauto|]; split; [exact E|reflexivity].

(** Either one of the seven series is missing and reading it throws, or
    all are there and the metrics are computed. *)
Lemma calculateKPIs_cases (result : SimulationResult)
    (baseline : option SimulationResult) :
  (exists key, In key kpi_series /\ states result !! key = None
               /\ calculateKPIs (Some result) baseline = Rejected (TypeError key))
  \/ ((forall key, In key kpi_series -> states result !! key <> None)
      /\ exists kpis, calculateKPIs (Some result) baseline = Resolved kpis).
Proof.
  unfold calculateKPIs, read.
  destruct (states result !! str "T") as [xT|] eqn:ET; [|missing_series "T" ET].
  destruct (states result !! str "S") as [xS|] eqn:ES; [|missing_series "S" ES].
  destruct (states result !! str "D") as [xD|] eqn:ED; [|missing_series "D" ED].
  destruct (states result !! str "X") as [xX|] eqn:EX; [|missing_series "X" EX].
  destruct (states result !! str "E") as [xE|] eqn:EE; [|missing_series "E" EE].
  destruct (states result !! str "V") as [xV|] eqn:EV; [|missing_series "V" EV].
  destruct (states result !! str "L") as [xL|] eqn:EL; [|missing_series "L" EL].
  right. split; [|eexists; reflexivity].
  intros key Hin. unfold kpi_series in Hin. cbn [map In] in Hin.
  destruct Hin as [<-|[<-|[<-|[<-|[<-|[<-|[<-|[]]]]]]]]; congruence.
Qed.

(** X10: [calculateKPIs] returns KPI metrics for a run exactly when the
    run has the seven series T, S, D, X, E, V and L (the series R that
    [generateInsights] also reads is not needed); otherwise it throws a
    TypeError for one of the seven that is missing. *)
Theorem calculateKPIs_needs_seven_series (result : SimulationResult)
    (baseline : option SimulationResult) :
  ((exists kpis, calculateKPIs (Some result) baseline = Resolved kpis)
   <-> forall key, In key kpi_series -> states result !! key <> None)
  /\ (forall e, calculateKPIs (Some result) baseline = Rejected e ->
        exists key, e = TypeError key /\ In key kpi_series
                    /\ states result !! key = None).
Proof.
  destruct (calculateKPIs_cases result baseline)
    as [(key & Hin & Hmiss & ->)|(Hall & k & ->)].
  - split.
    + split; [intros [k Hk]; discriminate Hk|].
      intros H. elim (H key Hin Hmiss).
    + intros e [= <-]. now exists key.
  - split; [|intros e He; discriminate He].
    split; [intros _; exact Hall|intros _; now exists k].
Qed.

Lemma calculateKPIs_needs_seven_series_witness :
  (exists kpis, calculateKPIs (Some risky_run) None = Resolved kpis)
  /\ exists key, calculateKPIs (Some run_without_X) None = Rejected (TypeError key).
Proof.
  split.
  - apply (proj1 (calculateKPIs_needs_seven_series risky_run None)).
    intros key Hin. unfold kpi_series in Hin. cbn [map In] in Hin.
    destruct Hin as [<-|[<-|[<-|[<-|[<-|[<-|[<-|[]]]]]]]];
      vm_compute; discriminate.
  - destruct (calculateKPIs (Some run_without_X) None) as [k|e] eqn:E.
    + vm_compute in E. discriminate E.
    + destruct (proj2 (calculateKPIs_needs_seven_series run_without_X None) e E)
        as (key & -> & _). now exists key.
Defined.

(** X11: for a run without time points, [calculateKPIs] does not fall back
    to the neutral metrics of a missing run: every end value is read at
    index -1, so all four values are NaN or undefined, all four changes
    are NaN and all four statuses are danger. *)
Theorem calculateKPIs_without_time_points (result : SimulationResult)
    (baseline : option SimulationResult) :
  t result = [] ->
  (forall key, In key kpi_series -> states result !! key <> None) ->
  calculateKPIs (Some result) baseline
  = Resolved {| capability := undefined_kpi (Some nan);
                risk := undefined_kpi None;
                compliance := undefined_kpi (Some nan);
                trust := undefined_kpi None |}.
Proof.
  intros Ht H. unfold calculateKPIs, read. rewrite Ht.
  destruct (states result !! str "T") as [xT|] eqn:ET;
    [|elim (H (str "T")); [simpl; tauto|exact ET]].
  destruct (states result !! str "S") as [xS|] eqn:ES;
    [|elim (H (str "S")); [simpl; tauto|exact ES]].
  destruct (states result !! str "D") as [xD|] eqn:ED;
    [|elim (H (str "D")); [simpl; tauto|exact ED]].
  destruct (states result !! str "X") as [xX|] eqn:EX;
    [|elim (H (str "X")); [simpl; tauto|exact EX]].
  destruct (states result !! str "E") as [xE|] eqn:EE;
    [|elim (H (str "E")); [simpl; tauto|exact EE]].
  destruct (states result !! str "V") as [xV|] eqn:EV;
    [|elim (H (str "V")); [simpl; tauto|exact EV]].
  destruct (states result !! str "L") as [xL|] eqn:EL;
    [|elim (H (str "L")); [simpl; tauto|exact EL]].
  change (element ?xs (Z.of_nat (length (@nil number)) - 1)%Z) with (@None number).
  cbn [ToNumber].
  change ((nan + nan + nan) / 3)%float with nan.
  change ((nan + nan) / 2)%float with nan.
  rewrite !nan_sub, !nan_div.
  reflexivity.
Qed.

Lemma calculateKPIs_without_time_points_witness :
  calculateKPIs (Some empty_run) None
  = Resolved {| capability := undefined_kpi (Some nan);
                risk := undefined_kpi None;
                compliance := undefined_kpi (Some nan);
                trust := undefined_kpi None |}.
Proof.
  apply (calculateKPIs_without_time_points empty_run None).
  - reflexivity.
  - intros key Hin. simpl in Hin.
    destruct Hin as [<-|[<-|[<-|[<-|[<-|[<-|[<-|[]]]]]]]];
      vm_compute; discriminate.
Defined.

(** *** [compareScenarios] *)

(** X12: a run that [compareScenarios] recommends when it is passed first
    is also recommended when it is passed second: only a tie (or a score
    that is NaN) lets the order of the arguments decide, and then the
    second argument is recommended. *)
Theorem strict_winner_wins_in_either_order (toFixed : number -> nat -> text)
    (a b : NamedResult) (ab ba : Comparison) :
  compareScenarios toFixed a b = Resolved ab ->
  compareScenarios toFixed b a = Resolved ba ->
  name a <> name b ->
  recommendation ab = name a ->
  recommendation ba = name a.
Proof.
  unfold compareScenarios.
  destruct (calculateKPIs (Some (result a)) None) as [ka|]; [|discriminate].
  destruct (calculateKPIs (Some (result b)) None) as [kb|]; [|discriminate].
  intros [= <-] [= <-] Hne. cbn [recommendation].
  destruct (gt (score ka) (score kb)) eqn:Hab.
  - intros _. pose proof (lt_asym _ _ Hab) as Hba.
    unfold gt. unfold lt in Hba. now rewrite Hba.
  - intros E. congruence.
Qed.

Lemma strict_winner_wins_in_either_order_witness :
  exists ab ba,
    compareScenarios HostNumbers.toFixed cautious risky = Resolved ab
    /\ compareScenarios HostNumbers.toFixed risky cautious = Resolved ba
    /\ recommendation ba = name cautious.
Proof.
  eexists _, _. split; [vm_compute; reflexivity|].
  split; [vm_compute; reflexivity|].
  eapply (strict_winner_wins_in_either_order HostNumbers.toFixed cautious risky).
  - vm_compute. reflexivity.
  - vm_compute. reflexivity.
  - discriminate.
  - reflexivity.
Defined.

(** X13: comparing two runs with the same result (which includes comparing
    a run with itself) recommends the second one and gives no reason at
    all: the reasoning is the name, the word provides, and the closing
    sentence. *)
Theorem same_result_gives_no_reason (toFixed : number -> nat -> text)
    (a b : NamedResult) :
  result a = result b ->
  (forall key, In key kpi_series -> states (result a) !! key <> None) ->
  compareScenarios toFixed a b
  = Resolved {| recommendation := name b;
                reasoning := name b ++ str " provides " ++ closing_sentence |}.
Proof.
  intros E Hs. unfold compareScenarios. rewrite <- E.
  destruct (calculateKPIs_cases (result a) None)
    as [(key & Hin & Hmiss & _)|(_ & k & ->)]; [elim (Hs key Hin Hmiss)|].
  assert (Htie : gt (score k) (score k) = false) by apply lt_irrefl.
  cbv zeta. rewrite !Htie, !no_gap_to_itself by reflexivity.
  cbn [andb]. now rewrite <- app_assoc.
Qed.

Lemma same_result_gives_no_reason_witness :
  compareScenarios HostNumbers.toFixed risky
    {| name := str "rapid_scaling_copy"; result := risky_run |}
  = Resolved {| recommendation := str "rapid_scaling_copy";
                reasoning := str "rapid_scaling_copy provides " ++ closing_sentence |}.
Proof.
  apply (same_result_gives_no_reason HostNumbers.toFixed risky
           {| name := str "rapid_scaling_copy"; result := risky_run |}).
  - reflexivity.
  - intros key Hin. simpl in Hin.
    destruct Hin as [<-|[<-|[<-|[<-|[<-|[<-|[<-|[]]]]]]]];
      vm_compute; discriminate.
Defined.

(** A number above 0.2 is its own absolute value. *)
Lemma abs_above_fifth (x : number) :
  gt x 0.2 = true -> PrimFloat.abs x = x.
Proof.
  unfold gt. rewrite ltb_spec. intros H.
  assert (E : Prim2SF (PrimFloat.abs x) = Prim2SF x).
  { rewrite abs_spec.
    destruct (Prim2SF x) as [[]|[]| |[] m e]; try discriminate H; reflexivity. }
  transitivity (SF2Prim (Prim2SF (PrimFloat.abs x)));
    [symmetry; apply SF2Prim_Prim2SF|].
  rewrite E. apply SF2Prim_Prim2SF.
Qed.

(** X26: the reasoning of [compareScenarios] words every risk gap above
    0.2 as a lower incident risk of the recommended run, whichever way the
    gap goes and whichever of the two runs is recommended: when the
    recommended run (the first one if its score is strictly higher, else
    the second) has the higher incident level, by more than 0.2, the
    reasoning still starts with its name, the word provides, the gap in
    percent and the words lower incident risk. *)
Theorem higher_risk_is_reported_as_lower (toFixed : number -> nat -> text)
    (a b : NamedResult) (ka kb : KPIMetrics) :
  calculateKPIs (Some (result a)) None = Resolved ka ->
  calculateKPIs (Some (result b)) None = Resolved kb ->
  let first_wins := gt (score ka) (score kb) in
  let winner := if first_wins then a else b in
  let winnerKPI := if first_wins then ka else kb in
  let loserKPI := if first_wins then kb else ka in
  gt (ToNumber (value (risk winnerKPI))
      - ToNumber (value (risk loserKPI)))%float 0.2 = true ->
  exists rest,
    compareScenarios toFixed a b
    = Resolved
        {| recommendation := name winner;
           reasoning :=
             name winner ++ str " provides "
             ++ toFixed ((ToNumber (value (risk winnerKPI))
                          - ToNumber (value (risk loserKPI))) * 100)%float 0
             ++ str "% lower incident risk" ++ rest |}.
Proof.
  intros Ha Hb first_wins winner winnerKPI loserKPI Hrisk.
  unfold compareScenarios. rewrite Ha, Hb. cbv zeta.
  subst winner winnerKPI loserKPI first_wins.
  destruct (gt (score ka) (score kb));
    rewrite (abs_above_fifth _ Hrisk), Hrisk;
    match goal with
    | |- context [if ?c1 && ?c2 then _ else _] => destruct (c1 && c2)
    end;
    match goal with
    | |- context [if gt ?x 0.1 then _ else _] => destruct (gt x 0.1)
    end;
    eexists; rewrite <- ?app_assoc; reflexivity.
Qed.

Lemma higher_risk_is_reported_as_lower_witness :
  (exists rest,
     compareScenarios HostNumbers.toFixed strong weak
     = Resolved
         {| recommendation := str "rapid_scaling";
            reasoning := str "rapid_scaling provides 40% lower incident risk"
                         ++ rest |})
  /\ (exists rest,
        compareScenarios HostNumbers.toFixed weak strong
        = Resolved
            {| recommendation := str "rapid_scaling";
               reasoning := str "rapid_scaling provides 40% lower incident risk"
                            ++ rest |}).
Proof.
  assert (Hs : exists ka, calculateKPIs (Some strong_run) None = Resolved ka)
    by (eexists; vm_compute; reflexivity).
  assert (Hw : exists kb, calculateKPIs (Some weak_run) None = Resolved kb)
    by (eexists; vm_compute; reflexivity).
  destruct Hs as [ka Ha], Hw as [kb Hb].
  split.
  - destruct (higher_risk_is_reported_as_lower HostNumbers.toFixed strong weak
                ka kb Ha Hb) as [rest E].
    + vm_compute in Ha, Hb. injection Ha as <-. injection Hb as <-.
      vm_compute. reflexivity.
    + exists rest. rewrite E. vm_compute in Ha, Hb.
      injection Ha as <-. injection Hb as <-. reflexivity.
  - destruct (higher_risk_is_reported_as_lower HostNumbers.toFixed weak strong
                kb ka Hb Ha) as [rest E].
    + vm_compute in Ha, Hb. injection Ha as <-. injection Hb as <-.
      vm_compute. reflexivity.
    + exists rest. rewrite E. vm_compute in Ha, Hb.
      injection Ha as <-. injection Hb as <-. reflexivity.
Defined.

End KpiFacts.

(** ** Undo and redo, AI proposals and applying the draft in the graph editor *)

Module GraphEditorHandlersFacts.
Import Js DraftsApi DraftsApiApply GraphEditor GraphEditorHandlers
  FrontEndExamples GraphEditorExamples GraphEditorHandlersExamples
  ProposalReplies.

(** X14: undo followed by redo gives back both stacks as they were, when
    there is something to undo; and neither of the two touches the draft
    or sends a request: an undone change stays in the draft. *)
Theorem undo_then_redo_restores_stacks (e : editor) :
  undoStack (core e) <> [] ->
  let e1 := handleUndo e in
  let e2 := handleRedo e1 in
  length (undoStack (core e1)) + 1 = length (undoStack (core e))
  /\ undoStack (core e2) = undoStack (core e)
  /\ redoStack (core e2) = redoStack (core e)
  /\ draftState (core e1) = draftState (core e)
  /\ draftState (core e2) = draftState (core e)
  /\ sent (core e1) = sent (core e)
  /\ sent (core e2) = sent (core e).
Proof.
  intros Hne. cbv zeta. unfold handleUndo.
  destruct (undoStack (core e)) as [|c0 l0] eqn:Eu using rev_ind; [congruence|].
  clear IHl0. rewrite length_app. simpl length.
  replace (length l0 + 1 =? 0) with false by (symmetry; apply Nat.eqb_neq; lia).
  rewrite last_snoc, removelast_last.
  unfold handleRedo. cbn [core set_stacks redoStack undoStack].
  rewrite length_app. simpl length.
  replace (length (redoStack (core e)) + 1 =? 0) with false
    by (symmetry; apply Nat.eqb_neq; lia).
  rewrite last_snoc, removelast_last.
  cbn [core set_stacks redoStack undoStack draftState sent].
  repeat split; reflexivity.
Qed.

Lemma undo_then_redo_restores_stacks_witness :
  undoStack (core (handleRedo (handleUndo editing))) = [reposition]
  /\ changes (draftState (core (handleUndo editing))) = [reposition].
Proof.
  destruct (undo_then_redo_restores_stacks editing) as (_ & Hu & _ & Hd & _).
  - discriminate.
  - split; [exact Hu|]. rewrite Hd. reflexivity.
Defined.

Section Network.
Variable net : list Request -> Request -> outcome error Response.

Lemma startDraft_effect fetch (w : world) :
  sent (startDraft fetch w)
  = sent w ++ [createDraft_request (Some session_description) None]
  /\ undoStack (startDraft fetch w) = undoStack w
  /\ redoStack (startDraft fetch w) = redoStack w
  /\ (changes (draftState (startDraft fetch w)) = changes (draftState w)
      \/ changes (draftState (startDraft fetch w)) = []).
Proof.
  unfold startDraft.
  destruct (createDraft fetch (Some session_description) None);
    simpl; auto.
Qed.

(** X15: when AI proposals are accepted while no draft is open, none of
    them is recorded: every proposal only asks the backend for a new
    draft, so [n] proposals send [n] create-draft requests and no
    add-change request; the undo and redo stacks stay as they were, the
    list of changes of the draft state is left as it was or emptied,
    and the proposals are discarded from the modal. *)
Theorem proposals_without_draft_are_dropped (proposals : list PatchChange)
    (e : editor) :
  draft (draftState (core e)) = None ->
  let e' := handleAcceptAIProposals net proposals e in
  sent (core e')
  = sent (core e)
    ++ repeat (createDraft_request (Some session_description) None)
         (length proposals)
  /\ undoStack (core e') = undoStack (core e)
  /\ redoStack (core e') = redoStack (core e)
  /\ (changes (draftState (core e')) = changes (draftState (core e))
      \/ changes (draftState (core e')) = [])
  /\ aiProposals e' = [] /\ showAIModal e' = false.
Proof.
  intros Hd. cbv zeta. unfold handleAcceptAIProposals. rewrite Hd.
  cbn [core aiProposals showAIModal].
  generalize (core e) as w. clear e Hd.
  induction proposals as [|c cs IH]; intros w.
  - simpl. rewrite app_nil_r. auto 10.
  - cbn [fold_left length repeat].
    change (addChange_of net None c w) with (startDraft (net (sent w)) w).
    destruct (startDraft_effect (net (sent w)) w) as (Hs & Hu & Hr & Hc).
    destruct (IH (startDraft (net (sent w)) w)) as (Hs' & Hu' & Hr' & Hc' & _).
    rewrite Hs', Hu', Hr', Hs, Hu, Hr, <- app_assoc.
    repeat split; auto.
    destruct Hc' as [Hc'|Hc']; [rewrite Hc'; exact Hc|now right].
Qed.

Lemma accept_loop (d : Draft) (proposals : list PatchChange) : forall w,
  let rs := replies net d (sent w) proposals in
  let w' := fold_left (fun w c => addChange_of net (Some d) c w) proposals w in
  sent w' = sent w ++ map (addChange_request (draft_id d)) proposals
  /\ active (draftState w') = active (draftState w)
  /\ draft (draftState w') = draft (draftState w)
  /\ changes (draftState w') = changes (draftState w) ++ accepted rs
  /\ undoStack w' = undoStack w ++ accepted rs
  /\ redoStack w' = match accepted rs with [] => redoStack w | _ :: _ => [] end
  /\ console_errors w' = console_errors w ++ failures rs.
Proof.
  induction proposals as [|c cs IH]; intros w.
  - cbn. rewrite !app_nil_r. repeat split; reflexivity.
  - cbn [fold_left map replies].
    destruct (IH (addChange_of net (Some d) c w))
      as (Hs & Ha & Hd & Hc & Hu & Hr & He).
    cbv zeta. rewrite Hs, Ha, Hd, Hc, Hu, Hr, He. clear Hs Ha Hd Hc Hu Hr He IH.
    unfold addChange_of.
    destruct (addChangeToDraft (net (sent w)) (draft_id d) c) as [[]|err];
      cbn [sent draftState active draft changes undoStack redoStack
           console_errors accepted failures flat_map snd fst app];
      rewrite <- ?app_assoc; cbn [app].
    + repeat split; try reflexivity.
      match goal with |- context [match ?l with [] => _ | _ :: _ => _ end] =>
        now destruct l
      end.
    + repeat split; reflexivity.
Qed.

Lemma replies_proposals (d : Draft) (proposals : list PatchChange) :
  forall h, map fst (replies net d h proposals) = proposals.
Proof.
  induction proposals as [|c cs IH]; intros h; [reflexivity|].
  cbn [replies map fst]. f_equal. apply IH.
Qed.

Lemma replies_count (d : Draft) (proposals : list PatchChange) : forall h,
  length (accepted (replies net d h proposals))
  + length (failures (replies net d h proposals)) = length proposals.
Proof.
  induction proposals as [|c cs IH]; intros h; [reflexivity|].
  cbn [replies accepted failures flat_map snd fst length].
  rewrite !length_app. specialize (IH (h ++ [addChange_request (draft_id d) c])).
  unfold accepted, failures in IH.
  destruct (addChangeToDraft (net h) (draft_id d) c); cbn [length]; lia.
Qed.

Lemma replies_all_accepted (d : Draft) (proposals : list PatchChange) :
  (forall h r, exists resp, net h r = Resolved resp /\ ok resp = true) ->
  forall h,
    accepted (replies net d h proposals) = proposals
    /\ failures (replies net d h proposals) = [].
Proof.
  intros Hok.
  induction proposals as [|c cs IH]; intros h; [split; reflexivity|].
  cbn [replies accepted failures flat_map snd fst].
  destruct (IH (h ++ [addChange_request (draft_id d) c])) as [IHa IHf].
  unfold accepted, failures in IHa, IHf. rewrite IHa, IHf.
  unfold addChangeToDraft.
  destruct (Hok h (addChange_request (draft_id d) c)) as (resp & -> & ->).
  split; reflexivity.
Qed.

(** X16: when AI proposals are accepted while a draft is open, every
    proposal is sent to that draft, in order, each request after the
    ones before it; exactly the proposals whose request succeeded are
    appended, in order, to the changes of the draft state and to the
    undo stack (and the redo stack is emptied as soon as one
    succeeded); each of the others leaves exactly one line on the error
    console, with the error of its request, and nothing else: a failure
    does not stop the loop.  If the backend accepts every request, all
    proposals are recorded and the console is left alone. *)
Theorem proposals_with_draft_are_recorded (proposals : list PatchChange)
    (d : Draft) (e : editor) :
  draft (draftState (core e)) = Some d ->
  let rs := replies net d (sent (core e)) proposals in
  let e' := handleAcceptAIProposals net proposals e in
  map fst rs = proposals
  /\ sent (core e')
     = sent (core e) ++ map (addChange_request (draft_id d)) proposals
  /\ changes (draftState (core e'))
     = changes (draftState (core e)) ++ accepted rs
  /\ undoStack (core e') = undoStack (core e) ++ accepted rs
  /\ redoStack (core e')
     = match accepted rs with [] => redoStack (core e) | _ :: _ => [] end
  /\ console_errors (core e') = console_errors (core e) ++ failures rs
  /\ length (accepted rs) + length (failures rs) = length proposals
  /\ draft (draftState (core e')) = Some d
  /\ aiProposals e' = [] /\ showAIModal e' = false
  /\ ((forall h r, exists resp, net h r = Resolved resp /\ ok resp = true)
      -> accepted rs = proposals /\ failures rs = []).
Proof.
  intros Hd. cbv zeta. unfold handleAcceptAIProposals. rewrite Hd.
  cbn [core aiProposals showAIModal].
  destruct (accept_loop d proposals (core e))
    as (Hs & _ & Hdr & Hc & Hu & Hr & He).
  split; [apply replies_proposals|].
  split; [exact Hs|]. split; [exact Hc|]. split; [exact Hu|].
  split; [exact Hr|]. split; [exact He|].
  split; [apply replies_count|].
  split; [now rewrite Hdr|]. split; [reflexivity|]. split; [reflexivity|].
  intros Hok. now apply replies_all_accepted.
Qed.


Lemma startDraft_keeps_no_change fetch (w : world) :
  changes (draftState w) = [] ->
  changes (draftState (startDraft fetch w)) = [].
Proof.
  intros H. destruct (startDraft_effect fetch w) as (_ & _ & _ & [E|E]);
    congruence.
Qed.

Variable apply_net : list Request -> Request -> outcome error ApplyResponse.
Variable onModelUpdate : bool.

(** X18: a successful apply closes the draft but leaves the undo and
    redo stacks as they were, and the next edit is not recorded: it only
    asks for a new draft.  After that edit the draft state lists no
    change, the undo stack still lists the changes of the applied draft
    and the only requests sent are the apply request and a create-draft
    request. *)
Theorem edit_after_apply_is_dropped (commit : bool) (c : PatchChange)
    (e : editor) (d : Draft) (resp : ApplyResponse) (result : MergeResult) :
  draft (draftState (core e)) = Some d ->
  apply_net (sent (core e)) (applyDraft_request (draft_id d) commit)
    = Resolved resp ->
  apply_ok resp = true -> apply_json resp = Resolved result ->
  success result = true ->
  let e1 := handleApply apply_net onModelUpdate commit e in
  let w2 := edit net c (core e1) in
  draftState (core e1) = {| active := false; draft := None; changes := [] |}
  /\ undoStack (core e1) = undoStack (core e)
  /\ redoStack (core e1) = redoStack (core e)
  /\ changes (draftState w2) = []
  /\ undoStack w2 = undoStack (core e)
  /\ sent w2 = sent (core e)
               ++ [applyDraft_request (draft_id d) commit;
                   createDraft_request (Some session_description) None].
Proof.
  intros Hd Hr Hok Hj Hs. cbv zeta.
  unfold handleApply, applyDraft. rewrite Hd, Hr, Hok, Hj. cbn [negb].
  rewrite Hs. cbn [core draftState undoStack redoStack].
  split; [reflexivity|]. split; [reflexivity|]. split; [reflexivity|].
  unfold edit, addChange. cbn [draftState draft].
  match goal with
  | |- context [startDraft ?f ?w] =>
      destruct (startDraft_effect f w) as (Es & Eu & _ & _);
      pose proof (startDraft_keeps_no_change f w eq_refl) as Ec
  end.
  rewrite Ec, Eu, Es. cbn [sent undoStack]. rewrite <- app_assoc.
  repeat split; reflexivity.
Qed.
End Network.

(** X27: deleting a relation while no draft is open removes it from the
    canvas and records nothing: the only request sent asks for a new
    draft, no change is added to the draft state or to the undo stack, so
    the canvas no longer shows a relation that the model still has. *)
Theorem deleted_edge_without_draft_is_not_recorded
    (Edge : Type) (edge_id : Edge -> text)
    (net : list Request -> Request -> outcome error Response)
    (edgeId : text) (cv : canvas Edge) :
  draft (draftState (graph Edge cv)) = None ->
  let cv' := handleEdgeDelete Edge edge_id net edgeId cv in
  (forall e, In e (edges Edge cv')
             <-> In e (edges Edge cv) /\ edge_id e <> edgeId)
  /\ sent (graph Edge cv')
     = sent (graph Edge cv) ++ [createDraft_request (Some session_description) None]
  /\ undoStack (graph Edge cv') = undoStack (graph Edge cv)
  /\ (changes (draftState (graph Edge cv')) = changes (draftState (graph Edge cv))
      \/ changes (draftState (graph Edge cv')) = []).
Proof.
  intros Hd. cbv zeta. unfold handleEdgeDelete. cbn [edges graph].
  split.
  - intros e. rewrite filter_In.
    destruct (text_eq_dec (edge_id e) edgeId); split;
      intros [H1 H2]; split; auto; try discriminate; contradiction.
  - unfold edit, addChange. rewrite Hd.
    destruct (startDraft_effect (net (sent (graph Edge cv))) (graph Edge cv))
      as (Hs & Hu & _ & Hc).
    split; [exact Hs|]. split; [exact Hu|exact Hc].
Qed.

Lemma deleted_edge_without_draft_is_not_recorded_witness :
  let cv' := handleEdgeDelete (text * text) link_id steady (str "S_to_T") two_links in
  edges _ cv' = [(str "R", str "T")]
  /\ undoStack (graph _ cv') = [].
Proof.
  destruct (deleted_edge_without_draft_is_not_recorded (text * text) link_id
              steady (str "S_to_T") two_links eq_refl) as (_ & _ & Hu & _).
  split; [reflexivity|exact Hu].
Defined.

Lemma proposals_without_draft_are_dropped_witness :
  let e' := handleAcceptAIProposals steady [reposition; rename] fresh in
  length (sent (core e')) = 2
  /\ undoStack (core e') = []
  /\ changes (draftState (core e')) = [].
Proof.
  destruct (proposals_without_draft_are_dropped steady [reposition; rename] fresh)
    as (Hs & Hu & _ & Hc & _); [reflexivity|].
  cbv zeta. rewrite Hs, Hu. split; [reflexivity|]. split; [reflexivity|].
  destruct Hc as [Hc|Hc]; exact Hc.
Defined.

Lemma proposals_with_draft_are_recorded_witness :
  let e' := handleAcceptAIProposals steady [reposition; rename] editing in
  sent (core e')
  = map (addChange_request (draft_id session_draft)) [reposition; rename]
  /\ changes (draftState (core e')) = [reposition; reposition; rename]
  /\ console_errors (core e') = [].
Proof.
  destruct (proposals_with_draft_are_recorded steady [reposition; rename]
              session_draft editing eq_refl)
    as (_ & Hs & Hc & _ & _ & He & _).
  cbv zeta. rewrite Hs, Hc, He. repeat split; reflexivity.
Defined.


Lemma edit_after_apply_is_dropped_witness :
  changes (draftState
             (edit steady rename
                (core (handleApply applying true false editing)))) = []
  /\ undoStack (edit steady rename
                  (core (handleApply applying true false editing)))
     = [reposition].
Proof.
  pose proof (edit_after_apply_is_dropped steady applying true false rename
                editing session_draft
                {| apply_status := 200; apply_statusText := str "OK";
                   apply_json := Resolved merged |} merged
                eq_refl eq_refl eq_refl eq_refl eq_refl)
    as (_ & _ & _ & Hc & Hu & _).
  split; [exact Hc|exact Hu].
Defined.

End GraphEditorHandlersFacts.

(** ** Saving an edited relation *)

Module EdgeEditFacts.
Import Js Undefined EdgeEditModal EdgeEditExamples FloatFacts.

(** For a coefficient other than zero, [0 <= c] and [0 < c] agree. *)
Lemma leb_is_ltb_off_zero (c : number) :
  PrimFloat.eqb c 0 = false -> PrimFloat.leb 0 c = PrimFloat.ltb 0 c.
Proof.
  intros H. rewrite FloatAxioms.eqb_spec in H. rewrite FloatAxioms.leb_spec, FloatAxioms.ltb_spec.
  unfold SFeqb, SFleb, SFltb in *.
  rewrite (SFcompare_antisym (Prim2SF 0) (Prim2SF c)) in H.
  now destruct (SFcompare (Prim2SF 0) (Prim2SF c)) as [[]|].
Qed.

(** X19: [handleSave] of the relation editor passes a coefficient on to
    [onSave] only when it is not zero and its absolute value is not above
    1, and then with the type positive exactly when the coefficient is
    greater than zero; otherwise it calls nothing, keeps the entered
    values and shows at least one error. *)
Theorem edge_handleSave_enforces_range (edge : Edge) (st : State) :
  (PrimFloat.eqb (coefficient st) 0 = false
   /\ gt (PrimFloat.abs (coefficient st)) 1 = false ->
   handleSave edge st
   = ({| coefficient := coefficient st; description := description st;
         errors := [] |},
      [onSave (id edge)
         {| upd_coefficient := coefficient st;
            upd_description := description st;
            type := if lt 0 (coefficient st) then positive else negative |};
       onClose]))
  /\ (PrimFloat.eqb (coefficient st) 0 = true
      \/ gt (PrimFloat.abs (coefficient st)) 1 = true ->
      snd (handleSave edge st) = []
      /\ errors (fst (handleSave edge st)) <> []
      /\ coefficient (fst (handleSave edge st)) = coefficient st
      /\ description (fst (handleSave edge st)) = description st).
Proof.
  unfold handleSave, newErrors. cbn [coefficient description].
  split.
  - intros [Hz Ha]. rewrite Hz, Ha. cbn [app].
    unfold lt. now rewrite (leb_is_ltb_off_zero _ Hz).
  - intros H.
    destruct (PrimFloat.eqb (coefficient st) 0) eqn:Hz.
    + cbn. repeat split; discriminate.
    + destruct H as [H|H]; [discriminate|]. rewrite H. cbn.
      repeat split; discriminate.
Qed.

Lemma edge_handleSave_enforces_range_witness :
  snd (handleSave (link None)
         {| coefficient := (-0.4)%float;
            description := str "dampens"; errors := [] |})
  = [onSave (str "S_to_T")
       {| upd_coefficient := (-0.4)%float; upd_description := str "dampens";
          type := negative |};
     onClose]
  /\ snd (handleSave (link None)
            {| coefficient := 1.5%float; description := []; errors := [] |})
     = [].
Proof.
  split.
  - rewrite (proj1 (edge_handleSave_enforces_range (link None)
                      {| coefficient := (-0.4)%float;
                         description := str "dampens"; errors := [] |}));
      [reflexivity|split; reflexivity].
  - apply (proj2 (edge_handleSave_enforces_range (link None)
                    {| coefficient := 1.5%float; description := [];
                       errors := [] |})).
    right. reflexivity.
Defined.

(** NaN passes both checks of [handleSave] and is saved as a negative
    relation. *)
Example edge_handleSave_lets_NaN_through :
  snd (handleSave (link None)
         {| coefficient := nan; description := []; errors := [] |})
  = [onSave (str "S_to_T")
       {| upd_coefficient := nan; upd_description := []; type := negative |};
     onClose].
Proof. reflexivity. Qed.

(** X20: a relation whose stored coefficient is zero, NaN or missing is
    loaded into the editor as 0.5, and saving it untouched passes 0.5 and
    the type positive on to [onSave]: the editor cannot show such a
    relation as it is. *)
Theorem zero_coefficient_is_saved_as_half (edge : Edge) (st : State) :
  falsy (stored_coefficient edge) = true ->
  coefficient (load edge st) = 0.5%float
  /\ handleSave edge (load edge st)
     = ({| coefficient := 0.5%float; description := description (load edge st);
           errors := [] |},
        [onSave (id edge)
           {| upd_coefficient := 0.5%float;
              upd_description := description (load edge st);
              type := positive |};
         onClose]).
Proof.
  intros H. unfold load, or_else. rewrite H. split; reflexivity.
Qed.

Lemma zero_coefficient_is_saved_as_half_witness :
  coefficient (load (link (Some 0%float)) blank_form) = 0.5%float
  /\ coefficient (load (link None) blank_form) = 0.5%float.
Proof.
  split.
  - apply (zero_coefficient_is_saved_as_half (link (Some 0%float)) blank_form).
    reflexivity.
  - apply (zero_coefficient_is_saved_as_half (link None) blank_form).
    reflexivity.
Defined.

End EdgeEditFacts.

(** ** The scenario form and the scenario handlers of the app *)

Module AppHandlersFacts.
Import Js App AppExamples AppHandlers AppHandlersExamples NodeEditExamples.

Lemma lower_spec (c : ascii) :
  is_upper (lower c) = false /\ is_whitespace (lower c) = is_whitespace c
  /\ (is_upper c = false -> lower c = c).
Proof.
  destruct c as [[] [] [] [] [] [] [] []];
    (split; [reflexivity|split; [reflexivity|]]);
    try reflexivity; intros H; discriminate H.
Qed.

Lemma toLowerCase_no_upper s :
  Forall (fun c => is_upper c = false) (toLowerCase s).
Proof.
  unfold toLowerCase. apply Forall_map, List.Forall_forall.
  intros c _. apply lower_spec.
Qed.

Lemma replace_runs_normalised s : forall b,
  Forall (fun c => is_upper c = false) s -> normalised (replace_runs b s).
Proof.
  unfold normalised.
  induction s as [|c s IH]; intros b Hs; simpl; [constructor|].
  inversion Hs as [|? ? Hc Hs']; subst.
  destruct (is_whitespace c) eqn:E.
  - destruct b; [now apply IH|]. constructor; [split; reflexivity|now apply IH].
  - constructor; [now split|now apply IH].
Qed.

Lemma replace_runs_fixed s : forall b,
  Forall (fun c => is_whitespace c = false) s -> replace_runs b s = s.
Proof.
  induction s as [|c s IH]; intros b Hs; simpl; [reflexivity|].
  inversion Hs as [|? ? Hc Hs']; subst. rewrite Hc. f_equal. now apply IH.
Qed.

Lemma scenario_key_normalised name : normalised (scenario_key name).
Proof. apply replace_runs_normalised, toLowerCase_no_upper. Qed.

Lemma scenario_key_fixed key : normalised key -> scenario_key key = key.
Proof.
  intros H. unfold scenario_key.
  assert (E : toLowerCase key = key).
  { unfold toLowerCase. induction H as [|c s [_ Hc] _ IH]; simpl; [reflexivity|].
    now rewrite (proj2 (proj2 (lower_spec c)) Hc), IH. }
  rewrite E. apply replace_runs_fixed.
  eapply Forall_impl; [exact H|]. now intros c [Hc _].
Qed.

Lemma scenario_key_nonempty name : name <> [] -> scenario_key name <> [].
Proof.
  destruct name as [|c name]; [congruence|]. intros _.
  unfold scenario_key. simpl. destruct (is_whitespace (lower c)); discriminate.
Qed.

(** X21: [handleSaveScenario] stores the scenario under a key derived
    from its name (lower case, every run of white space replaced by one
    underscore), leaves the other scenarios alone, selects the key and
    loads the scenario's values; the key has no white space and no capital
    letter, and deriving a key from it gives the key again, so a name and
    its key always address the same entry. *)
Theorem scenario_is_saved_under_normalised_key
    (saveScenario : text -> Scenario -> outcome exn unit)
    (scenario : Scenario) (st : AppState) (cfg : FullConfig) :
  config st = Some cfg ->
  let st' := handleSaveScenario saveScenario scenario st in
  let key := scenario_key (name scenario) in
  scenarios_of st' !! key = Some scenario
  /\ (forall k, k <> key -> scenarios_of st' !! k = scenarios_of st !! k)
  /\ selectedScenario st' = Some key
  /\ values st' = loadScenarioValues scenario cfg
  /\ normalised key
  /\ scenario_key key = key.
Proof.
  intros Hc. cbv zeta. unfold handleSaveScenario, scenarios_of. rewrite Hc.
  cbn [config selectedScenario values with_scenarios scenarios].
  split; [apply lookup_insert_eq|].
  split; [intros k Hk; now apply lookup_insert_ne|].
  split; [reflexivity|]. split; [reflexivity|].
  split; [apply scenario_key_normalised|].
  apply scenario_key_fixed, scenario_key_normalised.
Qed.

Lemma scenario_is_saved_under_normalised_key_witness :
  scenarios_of (handleSaveScenario always_saved rapid loaded)
    !! str "rapid_scaling" = Some rapid.
Proof.
  exact (proj1 (scenario_is_saved_under_normalised_key always_saved rapid
                  loaded AppExamples.config eq_refl)).
Defined.

(** Run without interruption, the two halves of [handleSaveScenario]
    make up the whole. *)
Lemma handleSaveScenario_uninterrupted
    (saveScenario : text -> Scenario -> outcome exn unit)
    (scenario : Scenario) (st : AppState) :
  handleSaveScenario saveScenario scenario st
  = match handleSaveScenario_start scenario st with
    | (st1, Some p) => handleSaveScenario_resume saveScenario p st1
    | (st1, None) => st1
    end.
Proof.
  unfold handleSaveScenario, handleSaveScenario_start.
  destruct (config st) as [cfg|]; reflexivity.
Qed.

Lemma keys_in_some_order_enumerates : enumerates keys_in_some_order.
Proof.
  intros m k. unfold keys_in_some_order.
  rewrite <- list_elem_of_In, list_elem_of_fmap. split.
  - intros ([k' v] & -> & H). apply elem_of_map_to_list in H. now exists v.
  - intros [v H]. exists (k, v). split; [reflexivity|].
    now apply elem_of_map_to_list.
Qed.

Lemma is_Some_insert (m : gmap text Scenario) (k k' : text) (v : Scenario) :
  is_Some (m !! k) -> is_Some (<[k' := v]> m !! k).
Proof.
  intros H. destruct (decide (k' = k)) as [->|Hne].
  - rewrite lookup_insert_eq. now eexists.
  - now rewrite lookup_insert_ne.
Qed.

Lemma In_delete {A} (l : list A) : forall i x, In x (delete i l) -> In x l.
Proof.
  induction l as [|y l IH]; intros [|i] x H; simpl in *; auto.
  destruct H as [H|H]; [now left|right; eauto].
Qed.

Lemma selected_but_missing (st : AppState) (key : text) :
  selectedScenario st = Some key -> scenarios_of st !! key = None ->
  ~ selection_valid st.
Proof.
  unfold selection_valid. intros -> -> [x Hx]. discriminate Hx.
Qed.

(** X22: a save is two steps with an [await] between them, and the
    selection names a scenario of the configuration (or is empty) as long
    as no scenario is deleted while its own save is pending: selecting,
    starting a save, the settling of a pending save, deleting and
    duplicating keep it so, in any interleaving, and none of them throws
    for a scenario the panel offers.  When the scenario being saved is
    deleted while the request is pending, the settling of the request
    selects it all the same: the selection then names a scenario that the
    configuration does not have.  A save that nothing interrupts is the
    two steps one after the other. *)
Theorem selection_stays_valid
    (saveScenario : text -> Scenario -> outcome exn unit)
    (Object_keys : gmap text Scenario -> list text) :
  enumerates Object_keys ->
  (forall (a : action) (s : Session),
      selection_valid (app s) -> pending_saved s ->
      offered a s -> spares_pending a s ->
      exists s',
        handle saveScenario Object_keys a s = Resolved s'
        /\ selection_valid (app s') /\ pending_saved s')
  /\ (forall (scenario : Scenario) (s : Session) (cfg : FullConfig),
        config (app s) = Some cfg ->
        let key := scenario_key (name scenario) in
        exists s1 s2 s3,
          handle saveScenario Object_keys (Save scenario) s = Resolved s1
          /\ handle saveScenario Object_keys (Delete key) s1 = Resolved s2
          /\ handle saveScenario Object_keys (Settle (length (pending s))) s2
             = Resolved s3
          /\ selectedScenario (app s3) = Some key
          /\ scenarios_of (app s3) !! key = None
          /\ ~ selection_valid (app s3))
  /\ (forall (scenario : Scenario) (st : AppState),
        handleSaveScenario saveScenario scenario st
        = match handleSaveScenario_start scenario st with
          | (st1, Some p) => handleSaveScenario_resume saveScenario p st1
          | (st1, None) => st1
          end).
Proof.
  intros Hkeys.
  split; [|split; [|intros; apply handleSaveScenario_uninterrupted]].
  - intros a [st ps] Hv Hp Ho Hs.
    assert (Hnone : forall name : text,
               ~ is_Some ((∅ : gmap text Scenario) !! name)).
    { intros name [x Hx]. rewrite lookup_empty in Hx. discriminate. }
    unfold pending_saved in *. cbn [app pending] in *.
    destruct a as [name|scenario|index|name|name];
      cbn [handle offered spares_pending app pending with_app] in *.
    + unfold handleSelectScenario. unfold selection_valid, scenarios_of in *.
      destruct (config st) as [cfg|] eqn:Ec; [|elim (Hnone _ Ho)].
      destruct (scenarios cfg !! name) as [sc|] eqn:E;
        [|destruct Ho as [x Hx]; discriminate].
      eexists. split; [reflexivity|]. cbn [app pending with_app config selectedScenario].
      split; [now rewrite E|exact Hp].
    + unfold handleSaveScenario_start. unfold selection_valid, scenarios_of in *.
      destruct (config st) as [cfg|] eqn:Ec.
      * eexists. split; [reflexivity|].
        cbn [app pending with_app set_config config selectedScenario
             with_scenarios scenarios].
        split.
        -- destruct (selectedScenario st) as [k|]; [|exact I].
           now apply is_Some_insert.
        -- intros p Hin. apply in_app_or in Hin as [Hin|[<-|[]]].
           ++ apply is_Some_insert. now apply Hp.
           ++ cbn [save_key]. rewrite lookup_insert_eq. now eexists.
      * eexists. split; [reflexivity|]. cbn [app pending with_app].
        rewrite ?Ec. split; [exact Hv|exact Hp].
    + destruct (ps !! index) as [p|] eqn:E.
      * eexists. split; [reflexivity|].
        cbn [app pending]. unfold selection_valid, scenarios_of in *.
        cbn [handleSaveScenario_resume config selectedScenario].
        assert (Hin : In p ps).
        { apply list_elem_of_In. eapply list_elem_of_lookup_2. exact E. }
        split; [now apply Hp|].
        intros p' Hin'. apply Hp. eapply In_delete. exact Hin'.
      * apply lookup_ge_None in E. lia.
    + eexists. split; [reflexivity|]. cbn [app pending with_app].
      unfold handleDeleteScenario. unfold selection_valid, scenarios_of in *.
      destruct (config st) as [cfg|] eqn:Ec; [|elim (Hnone _ Ho)].
      cbn [config selectedScenario with_scenarios scenarios]. split.
      * destruct (bool_decide (selectedScenario st = Some name)) eqn:Es.
        -- destruct (Object_keys (delete name (scenarios cfg))) as [|k ks] eqn:Ek;
             [exact I|].
           apply Hkeys. rewrite Ek. now left.
        -- apply bool_decide_eq_false in Es.
           destruct (selectedScenario st) as [k|]; [|exact I].
           rewrite lookup_delete_ne; [exact Hv|]. congruence.
      * intros p Hin. rewrite lookup_delete_ne; [now apply Hp|].
        intros Heq. now apply (Hs p Hin).
    + unfold handleDuplicateScenario. unfold selection_valid, scenarios_of in *.
      destruct (config st) as [cfg|] eqn:Ec; [|elim (Hnone _ Ho)].
      destruct (scenarios cfg !! name) as [src|] eqn:E;
        [|destruct Ho as [x Hx]; discriminate].
      eexists. split; [reflexivity|].
      cbn [app pending with_app set_config config selectedScenario
           with_scenarios scenarios].
      split.
      * destruct (selectedScenario st) as [k|]; [|exact I].
        now apply is_Some_insert.
      * intros p Hin. apply is_Some_insert. now apply Hp.
  - intros scenario [st ps] cfg Hc key. cbn [app pending] in *.
    cbn [handle app pending with_app]. unfold handleSaveScenario_start.
    rewrite Hc. do 3 eexists.
    split; [reflexivity|]. split; [reflexivity|].
    cbn [app pending with_app]. rewrite list_lookup_middle by reflexivity.
    split; [reflexivity|].
    match goal with |- _ /\ ?G /\ _ => assert (Hgone : G) end.
    { unfold scenarios_of, handleDeleteScenario.
      cbn [app with_app handleSaveScenario_resume set_config config
           with_scenarios scenarios].
      apply lookup_delete_eq. }
    split; [reflexivity|]. split; [exact Hgone|].
    apply (selected_but_missing _ key); [reflexivity|exact Hgone].
Qed.

Lemma selection_stays_valid_witness :
  (exists s',
     handle always_saved keys_in_some_order (Settle 0) saving = Resolved s'
     /\ selectedScenario (app s') = Some (str "rapid_scaling")
     /\ selection_valid (app s'))
  /\ exists s3,
       handle always_saved keys_in_some_order (Settle 0)
         {| app := handleDeleteScenario keys_in_some_order (str "rapid_scaling")
                     (app saving);
            pending := pending saving |}
       = Resolved s3
       /\ ~ selection_valid (app s3).
Proof.
  destruct (selection_stays_valid always_saved keys_in_some_order
              keys_in_some_order_enumerates) as (Hkeep & Hbreak & _).
  split.
  - destruct (Hkeep (Settle 0) saving) as (s' & Hs' & Hv & _).
    + vm_compute. now eexists.
    + intros p [<-|[]]. vm_compute. now eexists.
    + simpl. lia.
    + exact I.
    + exists s'. split; [exact Hs'|]. split; [|exact Hv].
      vm_compute in Hs'. injection Hs' as <-. reflexivity.
  - destruct (Hbreak rapid {| app := loaded; pending := [] |}
                AppExamples.config eq_refl)
      as (s1 & s2 & s3 & H1 & H2 & H3 & _ & _ & Hbad).
    exists s3. split; [|exact Hbad].
    rewrite <- H3. injection H2 as <-. injection H1 as <-. reflexivity.
Defined.

(** X23: duplicating a scenario stores a copy under the name followed by
    [_copy], with the same description and overrides and with that new
    name, and leaves the original alone; duplicating the same scenario
    again changes nothing, so a scenario never has more than one copy. *)
Theorem duplicate_twice_is_duplicate_once (name : text)
    (st st1 : AppState) (cfg : FullConfig) :
  config st = Some cfg ->
  handleDuplicateScenario name st = Resolved st1 ->
  handleDuplicateScenario name st1 = Resolved st1
  /\ exists src,
       scenarios cfg !! name = Some src
       /\ scenarios_of st1 !! name = Some src
       /\ scenarios_of st1 !! (name ++ str "_copy")
          = Some {| App.name := name ++ str "_copy";
                    description := description src;
                    param_overrides := param_overrides src;
                    initial_overrides := initial_overrides src |}
       /\ forall k, k <> name ++ str "_copy" ->
                    scenarios_of st1 !! k = scenarios cfg !! k.
Proof.
  intros Hc. unfold handleDuplicateScenario. rewrite Hc.
  destruct (scenarios cfg !! name) as [src|] eqn:E; [|discriminate].
  intros [= <-].
  assert (Hne : name ++ str "_copy" <> name).
  { intros H. apply (f_equal (@length _)) in H. rewrite length_app in H.
    simpl in H. lia. }
  cbn [set_config config with_scenarios scenarios].
  rewrite lookup_insert_ne by exact Hne. rewrite E.
  split.
  - unfold set_config, with_scenarios. cbn. now rewrite insert_insert_eq.
  - exists src. unfold scenarios_of. cbn.
    rewrite lookup_insert_ne by exact Hne. rewrite lookup_insert_eq.
    repeat split; auto. intros k Hk. now apply lookup_insert_ne.
Qed.

Lemma duplicate_twice_is_duplicate_once_witness :
  exists st1,
    handleDuplicateScenario (str "compliance_first") loaded = Resolved st1
    /\ handleDuplicateScenario (str "compliance_first") st1 = Resolved st1.
Proof.
  eexists. split; [reflexivity|].
  eapply (proj1 (duplicate_twice_is_duplicate_once (str "compliance_first")
                   loaded _ AppExamples.config eq_refl eq_refl)).
Defined.

End AppHandlersFacts.

Module ScenarioModalFacts.
Import Js App AppExamples NodeEditExamples ScenarioModal.

Lemma trimStart_suffix s : exists p, s = p ++ trimStart s.
Proof.
  induction s as [|c s [p IH]]; simpl; [now exists []|].
  destruct (is_whitespace c); [|now exists []].
  exists (c :: p). simpl. now rewrite <- IH.
Qed.

(** A trimmed text that is not empty starts and ends with a code unit
    that is not white space. *)
Lemma trim_ends s :
  trim s <> [] ->
  (exists c r, trim s = c :: r /\ is_whitespace c = false)
  /\ (exists r c, trim s = r ++ [c] /\ is_whitespace c = false).
Proof.
  unfold trim, trimEnd. intros Hne.
  pose proof (NodeEditClaims.trimStart_spec s) as H1.
  pose proof (NodeEditClaims.trimStart_spec (rev (trimStart s))) as H2.
  destruct (trimStart_suffix (rev (trimStart s))) as [p Hp].
  destruct (trimStart (rev (trimStart s))) as [|c v] eqn:Ev; [now elim Hne|].
  split.
  - apply (f_equal (@rev _)) in Hp. rewrite rev_involutive, rev_app_distr in Hp.
    destruct (rev (c :: v)) as [|x r] eqn:Er.
    { apply (f_equal (@length _)) in Er. rewrite length_rev in Er. discriminate. }
    exists x, r. split; [reflexivity|].
    rewrite Hp in H1. exact H1.
  - exists (rev v), c. split; [reflexivity|exact H2].
Qed.

(** X24: the scenario form saves nothing when the name is blank;
    otherwise it passes on one scenario whose name is the trimmed name
    (not empty, with no white space at either end) together with the
    overrides as entered, and closes; the key under which the app stores
    that scenario is then not empty. *)
Theorem scenario_form_saves_trimmed_name (st : Form) :
  (blank (name st) -> handleSave st = [])
  /\ (~ blank (name st) ->
      handleSave st = [onSave (scenario_of st); onClose]
      /\ App.name (scenario_of st) = trim (name st)
      /\ (exists c r, App.name (scenario_of st) = c :: r
                      /\ is_whitespace c = false)
      /\ (exists r c, App.name (scenario_of st) = r ++ [c]
                      /\ is_whitespace c = false)
      /\ param_overrides (scenario_of st) = paramOverrides st
      /\ initial_overrides (scenario_of st) = initialOverrides st
      /\ AppHandlers.scenario_key (App.name (scenario_of st)) <> []).
Proof.
  unfold handleSave. split.
  - intros H. apply NodeEditClaims.trim_blank in H. now rewrite H.
  - intros H. rewrite <- NodeEditClaims.trim_blank in H.
    destruct (trim_ends (name st) H) as [Hhead Hlast].
    destruct (trim (name st)) as [|c r] eqn:E; [now elim H|].
    cbn [scenario_of App.name param_overrides initial_overrides].
    rewrite E. repeat split; auto.
    apply AppHandlersFacts.scenario_key_nonempty. discriminate.
Qed.

Lemma scenario_form_saves_trimmed_name_witness :
  handleSave {| name := str "  Rapid scaling "; description := [];
                paramOverrides := ∅; initialOverrides := ∅;
                activeTab := params |}
  = [onSave {| App.name := str "Rapid scaling"; App.description := [];
               param_overrides := ∅; initial_overrides := ∅ |};
     onClose].
Proof.
  destruct (proj2 (scenario_form_saves_trimmed_name
                     {| name := str "  Rapid scaling "; description := [];
                        paramOverrides := ∅; initialOverrides := ∅;
                        activeTab := params |})) as (E & _).
  - intros H. inversion H as [|? ? _ H1]; subst.
    inversion H1 as [|? ? _ H2]; subst. inversion H2 as [|? ? Hc _]; subst.
    discriminate Hc.
  - rewrite E. reflexivity.
Defined.

(** X25: adding an override for a known parameter in the scenario form
    starts it at the parameter's configured value, so the values the app
    loads for the scenario are the same as without that override: an
    added override changes nothing until it is edited. *)
Theorem added_override_starts_at_default (p : Props) (key : text)
    (st : Form) (cfg : FullConfig) :
  parameters p = App.parameters cfg ->
  is_Some (App.parameters cfg !! key) ->
  paramValues (loadScenarioValues (scenario_of (handleAddParam p key st)) cfg)
  = paramValues (loadScenarioValues (scenario_of (handleRemoveParam key st)) cfg).
Proof.
  intros Hp [q Hq]. apply map_eq. intros k.
  unfold loadScenarioValues, scenario_of, handleAddParam, handleRemoveParam.
  cbn [paramValues param_overrides setParamOverrides paramOverrides].
  rewrite !AppClaims.spread2_lookup, !AppClaims.collect_lookup.
  rewrite Hp, Hq.
  destruct (decide (key = k)) as [<-|Hne].
  - rewrite lookup_insert_eq, lookup_delete_eq, Hq. reflexivity.
  - rewrite lookup_insert_ne, lookup_delete_ne by exact Hne. reflexivity.
Qed.

Lemma added_override_starts_at_default_witness :
  paramValues
    (loadScenarioValues
       (scenario_of
          (handleAddParam
             {| isOpen := true; parameters := App.parameters config;
                states := App.states config; existingScenario := None;
                mode := create |}
             (str "kS")
             {| name := str "x"; description := [];
                paramOverrides := ∅; initialOverrides := ∅;
                activeTab := params |}))
       config) !! str "kS" = Some 0.2%float.
Proof.
  rewrite (added_override_starts_at_default
             {| isOpen := true; parameters := App.parameters config;
                states := App.states config; existingScenario := None;
                mode := create |}
             (str "kS")
             {| name := str "x"; description := [];
                paramOverrides := ∅; initialOverrides := ∅;
                activeTab := params |}
             config eq_refl).
  - reflexivity.
  - now eexists.
Defined.

End ScenarioModalFacts.

(** ** Loading a node into the node editor, and the AI proposal modal *)

Module NodeEditLoadFacts.
Import Js NodeEditModalLoad NodeEditLoadExamples NodeEditExamples.

Lemma edit_equations_keeps_fields cs : forall st,
  NodeEditModal.name (edit_equations cs st) = NodeEditModal.name st
  /\ NodeEditModal.description (edit_equations cs st) = NodeEditModal.description st
  /\ NodeEditModal.businessMeaning (edit_equations cs st)
     = NodeEditModal.businessMeaning st
  /\ NodeEditModal.initial (edit_equations cs st) = NodeEditModal.initial st
  /\ NodeEditModal.category (edit_equations cs st) = NodeEditModal.category st.
Proof.
  induction cs as [|c cs IH]; intros st; [now repeat split|].
  change (edit_equations (c :: cs) st) with (edit_equations cs (onChange c st)).
  destruct (IH (onChange c st)) as (-> & -> & -> & -> & ->).
  now destruct c.
Qed.

(** X28: opening a node in the node editor and saving it, with or without
    changes made in the two equation editors in between, hands the node's
    own label, description, business meaning, initial value and category
    to [onSave], together with the dependencies the equation editors
    reported last, and closes, when the label is not blank and the initial
    value lies between 0 and 1; the text of the equations is not handed
    over.  A node whose label is blank or whose initial value lies outside
    that range cannot be saved this way: nothing is called. *)
Theorem unchanged_node_saves_its_own_values (node : Node)
    (cs : list equation_change) (st : NodeEditModal.State) :
  let opened := edit_equations cs (load node st) in
  (~ blank (label (data node))
   /\ lt (initial (data node)) 0 = false /\ gt (initial (data node)) 1 = false ->
   snd (NodeEditModal.handleSave (id node) opened)
   = [NodeEditModal.onSave (id node) (own_values node)
        {| NodeEditModal.target := NodeEditModal.targetDeps opened;
           NodeEditModal.derivative := NodeEditModal.derivativeDeps opened |};
      NodeEditModal.onClose])
  /\ (blank (label (data node))
      \/ lt (initial (data node)) 0 = true \/ gt (initial (data node)) 1 = true ->
      snd (NodeEditModal.handleSave (id node) opened) = []).
Proof.
  intros opened.
  destruct (edit_equations_keeps_fields cs (load node st))
    as (Hn & Hd & Hb & Hi & Hc).
  fold opened in Hn, Hd, Hb, Hi, Hc. cbn [load NodeEditModal.name
    NodeEditModal.description NodeEditModal.businessMeaning
    NodeEditModal.initial NodeEditModal.category] in Hn, Hd, Hb, Hi, Hc.
  unfold NodeEditModal.handleSave.
  set (st1 := NodeEditModal.setErrors []
                (NodeEditModal.setValidating true opened)).
  pose proof (NodeEditClaims.newErrors_nil st1) as Hnil.
  change (NodeEditModal.name st1) with (NodeEditModal.name opened) in Hnil.
  change (NodeEditModal.initial st1) with (NodeEditModal.initial opened) in Hnil.
  rewrite Hn, Hi in Hnil.
  split.
  - intros H. rewrite (proj2 Hnil H). cbn [snd].
    change (NodeEditModal.name st1) with (NodeEditModal.name opened).
    change (NodeEditModal.description st1) with (NodeEditModal.description opened).
    change (NodeEditModal.businessMeaning st1)
      with (NodeEditModal.businessMeaning opened).
    change (NodeEditModal.initial st1) with (NodeEditModal.initial opened).
    change (NodeEditModal.category st1) with (NodeEditModal.category opened).
    rewrite Hn, Hd, Hb, Hi, Hc. reflexivity.
  - intros H.
    assert (Hne : NodeEditModal.newErrors st1 <> []).
    { intros E. apply (proj1 Hnil) in E as (Hbl & Hl & Hg).
      destruct H as [H|[H|H]]; [contradiction|congruence|congruence]. }
    destruct (NodeEditModal.newErrors st1); [congruence|reflexivity].
Qed.

Lemma unchanged_node_saves_its_own_values_witness :
  snd (NodeEditModal.handleSave (str "T")
         (edit_equations rewritten
            (load (targeting (str "Targeting") 0.5%float) (form [] 0%float))))
  = [NodeEditModal.onSave (str "T")
       (own_values (targeting (str "Targeting") 0.5%float))
       {| NodeEditModal.target := no_dependencies;
          NodeEditModal.derivative :=
            {| EquationEditor.stocks := [str "S"; str "T"];
               EquationEditor.parameters := [str "kT"] |} |};
     NodeEditModal.onClose]
  /\ snd (NodeEditModal.handleSave (str "T")
            (load (targeting (str "Targeting") 1.5%float) (form [] 0%float)))
     = [].
Proof.
  split.
  - apply (proj1 (unchanged_node_saves_its_own_values
                    (targeting (str "Targeting") 0.5%float) rewritten
                    (form [] 0%float))).
    split; [|split; reflexivity].
    intros H. inversion H as [|? ? Hc _]. discriminate Hc.
  - apply (proj2 (unchanged_node_saves_its_own_values
                    (targeting (str "Targeting") 1.5%float) [] (form [] 0%float))).
    right. right. reflexivity.
Defined.

End NodeEditLoadFacts.

Module AIProposalFacts.
Import Js DraftsApi Chart AIProposalModal AIProposalExamples FrontEndExamples
  GraphEditorHandlersExamples.

Lemma filter_index_elements {A} (f : nat -> bool) (xs : list A) : forall i x,
  In x (filter_index f i xs)
  <-> exists k, xs !! k = Some x /\ f (i + k) = true.
Proof.
  induction xs as [|y xs IH]; intros i x; simpl.
  - split; [tauto|]. intros (k & Hk & _). discriminate Hk.
  - split.
    + destruct (f i) eqn:Ef.
      * intros [<-|H]; [exists 0; rewrite Nat.add_0_r; now split|].
        apply IH in H as (k & Hk & Hf). exists (S k). split; [exact Hk|].
        now replace (i + S k) with (S i + k) by lia.
      * intros H. apply IH in H as (k & Hk & Hf). exists (S k).
        split; [exact Hk|]. now replace (i + S k) with (S i + k) by lia.
    + intros ([|k] & Hk & Hf).
      * injection Hk as ->. rewrite Nat.add_0_r in Hf. rewrite Hf. now left.
      * assert (Hin : In x (filter_index f (S i) xs)).
        { apply IH. exists k. split; [exact Hk|].
          now replace (S i + k) with (i + S k) by lia. }
        destruct (f i); [now right|exact Hin].
Qed.

Lemma filter_index_all {A} (f : nat -> bool) (xs : list A) : forall i,
  (forall k, k < length xs -> f (i + k) = true) -> filter_index f i xs = xs.
Proof.
  induction xs as [|y xs IH]; intros i H; simpl; [reflexivity|].
  rewrite <- (Nat.add_0_r i) at 1. rewrite (H 0) by (simpl; lia).
  f_equal. apply IH. intros k Hk.
  replace (S i + k) with (i + S k) by lia. apply H. simpl. lia.
Qed.

(** X29: Accept Selected passes on exactly the proposals whose index is
    in the selection, in the order of the proposals, then clears the
    prompt and the selection; when no selected index points at a proposal
    (a selection left over from a longer list of proposals) it calls
    nothing and changes nothing, although the selection is not empty. *)
Theorem accept_passes_the_selected_proposals (proposals : list PatchChange)
    (st : State) :
  (forall c, In c (selected proposals st)
             <-> exists i, i ∈ selectedChanges st /\ proposals !! i = Some c)
  /\ sublist (selected proposals st) proposals
  /\ ((forall i, i ∈ selectedChanges st -> length proposals <= i) ->
      handleAcceptSelected proposals st = (st, []))
  /\ (selected proposals st <> [] ->
      handleAcceptSelected proposals st
      = ({| prompt := []; selectedChanges := ∅ |},
         [onAccept (selected proposals st)])).
Proof.
  assert (Hel : forall c, In c (selected proposals st)
                <-> exists i, i ∈ selectedChanges st /\ proposals !! i = Some c).
  { intros c. unfold selected. rewrite filter_index_elements. split.
    - intros (k & Hk & Hf). apply bool_decide_eq_true in Hf. now exists k.
    - intros (i & Hi & Hc). exists i. split; [exact Hc|].
      now apply bool_decide_eq_true. }
  split; [exact Hel|].
  split; [apply ChartFacts.filter_index_sublist|].
  unfold handleAcceptSelected. split.
  - intros Hstale. destruct (selected proposals st) as [|c cs] eqn:E; [reflexivity|].
    destruct (proj1 (Hel c)) as (i & Hi & Hc); [now left|].
    apply lookup_lt_Some in Hc. specialize (Hstale i Hi). lia.
  - intros Hne. destruct (selected proposals st); [congruence|reflexivity].
Qed.

Lemma accept_passes_the_selected_proposals_witness :
  handleAcceptSelected [reposition; rename] stale = (stale, [])
  /\ snd (handleAcceptSelected [reposition; rename] second_only)
     = [onAccept [rename]].
Proof.
  destruct (accept_passes_the_selected_proposals [reposition; rename] stale)
    as (_ & _ & Hstale & _).
  destruct (accept_passes_the_selected_proposals [reposition; rename] second_only)
    as (_ & _ & _ & Hsome).
  split.
  - apply Hstale. intros i Hi. unfold stale in Hi. cbn [selectedChanges] in Hi.
    apply elem_of_singleton in Hi. subst. simpl. lia.
  - rewrite Hsome; [reflexivity|]. vm_compute. discriminate.
Defined.

(** X30: toggling a proposal twice leaves the selection as it was; and
    the Select All button followed by Accept Selected passes on every
    proposal, in order, when the size of the selection differs from the
    number of proposals (otherwise the button clears the selection
    instead). *)
Theorem toggle_twice_and_select_all (proposals : list PatchChange)
    (index : nat) (st : State) :
  toggleChange index (toggleChange index st) = st
  /\ (size (selectedChanges st) <> length proposals -> proposals <> [] ->
      handleAcceptSelected proposals (toggleAll proposals st)
      = ({| prompt := []; selectedChanges := ∅ |}, [onAccept proposals]))
  /\ (size (selectedChanges st) = length proposals ->
      selectedChanges (toggleAll proposals st) = ∅).
Proof.
  split; [|split].
  - destruct st as [p s]. unfold toggleChange. cbn [prompt selectedChanges].
    f_equal. destruct (bool_decide (index ∈ s)) eqn:E.
    + apply bool_decide_eq_true in E.
      rewrite bool_decide_eq_false_2
        by (rewrite elem_of_difference, elem_of_singleton; tauto).
      apply set_eq. intros x.
      rewrite elem_of_union, elem_of_difference, !elem_of_singleton.
      destruct (decide (x = index)) as [->|]; tauto.
    + apply bool_decide_eq_false in E.
      rewrite bool_decide_eq_true_2
        by (rewrite elem_of_union, elem_of_singleton; tauto).
      apply set_eq. intros x.
      rewrite elem_of_difference, elem_of_union, !elem_of_singleton.
      destruct (decide (x = index)) as [->|]; tauto.
  - intros Hsize Hne. unfold handleAcceptSelected, selected, toggleAll.
    cbn [selectedChanges prompt].
    apply Nat.eqb_neq in Hsize. rewrite Hsize.
    rewrite filter_index_all.
    + destruct proposals; [congruence|reflexivity].
    + intros k Hk. apply bool_decide_eq_true.
      apply elem_of_list_to_set, elem_of_seq. simpl. lia.
  - intros Hsize. unfold toggleAll. cbn [selectedChanges].
    apply Nat.eqb_eq in Hsize. now rewrite Hsize.
Qed.

Lemma toggle_twice_and_select_all_witness :
  handleAcceptSelected [reposition; rename]
    (toggleAll [reposition; rename] second_only)
  = ({| prompt := []; selectedChanges := ∅ |},
     [onAccept [reposition; rename]]).
Proof.
  apply (proj1 (proj2 (toggle_twice_and_select_all [reposition; rename] 0
                         second_only))).
  - vm_compute. discriminate.
  - discriminate.
Defined.

End AIProposalFacts.
